(** * Path-addressed immutable document update: a model of the editor core

    The development embeds the four source units of the JSON editor

    - [updateValueAtPath]  (utils/updateValueAtPath),
    - [getValueAtPath]     (utils/getValueAtPath),
    - the [useJson] store  (store/useJson.ts),
    - the logic of [NodeModal] (features/modals/NodeModal/index.tsx),

    over a model of the JavaScript run time they execute on, ECMA-262 in
    its 2024 edition.

    Scope of the run-time model.  Strings are sequences of UTF-16 code
    units.  Numbers are IEEE-754 binary64 values ([spec_float], one NaN).
    Objects and arrays live in a heap and are handled by reference, so that
    cloning, sharing and in-place assignment are what they are in the
    source.  A member access [v[k]] reads the entries of [v], the [length]
    of an array and of a text, and the members inherited from the built-in
    prototypes, the accessor [__proto__] among them; an assignment
    [v[k] = x] makes or replaces an entry, sets the [length] of an array,
    or goes to the setter of [__proto__].  What a built-in function holds,
    an object whose prototype has been set to another object and the
    conversion of such objects to numbers are left out: a run that needs
    them ends as [Beyond], and no statement is made about it.  Entries are
    listed in the order they were created; the rule that integer keys are
    listed first is left out, as nothing here depends on the order.  A
    hole of a sparse array is kept as an entry that holds [undefined],
    which is what the modelled code reads and copies of it. *)

From Stdlib Require Import ZArith NArith List String Ascii Bool Lia.
From Stdlib.Floats Require Import SpecFloat.
From stdpp Require Import base list.

Local Open Scope N_scope.

(* ===================================================================== *)
(** * The JavaScript run time                                            *)
(* ===================================================================== *)

Module JS.

(** ** Strings *)

Abbreviation jstring := (list N) (only parsing).

(** A literal of the source, as code units. *)
Definition js (s : string) : jstring :=
  map N_of_ascii (list_ascii_of_string s).

Fixpoint jstring_eqb (s t : jstring) : bool :=
  match s, t with
  | [], [] => true
  | c :: s', d :: t' => N.eqb c d && jstring_eqb s' t'
  | _, _ => false
  end.

(** [WhiteSpace] and [LineTerminator] of ECMA-262: what [trim] strips and
    what [Number] skips around a numeric literal. *)
Definition is_white_space (c : N) : bool :=
  (9 <=? c) && (c <=? 13)
  || (c =? 32) || (c =? 160) || (c =? 5760)
  || (8192 <=? c) && (c <=? 8202)
  || (c =? 8232) || (c =? 8233) || (c =? 8239) || (c =? 8287)
  || (c =? 12288) || (c =? 65279).

Fixpoint trimStart (s : jstring) : jstring :=
  match s with
  | c :: s' => if is_white_space c then trimStart s' else s
  | [] => []
  end.

Definition trimEnd (s : jstring) : jstring := rev (trimStart (rev s)).

(** [String.prototype.trim] *)
Definition trim (s : jstring) : jstring := trimEnd (trimStart s).

(** [String.prototype.toLowerCase], on the Basic Latin and Latin-1 ranges.
    Code units above U+00FF are passed through: the Unicode case tables are
    not reproduced.  The source only compares the result with the words
    true, false and null, and no character outside Basic Latin lowers to
    one of their letters. *)
Definition lower_unit (c : N) : N :=
  if (65 <=? c) && (c <=? 90) then c + 32
  else if (192 <=? c) && (c <=? 222) && negb (c =? 215) then c + 32
  else c.

Definition toLowerCase (s : jstring) : jstring := map lower_unit s.

(** ** Numbers *)

Definition number := spec_float.

Definition prec : Z := 53.
Definition emax : Z := 1024.

Definition NaN : number := S754_nan.
Definition Infinity (neg : bool) : number := S754_infinity neg.

(** [Number.isNaN] *)
Definition isNaN (x : number) : bool :=
  match x with S754_nan => true | _ => false end.

(** The double of an integer literal. *)
Definition of_Z (z : Z) : number := binary_normalize prec emax z 0 false.

(** The double nearest to [n / d] (ties to even), from the exact quotient. *)
Definition of_ratio (neg : bool) (n d : positive) : number :=
  let '(q, e, l) := SFdiv_core_binary prec emax (Zpos n) 0 (Zpos d) 0 in
  binary_round_aux prec emax neg q e l.

(** The double nearest to [m * 10 ^ e]: the rounding of the mathematical
    value of a decimal literal. *)
Definition of_decimal (neg : bool) (m : N) (e : Z) : number :=
  match m with
  | N0 => S754_zero neg
  | Npos p =>
      match e with
      | Zneg k => of_ratio neg p (10 ^ k)%positive
      | _ => binary_round prec emax neg (p * Z.to_pos (10 ^ e))%positive 0
      end
  end.

(** *** Numeric literals *)

Definition digit_of (base : N) (c : N) : option N :=
  let d :=
    if (48 <=? c) && (c <=? 57) then Some (c - 48)
    else if (97 <=? c) && (c <=? 102) then Some (c - 87)
    else if (65 <=? c) && (c <=? 70) then Some (c - 55)
    else None in
  match d with
  | Some v => if v <? base then Some v else None
  | None => None
  end.

(** The longest prefix of digits of the base, as digit values, and the rest. *)
Fixpoint span_digits (base : N) (s : jstring) : list N * jstring :=
  match s with
  | c :: s' =>
      match digit_of base c with
      | Some d => let '(ds, r) := span_digits base s' in (d :: ds, r)
      | None => ([], s)
      end
  | [] => ([], [])
  end.

Definition digits_value (base : N) (ds : list N) : N :=
  fold_left (fun acc d => acc * base + d) ds 0.

(** An optional sign: [true] for a minus. *)
Definition span_sign (s : jstring) : bool * jstring :=
  match s with
  | 43 :: r => (false, r)
  | 45 :: r => (true, r)
  | _ => (false, s)
  end.

(** [ExponentPart] when the text starts with e or E; [None] when it starts
    so and is malformed. *)
Definition span_exponent (s : jstring) : option (Z * jstring) :=
  match s with
  | (101 | 69) :: r =>
      let '(neg, r1) := span_sign r in
      match span_digits 10 r1 with
      | ([], _) => None
      | (ds, r2) =>
          let v := Z.of_N (digits_value 10 ds) in
          Some (if neg then (- v)%Z else v, r2)
      end
  | _ => Some (0%Z, s)
  end.

(** Integer part, fraction part and exponent of a decimal literal give the
    mantissa and the power of ten of its mathematical value. *)
Definition decimal_value (neg : bool) (ip fp : list N) (ex : Z) : number :=
  of_decimal neg (digits_value 10 (ip ++ fp)) (ex - Z.of_nat (length fp)).

(** [StrUnsignedDecimalLiteral] other than Infinity, to the end of the text. *)
Definition unsigned_decimal (neg : bool) (s : jstring) : number :=
  let '(ip, r) := span_digits 10 s in
  let '(fp, r1) :=
    match r with
    | 46 :: r' => span_digits 10 r'
    | _ => ([], r)
    end in
  match ip, fp with
  | [], [] => NaN
  | _, _ =>
      match span_exponent r1 with
      | Some (ex, []) => decimal_value neg ip fp ex
      | _ => NaN
      end
  end.

(** [StrDecimalLiteral] *)
Definition str_decimal (s : jstring) : number :=
  let '(neg, r) := span_sign s in
  if jstring_eqb r (js "Infinity") then Infinity neg
  else unsigned_decimal neg r.

(** [NonDecimalIntegerLiteral]: digits of the base to the end of the text. *)
Definition non_decimal (base : N) (s : jstring) : number :=
  match span_digits base s with
  | (d :: ds, []) => of_decimal false (digits_value base (d :: ds)) 0
  | _ => NaN
  end.

(** [StringToNumber], the conversion behind [Number(text)]. *)
Definition StringToNumber (s : jstring) : number :=
  match trim s with
  | [] => S754_zero false
  | 48 :: (120 | 88) :: r => non_decimal 16 r
  | 48 :: (111 | 79) :: r => non_decimal 8 r
  | 48 :: (98 | 66) :: r => non_decimal 2 r
  | t => str_decimal t
  end.

End JS.

(* ===================================================================== *)
(** * Numbers as text                                                    *)
(* ===================================================================== *)

Module JSText.
Import JS.

Fixpoint uint_text (u : Decimal.uint) : jstring :=
  match u with
  | Decimal.Nil => []
  | Decimal.D0 u' => 48 :: uint_text u'
  | Decimal.D1 u' => 49 :: uint_text u'
  | Decimal.D2 u' => 50 :: uint_text u'
  | Decimal.D3 u' => 51 :: uint_text u'
  | Decimal.D4 u' => 52 :: uint_text u'
  | Decimal.D5 u' => 53 :: uint_text u'
  | Decimal.D6 u' => 54 :: uint_text u'
  | Decimal.D7 u' => 55 :: uint_text u'
  | Decimal.D8 u' => 56 :: uint_text u'
  | Decimal.D9 u' => 57 :: uint_text u'
  end.

(** The decimal digits of a non-negative integer: its text, as [String]
    gives it for an integer below 10^21. *)
Definition decimal (n : N) : jstring := uint_text (N.to_uint n).

Definition float_eqb (x y : number) : bool :=
  match x, y with
  | S754_zero s, S754_zero s' => Bool.eqb s s'
  | S754_infinity s, S754_infinity s' => Bool.eqb s s'
  | S754_nan, S754_nan => true
  | S754_finite s m e, S754_finite s' m' e' =>
      Bool.eqb s s' && Pos.eqb m m' && Z.eqb e e'
  | _, _ => false
  end.

(** [n] with 10^(n-1) <= num/den < 10^n. *)
Definition decimal_magnitude (num den : positive) : Z :=
  if (den <=? num)%positive then
    Z.of_nat (length (decimal (Npos num / Npos den)))
  else
    let d := length (decimal (Npos den / Npos num)) in
    let j := if (den <=? num * 10 ^ Pos.of_nat (d - 1))%positive && (1 <? d)%nat
             then (d - 1)%nat else d in
    (1 - Z.of_nat j)%Z.

(** The shortest digits: for a positive finite [x = num/den] and a count
    [k] of digits, the integer [s] of [k] digits and the [n] for which
    [s * 10^(n-k)] rounds to [x], the one nearest to [x] when two do. *)
Definition digits_for (x : number) (num den : positive) (k : Z) : option (N * Z) :=
  let n := decimal_magnitude num den in
  let '(a, b) :=
    if (n <=? k)%Z then (Npos num * 10 ^ Z.to_N (k - n), Npos den)
    else (Npos num, Npos den * 10 ^ Z.to_N (n - k)) in
  let lo := a / b in
  let r := a mod b in
  let hi := lo + 1 in
  let ok s := float_eqb (of_decimal false s (n - k)) x in
  let pick :=
    match (2 * r ?= b) with
    | Lt => if ok lo then Some lo else if ok hi then Some hi else None
    | Gt => if ok hi then Some hi else if ok lo then Some lo else None
    | Eq => if N.even lo
            then (if ok lo then Some lo else if ok hi then Some hi else None)
            else (if ok hi then Some hi else if ok lo then Some lo else None)
    end in
  match pick with
  | Some s => if s =? 10 ^ Z.to_N k then Some (10 ^ Z.to_N (k - 1), (n + 1)%Z)
              else Some (s, n)
  | None => None
  end.

Fixpoint shortest (fuel : nat) (x : number) (num den : positive) (k : Z)
  : option (N * Z * Z) :=
  match fuel with
  | O => None
  | S fuel' =>
      match digits_for x num den k with
      | Some (s, n) => Some (s, n, k)
      | None => shortest fuel' x num den (k + 1)
      end
  end.

Definition zeros (n : Z) : jstring := repeat 48 (Z.to_nat n).

(** The text of the digits [s], [k] of them, with the decimal point after
    the first [n]. *)
Definition layout (s : N) (n k : Z) : jstring :=
  let ds := decimal s in
  if ((k <=? n) && (n <=? 21))%Z then ds ++ zeros (n - k)
  else if ((0 <? n) && (n <=? 21))%Z then
    firstn (Z.to_nat n) ds ++ [46] ++ skipn (Z.to_nat n) ds
  else if ((-6 <? n) && (n <=? 0))%Z then [48; 46] ++ zeros (- n) ++ ds
  else
    let e := (n - 1)%Z in
    let et := (if (e <? 0)%Z then [45] else [43]) ++ decimal (Z.to_N (Z.abs e)) in
    match ds with
    | [d] => [d; 101] ++ et
    | d :: rest => [d; 46] ++ rest ++ [101] ++ et
    | [] => []
    end.

(** [Number.prototype.toString], in base ten: [None] where the search for
    the digits gives up, which seventeen digits never let happen. *)
Definition number_text (x : number) : option jstring :=
  match x with
  | S754_nan => Some (js "NaN")
  | S754_zero _ => Some (js "0")
  | S754_infinity neg => Some ((if neg then [45] else []) ++ js "Infinity")
  | S754_finite neg m e =>
      let '(num, den) :=
        match e with
        | Zneg p => (m, (2 ^ p)%positive)
        | _ => ((m * Z.to_pos (2 ^ e))%positive, 1%positive)
        end in
      match shortest 17 (S754_finite false m e) num den 1 with
      | Some (s, n, k) => Some ((if neg then [45] else []) ++ layout s n k)
      | None => None
      end
  end.

End JSText.

(* ===================================================================== *)
(** * Values, objects and the heap                                       *)
(* ===================================================================== *)

Module Heap.
Import JS JSText.

(** ** The built-in objects a document can reach

    Every text, number, boolean, array and plain object inherits from one
    of five prototype objects.  A member read through one of them is the
    prototype itself (under the name [__proto__]) or a function. *)
Inductive class := ObjectC | ArrayC | StringC | NumberC | BooleanC.

Inductive intrinsic :=
  | Proto (c : class)
  | Method (c : class) (name : jstring).

(** A value is a primitive, a reference to an object of the heap, or a
    built-in object. *)
Inductive value :=
  | VUndefined
  | VNull
  | VBool (b : bool)
  | VNumber (x : number)
  | VString (s : jstring)
  | VRef (a : nat)
  | VIntrinsic (i : intrinsic).

(** A property key, normalised as engines do: the canonical decimal text
    of a non-negative integer is kept as that integer, any other text as
    it is.  Two keys name the same property exactly when they are equal. *)
Inductive key :=
  | KIndex (n : N)
  | KName (s : jstring).

(** The key a string names. *)
Definition key_of_string (s : jstring) : key :=
  match span_digits 10 s with
  | (d :: ds, []) =>
      if negb (d =? 0) || match ds with [] => true | _ => false end
      then KIndex (digits_value 10 (d :: ds))
      else KName s
  | _ => KName s
  end.

Definition key_eqb (k k' : key) : bool :=
  match k, k' with
  | KIndex n, KIndex n' => n =? n'
  | KName s, KName s' => jstring_eqb s s'
  | _, _ => false
  end.

(** The entries of an object: its own enumerable data properties, in the
    order they were created. *)
Abbreviation props := (list (key * value)) (only parsing).

(** A plain object; an array, with its elements and, as any object, the
    entries assigned to it under keys that are not array indices; a plain
    object whose prototype has been set to null. *)
Inductive object :=
  | Obj (ps : props)
  | Arr (elems : list value) (ps : props)
  | Bare (ps : props).

(** Addresses are positions: allocation appends, nothing is ever freed. *)
Abbreviation heap := (list object) (only parsing).

Definition alloc (h : heap) (o : object) : heap * value :=
  (h ++ [o], VRef (length h)).

(** ** Completions

    A run returns, throws, or leaves the part of the language that is
    modelled here ([Beyond]): nothing is said of what the program does
    then, and no [catch] brings the run back. *)

Inductive error := TypeError | SyntaxError | RangeError.

Inductive completion (A : Type) :=
  | Normal (a : A)
  | Throw (e : error)
  | Beyond.
Arguments Normal {A} a.
Arguments Throw {A} e.
Arguments Beyond {A}.

#[global] Instance completion_ret : MRet completion := @Normal.

#[global] Instance completion_bind : MBind completion :=
  fun A B (f : A -> completion B) (m : completion A) =>
    match m with
    | Normal a => f a
    | Throw e => Throw e
    | Beyond => Beyond
    end.

(** [try { m } catch { handler }] *)
Definition try_catch {A} (m : completion A) (handler : error -> completion A)
  : completion A :=
  match m with
  | Normal a => Normal a
  | Throw e => handler e
  | Beyond => Beyond
  end.

(** ** Operators of the language *)

Inductive type_tag :=
  TUndefined | TObject | TBoolean | TNumber | TString | TFunction.

(** [typeof v]; the value null answers object. *)
Definition typeof (v : value) : type_tag :=
  match v with
  | VUndefined => TUndefined
  | VNull => TObject
  | VBool _ => TBoolean
  | VNumber _ => TNumber
  | VString _ => TString
  | VRef _ => TObject
  | VIntrinsic (Proto _) => TObject
  | VIntrinsic (Method _ _) => TFunction
  end.

Definition type_tag_eqb (s t : type_tag) : bool :=
  match s, t with
  | TUndefined, TUndefined | TObject, TObject | TBoolean, TBoolean
  | TNumber, TNumber | TString, TString | TFunction, TFunction => true
  | _, _ => false
  end.

(** [v == null] *)
Definition nullish (v : value) : bool :=
  match v with
  | VUndefined | VNull => true
  | _ => false
  end.

(** [v === null] *)
Definition is_null (v : value) : bool :=
  match v with VNull => true | _ => false end.

(** [ToBoolean], the test behind [&&] and [if]. *)
Definition truthy (v : value) : bool :=
  match v with
  | VUndefined | VNull => false
  | VBool b => b
  | VNumber (S754_zero _) | VNumber S754_nan => false
  | VNumber _ => true
  | VString [] => false
  | VString _ => true
  | VRef _ => true
  | VIntrinsic _ => true
  end.

(** [Array.isArray(v)]; the prototype of the arrays is an array itself. *)
Definition isArray (h : heap) (v : value) : bool :=
  match v with
  | VRef a => match h !! a with Some (Arr _ _) => true | _ => false end
  | VIntrinsic (Proto ArrayC) => true
  | _ => false
  end.

(** ** Entries *)

Fixpoint props_get (ps : props) (k : key) : option value :=
  match ps with
  | [] => None
  | (k', v) :: ps' => if key_eqb k' k then Some v else props_get ps' k
  end.

(** Assignment replaces the value of an existing key where it stands and
    creates a new key last. *)
Fixpoint props_set (ps : props) (k : key) (v : value) : props :=
  match ps with
  | [] => [(k, v)]
  | (k', v') :: ps' =>
      if key_eqb k' k then (k', v) :: ps' else (k', v') :: props_set ps' k v
  end.

Definition or_undefined (o : option value) : value :=
  match o with Some v => v | None => VUndefined end.

(** The keys that are array indices: the integers below 2^32 - 1. *)
Definition array_index (k : key) : option nat :=
  match k with
  | KIndex n => if n <? 4294967295 then Some (N.to_nat n) else None
  | KName _ => None
  end.

(** The entry [k] of an object, undefined when there is none. *)
Definition object_get (o : object) (k : key) : value :=
  match o with
  | Obj ps | Bare ps => or_undefined (props_get ps k)
  | Arr es ps =>
      match array_index k with
      | Some i => or_undefined (es !! i)
      | None => or_undefined (props_get ps k)
      end
  end.

(** Writing past the end of an array grows it; the positions in between
    read as undefined. *)
Definition elems_set (es : list value) (i : nat) (v : value) : list value :=
  if (i <? length es)%nat then <[i := v]> es
  else es ++ replicate (i - length es) VUndefined ++ [v].

(** The object with the entry [k] made, or replaced. *)
Definition object_set (o : object) (k : key) (v : value) : object :=
  match o with
  | Obj ps => Obj (props_set ps k v)
  | Bare ps => Bare (props_set ps k v)
  | Arr es ps =>
      match array_index k with
      | Some i => Arr (elems_set es i v) ps
      | None => Arr es (props_set ps k v)
      end
  end.

(** Whether [k] is an entry of an object. *)
Definition object_has (o : object) (k : key) : bool :=
  match o with
  | Obj ps | Bare ps => match props_get ps k with Some _ => true | None => false end
  | Arr es ps =>
      match array_index k with
      | Some i => (i <? length es)%nat
      | None => match props_get ps k with Some _ => true | None => false end
      end
  end.

(** The entries of a string: its code units under their indices. *)
Fixpoint string_entries (i : N) (s : jstring) : props :=
  match s with
  | [] => []
  | c :: s' => (KIndex i, VString [c]) :: string_entries (i + 1) s'
  end.

Fixpoint elems_entries (i : N) (es : list value) : props :=
  match es with
  | [] => []
  | v :: es' => (KIndex i, v) :: elems_entries (i + 1) es'
  end.

(** The entries an object spread [{...v}] copies; none for undefined,
    null, booleans, numbers and the built-in objects, whose members are
    not enumerable. *)
Definition own_entries (h : heap) (v : value) : props :=
  match v with
  | VString s => string_entries 0 s
  | VRef a =>
      match h !! a with
      | Some (Obj ps) | Some (Bare ps) => ps
      | Some (Arr es ps) => elems_entries 0 es ++ ps
      | None => []
      end
  | _ => []
  end.

(** The elements an array spread [[...v]] copies. *)
Definition spread_elems (h : heap) (v : value) : list value :=
  match v with
  | VRef a => match h !! a with Some (Arr es _) => es | _ => [] end
  | _ => []
  end.

(** The entry [k] of a text or of an object of the heap, undefined when
    there is none. *)
Definition get_own (h : heap) (v : value) (k : key) : value :=
  match v with
  | VString s =>
      match k with
      | KIndex n => match s !! N.to_nat n with Some c => VString [c] | None => VUndefined end
      | KName _ => VUndefined
      end
  | VRef a => match h !! a with Some o => object_get o k | None => VUndefined end
  | _ => VUndefined
  end.

(** Whether [k] is an entry of a text or of an object of the heap. *)
Definition has_own (h : heap) (v : value) (k : key) : bool :=
  match v with
  | VString s =>
      match k with
      | KIndex n => (N.to_nat n <? length s)%nat
      | KName _ => false
      end
  | VRef a => match h !! a with Some o => object_has o k | None => false end
  | _ => false
  end.

(** ** Members that are not entries *)

Definition names_of (l : list string) : list jstring := map js l.

(** The function-valued properties of the built-in prototypes, as
    ECMA-262 (2024) lists them, Annex B included. *)
Definition names (c : class) : list jstring :=
  match c with
  | ObjectC =>
      names_of ["constructor"; "hasOwnProperty"; "isPrototypeOf";
                "propertyIsEnumerable"; "toLocaleString"; "toString"; "valueOf";
                "__defineGetter__"; "__defineSetter__"; "__lookupGetter__";
                "__lookupSetter__"]%string
  | ArrayC =>
      names_of ["at"; "concat"; "constructor"; "copyWithin"; "entries"; "every";
                "fill"; "filter"; "find"; "findIndex"; "findLast"; "findLastIndex";
                "flat"; "flatMap"; "forEach"; "includes"; "indexOf"; "join"; "keys";
                "lastIndexOf"; "map"; "pop"; "push"; "reduce"; "reduceRight";
                "reverse"; "shift"; "slice"; "some"; "sort"; "splice";
                "toLocaleString"; "toReversed"; "toSorted"; "toSpliced"; "toString";
                "unshift"; "values"; "with"]%string
  | StringC =>
      names_of ["at"; "charAt"; "charCodeAt"; "codePointAt"; "concat"; "constructor";
                "endsWith"; "includes"; "indexOf"; "isWellFormed"; "lastIndexOf";
                "localeCompare"; "match"; "matchAll"; "normalize"; "padEnd";
                "padStart"; "repeat"; "replace"; "replaceAll"; "search"; "slice";
                "split"; "startsWith"; "substring"; "toLocaleLowerCase";
                "toLocaleUpperCase"; "toLowerCase"; "toString"; "toUpperCase";
                "toWellFormed"; "trim"; "trimEnd"; "trimStart"; "valueOf";
                "substr"; "anchor"; "big"; "blink"; "bold"; "fixed"; "fontcolor";
                "fontsize"; "italics"; "link"; "small"; "strike"; "sub"; "sup";
                "trimLeft"; "trimRight"]%string
  | NumberC =>
      names_of ["constructor"; "toExponential"; "toFixed"; "toLocaleString";
                "toPrecision"; "toString"; "valueOf"]%string
  | BooleanC =>
      names_of ["constructor"; "toString"; "valueOf"]%string
  end.

Definition is_name (t : string) (k : key) : bool := key_eqb k (KName (js t)).

(** [trimLeft] and [trimRight] are the functions [trimStart] and
    [trimEnd] under a second name. *)
Definition method (c : class) (s : jstring) : intrinsic :=
  match c with
  | StringC =>
      if jstring_eqb s (js "trimLeft") then Method StringC (js "trimStart")
      else if jstring_eqb s (js "trimRight") then Method StringC (js "trimEnd")
      else Method StringC s
  | _ => Method c s
  end.

(** The function a prototype holds under a name, its own or the one it
    inherits from the prototype of the objects. *)
Definition method_of (c : class) (k : key) : value :=
  match k with
  | KIndex _ => VUndefined
  | KName s =>
      if existsb (jstring_eqb s) (names c) then VIntrinsic (method c s)
      else if existsb (jstring_eqb s) (names ObjectC) then VIntrinsic (method ObjectC s)
      else VUndefined
  end.

(** [v[k]] where [k] names no property of [v] itself and the prototype of
    [v] is the one of the class: the accessor [__proto__] answers the
    prototype, a name of the prototype chain its function. *)
Definition inherited (c : class) (k : key) : value :=
  if is_name "__proto__" k then VIntrinsic (Proto c) else method_of c k.

(** [p[k]] where [p] is the prototype of the class: the prototype of the
    objects has none, the others have it for theirs; the prototypes of
    the arrays and of the texts are an empty array and an empty text. *)
Definition proto_get (c : class) (k : key) : value :=
  if is_name "__proto__" k then
    match c with ObjectC => VNull | _ => VIntrinsic (Proto ObjectC) end
  else if is_name "length" k
          && match c with ArrayC | StringC => true | _ => false end
  then VNumber (of_Z 0)
  else method_of c k.

(** The prototype of a value that is not null, undefined or a built-in
    object; none for an object whose prototype is null. *)
Definition class_of (h : heap) (v : value) : option class :=
  match v with
  | VBool _ => Some BooleanC
  | VNumber _ => Some NumberC
  | VString _ => Some StringC
  | VRef a =>
      match h !! a with
      | Some (Obj _) => Some ObjectC
      | Some (Arr _ _) => Some ArrayC
      | _ => None
      end
  | _ => None
  end.

(** The [length] of an array and of a text: a property of their own that
    is not an entry. *)
Definition own_length (h : heap) (v : value) : option nat :=
  match v with
  | VString s => Some (length s)
  | VRef a => match h !! a with Some (Arr es _) => Some (length es) | _ => None end
  | _ => None
  end.

(** [v[k]] for a primitive or an object of the heap: the length, an
    entry, or what the prototype chain gives. *)
Definition lookup_member (h : heap) (v : value) (k : key) : value :=
  match (if is_name "length" k then own_length h v else None) with
  | Some n => VNumber (of_Z (Z.of_nat n))
  | None =>
      if has_own h v k then get_own h v k
      else match class_of h v with
           | Some c => inherited c k
           | None => VUndefined
           end
  end.

(** [v[k]].  Reading a property of undefined or null throws.  A built-in
    function answers [caller] and [arguments] with a TypeError; its other
    members are not modelled. *)
Definition get_member (h : heap) (v : value) (k : key) : completion value :=
  match v with
  | VUndefined | VNull => Throw TypeError
  | VIntrinsic (Proto c) => Normal (proto_get c k)
  | VIntrinsic (Method _ _) =>
      if is_name "caller" k || is_name "arguments" k then Throw TypeError
      else Beyond
  | _ => Normal (lookup_member h v k)
  end.

(** [v?.[k]] *)
Definition get_member_opt (h : heap) (v : value) (k : key) : completion value :=
  if nullish v then Normal VUndefined else get_member h v k.

(** [ToNumber(x)].  A plain object that has no [valueOf] and no
    [toString] of its own prints as [object Object], which is no number;
    the conversion of any other object is not modelled. *)
Definition to_number (h : heap) (x : value) : completion number :=
  match x with
  | VUndefined => Normal NaN
  | VNull => Normal (S754_zero false)
  | VBool b => Normal (if b then of_Z 1 else S754_zero false)
  | VNumber n => Normal n
  | VString s => Normal (StringToNumber s)
  | VRef a =>
      match h !! a with
      | Some (Obj ps) =>
          match props_get ps (KName (js "valueOf")), props_get ps (KName (js "toString")) with
          | None, None => Normal NaN
          | _, _ => Beyond
          end
      | _ => Beyond
      end
  | VIntrinsic _ => Beyond
  end.

(** The integer below 2^32 a number is, when it is one. *)
Definition to_uint32 (x : number) : option N :=
  let check n := if n <? 4294967296 then Some n else None in
  match x with
  | S754_zero _ => Some 0
  | S754_finite false m e =>
      match e with
      | Z0 => check (Npos m)
      | Zpos p => check (Npos m * 2 ^ Npos p)
      | Zneg p =>
          if Npos m mod 2 ^ Npos p =? 0 then check (Npos m / 2 ^ Npos p) else None
      end
  | _ => None
  end.

(** The elements of an array cut, or grown, to a length. *)
Definition resize (es : list value) (n : nat) : list value :=
  if (n <=? length es)%nat then take n es
  else es ++ replicate (n - length es) VUndefined.

(** [arr.length = x]: a RangeError unless [x] converts to an integer
    below 2^32. *)
Definition array_set_length (h : heap) (es : list value) (ps : props) (x : value)
  : completion object :=
  n ← to_number h x;
  match to_uint32 n with
  | Some len => Normal (Arr (resize es (N.to_nat len)) ps)
  | None => Throw RangeError
  end.

(** [o.__proto__ = x] where the object has no entry of that name: the
    inherited setter ignores a primitive, and takes null or an object for
    the new prototype.  Of the objects with a new prototype the model
    keeps the plain object without a prototype. *)
Definition set_prototype (o : object) (x : value) : completion object :=
  match x with
  | VNull => match o with Obj ps => Normal (Bare ps) | _ => Beyond end
  | VRef _ | VIntrinsic _ => Beyond
  | _ => Normal o
  end.

(** [o[k] = x] on an object. *)
Definition object_assign (h : heap) (o : object) (k : key) (x : value)
  : completion object :=
  match o with
  | Bare _ => Normal (object_set o k x)
  | Obj ps =>
      if is_name "__proto__" k && negb (object_has o k) then set_prototype o x
      else Normal (object_set o k x)
  | Arr es ps =>
      match array_index k with
      | Some _ => Normal (object_set o k x)
      | None =>
          if is_name "length" k then array_set_length h es ps x
          else if is_name "__proto__" k && negb (object_has o k) then set_prototype o x
          else Normal (object_set o k x)
      end
  end.

(** [v[k] = x], in strict code: only an object can take the property. *)
Definition set_member (h : heap) (v : value) (k : key) (x : value) : completion heap :=
  match v with
  | VRef a =>
      match h !! a with
      | Some o => o' ← object_assign h o k x; Normal (<[a := o']> h)
      | None => Throw TypeError
      end
  | VIntrinsic _ => Beyond
  | _ => Throw TypeError
  end.

End Heap.

(* ===================================================================== *)
(** * utils/updateValueAtPath and utils/getValueAtPath                   *)
(* ===================================================================== *)

Module PathOps.
Import JS JSText Heap.

(** A step of a path: a field name, or an index, a non-negative integer. *)
Inductive step :=
  | Key (s : jstring)
  | Index (n : N).

(** [type Path = (string | number)[]] *)
Definition Path := list step.

(** [String(n)] for the number the index is: the decimal digits of an
    integer that a double holds exactly, the digits [Number.toString]
    gives beyond. *)
Definition index_text (n : N) : jstring :=
  match number_text (of_Z (Z.of_N n)) with
  | Some t => t
  | None => decimal n
  end.

(** The property key a step addresses: a number names the property its
    text names. *)
Definition to_key (s : step) : key :=
  match s with
  | Key k => key_of_string k
  | Index n => key_of_string (index_text n)
  end.

(** The [path] argument as it arrives at run time: a proper array of
    steps, or something [Array.isArray] rejects. *)
Inductive path_arg :=
  | PathArray (p : Path)
  | NotAnArray.

(** [Array.isArray(root) ? [...root] : { ...root }] *)
Definition root_clone (h : heap) (root : value) : object :=
  if isArray h root then Arr (spread_elems h root) []
  else Obj (own_entries h root).

(** [Array.isArray(childSrc) ? [...childSrc] :
     (childSrc && typeof childSrc === "object") ? { ...childSrc } : {}] *)
Definition child_clone (h : heap) (childSrc : value) : object :=
  if isArray h childSrc then Arr (spread_elems h childSrc) []
  else if truthy childSrc && type_tag_eqb (typeof childSrc) TObject
  then Obj (own_entries h childSrc)
  else Obj [].

(** The loop over all but the last step, then the final assignment.
    [cur] is the current position in the clone, [src] in the source. *)
Fixpoint descend (h : heap) (cur src : value) (path : Path) (next : value)
  : completion heap :=
  match path with
  | [] => Normal h
  | k :: rest =>
      match rest with
      | [] => set_member h cur (to_key k) next
      | _ :: _ =>
          childSrc ← get_member_opt h src (to_key k);
          let '(h1, child) := alloc h (child_clone h childSrc) in
          h2 ← set_member h1 cur (to_key k) child;
          descend h2 child childSrc rest next
      end
  end.

Definition updateValueAtPath (h : heap) (root : value) (path : path_arg) (next : value)
  : completion (heap * value) :=
  match path with
  | NotAnArray | PathArray [] => Normal (h, next)
  | PathArray p =>
      let '(h1, clone) := alloc h (root_clone h root) in
      h2 ← descend h1 clone root p next;
      Normal (h2, clone)
  end.

Fixpoint getValueAtPath (h : heap) (cur : value) (path : Path) : completion value :=
  match path with
  | [] => Normal cur
  | seg :: rest =>
      if nullish cur then Normal VUndefined
      else cur' ← get_member h cur (to_key seg); getValueAtPath h cur' rest
  end.

End PathOps.

(* ===================================================================== *)
(** * JSON.parse                                                         *)
(* ===================================================================== *)

Module JSON.
Import JS Heap.

(** The tree a JSON text denotes. *)
#[local] Set Warnings "-register-all".
Inductive json :=
  | JNull
  | JBool (b : bool)
  | JNumber (x : number)
  | JString (s : jstring)
  | JArray (elems : list json)
  | JObject (members : list (jstring * json)).

(** ** Tokens *)

Inductive token :=
  | TLBrace | TRBrace | TLBracket | TRBracket | TColon | TComma
  | TStr (s : jstring)
  | TNum (x : number)
  | TTrue | TFalse | TNul.

(** The lexer reads one code unit at a time.  A number or a literal name
    is collected as the longest run of word characters and checked once
    the run ends; string contents are collected in reverse. *)
Inductive lex_state :=
  | LTop
  | LWord (acc : jstring)
  | LString (acc : jstring)
  | LEscape (acc : jstring)
  | LUnicode (acc : jstring) (hex : list N).

Definition is_json_space (c : N) : bool :=
  (c =? 32) || (c =? 9) || (c =? 10) || (c =? 13).

Definition is_word_char (c : N) : bool :=
  (48 <=? c) && (c <=? 57) || (97 <=? c) && (c <=? 122)
  || (65 <=? c) && (c <=? 90) || (c =? 43) || (c =? 45) || (c =? 46).

(** The number grammar of JSON: an optional minus, an integer part without
    a leading zero, an optional fraction with digits, an optional exponent. *)
Definition json_number (w : jstring) : option number :=
  let '(neg, r) := match w with 45 :: r => (true, r) | _ => (false, w) end in
  let '(ip, r1) := span_digits 10 r in
  let int_ok :=
    match ip with
    | [] => false
    | 0 :: _ :: _ => false
    | _ => true
    end in
  let frac :=
    match r1 with
    | 46 :: r2 =>
        match span_digits 10 r2 with
        | ([], _) => None
        | (fp, r3) => Some (fp, r3)
        end
    | _ => Some ([], r1)
    end in
  match int_ok, frac with
  | true, Some (fp, r3) =>
      match span_exponent r3 with
      | Some (ex, []) => Some (decimal_value neg ip fp ex)
      | _ => None
      end
  | _, _ => None
  end.

Definition word_token (w : jstring) : option token :=
  if jstring_eqb w (js "true") then Some TTrue
  else if jstring_eqb w (js "false") then Some TFalse
  else if jstring_eqb w (js "null") then Some TNul
  else match json_number w with Some x => Some (TNum x) | None => None end.

(** A code unit between tokens: the next state and the tokens completed. *)
Definition lex_top (c : N) : option (lex_state * list token) :=
  if is_json_space c then Some (LTop, [])
  else if c =? 123 then Some (LTop, [TLBrace])
  else if c =? 125 then Some (LTop, [TRBrace])
  else if c =? 91 then Some (LTop, [TLBracket])
  else if c =? 93 then Some (LTop, [TRBracket])
  else if c =? 58 then Some (LTop, [TColon])
  else if c =? 44 then Some (LTop, [TComma])
  else if c =? 34 then Some (LString [], [])
  else if is_word_char c then Some (LWord [c], [])
  else None.

Definition escape_unit (c : N) : option N :=
  if c =? 34 then Some 34
  else if c =? 92 then Some 92
  else if c =? 47 then Some 47
  else if c =? 98 then Some 8
  else if c =? 102 then Some 12
  else if c =? 110 then Some 10
  else if c =? 114 then Some 13
  else if c =? 116 then Some 9
  else None.

Definition lex_step (st : lex_state) (c : N) : option (lex_state * list token) :=
  match st with
  | LTop => lex_top c
  | LWord acc =>
      if is_word_char c then Some (LWord (c :: acc), [])
      else
        match word_token (rev acc), lex_top c with
        | Some t, Some (st', ts) => Some (st', t :: ts)
        | _, _ => None
        end
  | LString acc =>
      if c =? 34 then Some (LTop, [TStr (rev acc)])
      else if c =? 92 then Some (LEscape acc, [])
      else if c <? 32 then None
      else Some (LString (c :: acc), [])
  | LEscape acc =>
      if c =? 117 then Some (LUnicode acc [], [])
      else match escape_unit c with
           | Some u => Some (LString (u :: acc), [])
           | None => None
           end
  | LUnicode acc hex =>
      match digit_of 16 c with
      | Some d =>
          match hex with
          | [_; _; _] => Some (LString (digits_value 16 (hex ++ [d]) :: acc), [])
          | _ => Some (LUnicode acc (hex ++ [d]), [])
          end
      | None => None
      end
  end.

Fixpoint lex (st : lex_state) (s : jstring) : option (list token) :=
  match s with
  | [] =>
      match st with
      | LTop => Some []
      | LWord acc => match word_token (rev acc) with Some t => Some [t] | None => None end
      | _ => None
      end
  | c :: s' =>
      match lex_step st c with
      | Some (st', ts) =>
          match lex st' s' with
          | Some out => Some (ts ++ out)
          | None => None
          end
      | None => None
      end
  end.

(** ** The grammar, as a push-down automaton over the tokens *)

(** A container under construction: the elements read so far (in reverse),
    or the members read so far and the key whose value is being read. *)
Inductive frame :=
  | FArray (done : list json)
  | FObject (done : list (jstring * json)) (key : jstring).

Inductive mode :=
  | MValue (may_close : bool)
  | MAfterElem
  | MKey (done : list (jstring * json)) (may_close : bool)
  | MColon (done : list (jstring * json)) (key : jstring)
  | MAfterMember (done : list (jstring * json))
  | MDone (v : json).

(** A repeated key keeps its place and takes the later value. *)
Fixpoint members_set (ms : list (jstring * json)) (k : jstring) (v : json)
  : list (jstring * json) :=
  match ms with
  | [] => [(k, v)]
  | (k', v') :: ms' =>
      if jstring_eqb k' k then (k', v) :: ms' else (k', v') :: members_set ms' k v
  end.

(** A value is complete: it goes into the container being built. *)
Definition complete (v : json) (stack : list frame) : list frame * mode :=
  match stack with
  | [] => ([], MDone v)
  | FArray done :: st => (FArray (v :: done) :: st, MAfterElem)
  | FObject done k :: st => (st, MAfterMember (members_set done k v))
  end.

Definition parse_step (stack : list frame) (m : mode) (t : token)
  : option (list frame * mode) :=
  match m, t with
  | MValue _, TNul => Some (complete JNull stack)
  | MValue _, TTrue => Some (complete (JBool true) stack)
  | MValue _, TFalse => Some (complete (JBool false) stack)
  | MValue _, TNum x => Some (complete (JNumber x) stack)
  | MValue _, TStr s => Some (complete (JString s) stack)
  | MValue _, TLBracket => Some (FArray [] :: stack, MValue true)
  | MValue _, TLBrace => Some (stack, MKey [] true)
  | MValue true, TRBracket =>
      match stack with
      | FArray [] :: st => Some (complete (JArray []) st)
      | _ => None
      end
  | MAfterElem, TComma => Some (stack, MValue false)
  | MAfterElem, TRBracket =>
      match stack with
      | FArray done :: st => Some (complete (JArray (rev done)) st)
      | _ => None
      end
  | MKey done _, TStr k => Some (stack, MColon done k)
  | MKey done true, TRBrace => Some (complete (JObject done) stack)
  | MColon done k, TColon => Some (FObject done k :: stack, MValue false)
  | MAfterMember done, TComma => Some (stack, MKey done false)
  | MAfterMember done, TRBrace => Some (complete (JObject done) stack)
  | _, _ => None
  end.

Fixpoint run (stack : list frame) (m : mode) (ts : list token) : option json :=
  match ts with
  | [] => match m with MDone v => Some v | _ => None end
  | t :: ts' =>
      match parse_step stack m t with
      | Some (stack', m') => run stack' m' ts'
      | None => None
      end
  end.

(** [JSON.parse(text)]: the tree, or a SyntaxError. *)
Definition parse (text : jstring) : completion json :=
  match lex LTop text with
  | Some ts =>
      match run [] (MValue false) ts with
      | Some v => Normal v
      | None => Throw SyntaxError
      end
  | None => Throw SyntaxError
  end.

(** The objects of a parsed tree are new objects of the heap. *)
Fixpoint build (t : json) (h : heap) : heap * value :=
  match t with
  | JNull => (h, VNull)
  | JBool b => (h, VBool b)
  | JNumber x => (h, VNumber x)
  | JString s => (h, VString s)
  | JArray elems =>
      let '(h1, vs) :=
        (fix go (l : list json) (h : heap) : heap * list value :=
           match l with
           | [] => (h, [])
           | x :: l' =>
               let '(h1, v) := build x h in
               let '(h2, vs) := go l' h1 in
               (h2, v :: vs)
           end) elems h in
      alloc h1 (Arr vs [])
  | JObject members =>
      let '(h1, ps) :=
        (fix go (l : list (jstring * json)) (h : heap) : heap * props :=
           match l with
           | [] => (h, [])
           | (k, x) :: l' =>
               let '(h1, v) := build x h in
               let '(h2, ps) := go l' h1 in
               (h2, (key_of_string k, v) :: ps)
           end) members h in
      alloc h1 (Obj ps)
  end.

End JSON.


(* ===================================================================== *)
(** * store/useJson.ts                                                   *)
(* ===================================================================== *)

Module UseJson.
Import JS Heap PathOps.

(** [initialStates]: the document text and the loading flag. *)
Record JsonStates := { json : jstring; loading : bool }.

Definition initialStates : JsonStates := {| json := js "{}"; loading := true |}.

(** What the store asks of its two collaborators, the graph store and the
    file store. *)
Inductive call :=
  | setGraph (json : jstring)
  | clearGraph
  | setContents (contents : jstring) (skipUpdate : bool).

Definition getJson (s : JsonStates) : jstring := json s.

Definition setJson (s : JsonStates) (text : jstring) : JsonStates * list call :=
  ({| json := text; loading := false |}, [setGraph text; setContents text true]).

Definition clear (s : JsonStates) : JsonStates * list call :=
  ({| json := []; loading := false |}, [clearGraph; setContents [] true]).

(** [get().json || "{}"]: the empty text is the one falsy string. *)
Definition current_text (s : JsonStates) : jstring :=
  match json s with
  | [] => js "{}"
  | t => t
  end.

Section Store.

(** [JSON.stringify(v, null, 2)]: a text, or undefined ([None]) for a
    value that has no serialization, or an exception, as for a value that
    holds itself.  The store hands the result on without looking at it,
    so the serializer is a parameter of the model. *)
Variable stringify : heap -> value -> completion (option jstring).

(** The new state and the calls made, or the exception that escapes: the
    [try] is around the parse only.  [h] is the heap of the caller, where
    [next] lives.  A store that holds undefined for its text is not
    modelled. *)
Definition updateAtPath (s : JsonStates) (h : heap) (path : Path) (next : value)
  : completion (JsonStates * list call) :=
  match JSON.parse (current_text s) with
  | Throw _ => Normal (s, [])
  | Beyond => Beyond
  | Normal doc =>
      let '(h1, obj) := JSON.build doc h in
      '(h2, updated) ← updateValueAtPath h1 obj (PathArray path) next;
      text ← stringify h2 updated;
      match text with
      | Some t => Normal (setJson s t)
      | None => Beyond
      end
  end.

End Store.
End UseJson.

(* ===================================================================== *)
(** * features/modals/NodeModal: the save logic                          *)
(* ===================================================================== *)

Module NodeModal.
Import JS Heap PathOps.

(** [new Set(["color"])] *)
Definition READ_ONLY_KEYS : list jstring := [js "color"].

(** [READ_ONLY_KEYS.has(k)] *)
Definition is_read_only (k : jstring) : bool :=
  existsb (jstring_eqb k) READ_ONLY_KEYS.

(** [v === null || ["string", "number", "boolean"].includes(typeof v)] *)
Definition is_primitive (v : value) : bool :=
  is_null v
  || existsb (type_tag_eqb (typeof v)) [TString; TNumber; TBoolean].

Definition coerceLike (orig : value) (input : jstring) : value :=
  if type_tag_eqb (typeof orig) TNumber then
    let n := StringToNumber input in
    if isNaN n then orig else VNumber n
  else if type_tag_eqb (typeof orig) TBoolean then
    let t := toLowerCase (trim input) in
    if jstring_eqb t (js "true") then VBool true
    else if jstring_eqb t (js "false") then VBool false
    else orig
  else if is_null orig then
    let t := toLowerCase (trim input) in
    if jstring_eqb t (js "null") then VNull else VString input
  else VString input.

(** [typeof v === "object" && v !== null && !Array.isArray(v)] *)
Definition isObjectNode (h : heap) (v : value) : bool :=
  type_tag_eqb (typeof v) TObject && negb (is_null v) && negb (isArray h v).

(** What the component holds when Save is pressed. *)
Record session := {
  path : Path;
  currentNodeValue : value;
  textDraft : jstring;
  fieldDrafts : list (jstring * jstring);
  isEditing : bool
}.

(** The call [updateAtPath(path, next)] a save ends with. *)
Record commit := { commit_path : Path; commit_value : value }.

(** The loop over [Object.entries(fieldDrafts)]. *)
Fixpoint apply_drafts (h : heap) (cur nextObj : value)
    (drafts : list (jstring * jstring)) : completion heap :=
  match drafts with
  | [] => Normal h
  | (k, draftVal) :: rest =>
      if is_read_only k then apply_drafts h cur nextObj rest
      else
        orig ← get_member h cur (key_of_string k);
        if is_primitive orig then
          h' ← set_member h nextObj (key_of_string k) (coerceLike orig draftVal);
          apply_drafts h' cur nextObj rest
        else apply_drafts h cur nextObj rest
  end.

(** [onSave]: the heap after it, the commit, and the session with the
    editing flag cleared.  The deferred refresh of the selection is not
    part of the model. *)
Definition onSave (h : heap) (st : session) : completion (heap * commit * session) :=
  let cur := currentNodeValue st in
  let done := {| path := path st; currentNodeValue := cur; textDraft := textDraft st;
                 fieldDrafts := fieldDrafts st; isEditing := false |} in
  if isObjectNode h cur && truthy cur && type_tag_eqb (typeof cur) TObject then
    let '(h1, nextObj) := alloc h (Obj (own_entries h cur)) in
    h2 ← apply_drafts h1 cur nextObj (fieldDrafts st);
    Normal (h2, {| commit_path := path st; commit_value := nextObj |}, done)
  else
    '(h1, next) ←
      try_catch
        (doc ← JSON.parse (textDraft st); Normal (JSON.build doc h))
        (fun _ => Normal (h, VString (textDraft st)));
    Normal (h1, {| commit_path := path st; commit_value := next |}, done).

End NodeModal.


(* ===================================================================== *)
(** * features/modals/NodeModal: the rest of the component logic         *)
(* ===================================================================== *)

Module NodeModalRest.
Import JS JSText Heap PathOps NodeModal.

(** The loop of [primitiveOnly] over [Object.entries(obj)]. *)
Fixpoint keep_primitives (h : heap) (out : value) (entries : props) : completion heap :=
  match entries with
  | [] => Normal h
  | (k, v) :: rest =>
      if is_primitive v then
        h' ← set_member h out k v;
        keep_primitives h' out rest
      else keep_primitives h out rest
  end.

Definition primitiveOnly (h : heap) (obj : value) : completion (heap * value) :=
  if negb (truthy obj) || negb (type_tag_eqb (typeof obj) TObject) || isArray h obj
  then Normal (h, obj)
  else
    let '(h1, out) := alloc h (Obj []) in
    h2 ← keep_primitives h1 out (own_entries h obj);
    Normal (h2, out).

(** [typeof seg === "number" ? seg : `"${seg}"`], as the text [join]
    makes of it. *)
Definition segment_text (seg : step) : jstring :=
  match seg with
  | Index n => index_text n
  | Key s => [34] ++ s ++ [34]
  end.

(** [parts.join(sep)] *)
Fixpoint join (sep : jstring) (parts : list jstring) : jstring :=
  match parts with
  | [] => []
  | p :: rest =>
      match rest with
      | [] => p
      | _ :: _ => p ++ sep ++ join sep rest
      end
  end.

(** [jsonPathToString]; [None] is a path that is not there. *)
Definition jsonPathToString (path : option Path) : jstring :=
  match path with
  | None | Some [] => js "$"
  | Some p => js "$[" ++ join (js "][") (map segment_text p) ++ js "]"
  end.

(** [String(v)] for the values the component converts, the primitives. *)
Definition String_of (v : value) : option jstring :=
  match v with
  | VNull => Some (js "null")
  | VBool true => Some (js "true")
  | VBool false => Some (js "false")
  | VNumber x => number_text x
  | VString s => Some s
  | _ => None
  end.

(** The name under which [Object.entries] lists a key. *)
Definition key_text (k : key) : jstring :=
  match k with
  | KIndex n => decimal n
  | KName s => s
  end.

(** A draft made, or replaced, under a name. *)
Fixpoint drafts_put (ds : list (jstring * jstring)) (k t : jstring)
  : list (jstring * jstring) :=
  match ds with
  | [] => [(k, t)]
  | (k', t') :: ds' =>
      if jstring_eqb k' k then (k', t) :: ds' else (k', t') :: drafts_put ds' k t
  end.

(** [next[k] = t] on the record of drafts, a plain object: under the name
    [__proto__] the text goes to the inherited setter, which ignores it. *)
Definition drafts_set (ds : list (jstring * jstring)) (k t : jstring)
  : list (jstring * jstring) :=
  if jstring_eqb k (js "__proto__") then ds else drafts_put ds k t.

(** The loop of [initializeFieldDrafts] over the entries of the node. *)
Fixpoint seed_drafts (entries : props) (next : list (jstring * jstring))
  : list (jstring * jstring) :=
  match entries with
  | [] => next
  | (k, v) :: rest =>
      if is_primitive v then
        match String_of v with
        | Some t => seed_drafts rest (drafts_set next (key_text k) t)
        | None => seed_drafts rest next
        end
      else seed_drafts rest next
  end.

(** [initializeFieldDrafts]; [defaultText] is the text the component has
    computed for the node. *)
Definition initializeFieldDrafts (h : heap) (st : session) (defaultText : jstring)
  : session :=
  let cur := currentNodeValue st in
  if isObjectNode h cur && truthy cur && type_tag_eqb (typeof cur) TObject then
    {| path := path st; currentNodeValue := cur; textDraft := textDraft st;
       fieldDrafts := seed_drafts (own_entries h cur) [];
       isEditing := isEditing st |}
  else
    {| path := path st; currentNodeValue := cur; textDraft := defaultText;
       fieldDrafts := []; isEditing := isEditing st |}.

(** [onCancel] *)
Definition onCancel (h : heap) (st : session) (defaultText : jstring) : session :=
  let st' := initializeFieldDrafts h st defaultText in
  {| path := path st'; currentNodeValue := currentNodeValue st';
     textDraft := textDraft st'; fieldDrafts := fieldDrafts st'; isEditing := false |}.

End NodeModalRest.


(* ===================================================================== *)
(** * Notions used by the statements                                     *)
(* ===================================================================== *)

Module Notions.
Import JS Heap PathOps.

(** The result of [v?.[k]]; undefined where the read does not return. *)
Definition read_opt (h : heap) (v : value) (k : key) : value :=
  match get_member_opt h v k with
  | Normal x => x
  | _ => VUndefined
  end.

(** The node a path reaches from [cur]: what the loop of
    [updateValueAtPath] holds in [src] after these steps. *)
Fixpoint reach (h : heap) (cur : value) (p : Path) : value :=
  match p with
  | [] => cur
  | seg :: rest => reach h (read_opt h cur (to_key seg)) rest
  end.

(** A leaf that is present: text, a number or a boolean. *)
Definition is_leaf (v : value) : bool :=
  match v with
  | VBool _ | VNumber _ | VString _ => true
  | _ => false
  end.

(** No proper prefix of the path addresses a leaf of the document: every
    ancestor of the addressed position is a container, or is missing. *)
Fixpoint avoids_leaves (h : heap) (cur : value) (p : Path) : bool :=
  match p with
  | [] => true
  | seg :: rest =>
      negb (is_leaf cur) && avoids_leaves h (read_opt h cur (to_key seg)) rest
  end.

Definition is_intrinsic (v : value) : bool :=
  match v with VIntrinsic _ => true | _ => false end.

Definition is_function (v : value) : bool := type_tag_eqb (typeof v) TFunction.

(** Whether an object of the heap is an array. *)
Definition is_array (o : object) : bool :=
  match o with Arr _ _ => true | _ => false end.

(** The keys under which an assignment to a new clone makes an entry, or
    replaces one: every key but [__proto__], which goes to the inherited
    setter, and but [length] where the clone is an array. *)
Definition entry_key (arr : bool) (k : key) : bool :=
  negb (is_name "__proto__" k) && negb (arr && is_name "length" k).

(** A path whose steps are entry keys for the nodes they are applied to,
    and that goes through no built-in object. *)
Fixpoint plain (h : heap) (src : value) (p : Path) : bool :=
  match p with
  | [] => true
  | k :: rest =>
      negb (is_intrinsic src) && entry_key (isArray h src) (to_key k)
      && plain h (read_opt h src (to_key k)) rest
  end.

(** A path that takes no step from a built-in function. *)
Fixpoint avoids_functions (h : heap) (cur : value) (p : Path) : bool :=
  match p with
  | [] => true
  | k :: rest =>
      negb (is_function cur) && avoids_functions h (read_opt h cur (to_key k)) rest
  end.

(** The names that can reach a member that is not an entry: [length],
    [__proto__] and the names of the built-in prototypes. *)
Definition builtin_name (k : key) : bool :=
  match k with
  | KIndex _ => false
  | KName s =>
      jstring_eqb s (js "__proto__") || jstring_eqb s (js "length")
      || existsb (fun c => existsb (jstring_eqb s) (names c))
           [ObjectC; ArrayC; StringC; NumberC; BooleanC]
  end.

(** A step whose key is none of them. *)
Definition ordinary (s : step) : bool := negb (builtin_name (to_key s)).

(** References below [n]. *)
Definition value_closed (n : nat) (v : value) : bool :=
  match v with
  | VRef a => (a <? n)%nat
  | _ => true
  end.

Definition props_closed (n : nat) (ps : props) : bool :=
  forallb (fun kv => value_closed n (snd kv)) ps.

Definition object_closed (n : nat) (o : object) : bool :=
  match o with
  | Obj ps | Bare ps => props_closed n ps
  | Arr es ps => forallb (value_closed n) es && props_closed n ps
  end.

(** Every reference held in the heap points into the heap. *)
Definition heap_closed (h : heap) : bool :=
  forallb (object_closed (length h)) h.

(** Text made of white space only. *)
Definition blank (s : jstring) : bool := forallb is_white_space s.

Definition number_eqb (x y : number) : bool :=
  match x, y with
  | S754_zero s, S754_zero s' => Bool.eqb s s'
  | S754_infinity s, S754_infinity s' => Bool.eqb s s'
  | S754_nan, S754_nan => true
  | S754_finite s m e, S754_finite s' m' e' =>
      Bool.eqb s s' && Pos.eqb m m' && Z.eqb e e'
  | _, _ => false
  end.

(** The value [v] of the heap is the document [t]: the same tree, member
    by member and element by element. *)
Fixpoint denotes (h : heap) (v : value) (t : JSON.json) : bool :=
  match t with
  | JSON.JNull => is_null v
  | JSON.JBool b => match v with VBool b' => Bool.eqb b b' | _ => false end
  | JSON.JNumber x => match v with VNumber y => number_eqb x y | _ => false end
  | JSON.JString s => match v with VString s' => jstring_eqb s s' | _ => false end
  | JSON.JArray ts =>
      match v with
      | VRef a =>
          match h !! a with
          | Some (Arr es []) =>
              (fix all2 (ts : list JSON.json) (es : list value) : bool :=
                 match ts, es with
                 | [], [] => true
                 | t' :: ts', e :: es' => denotes h e t' && all2 ts' es'
                 | _, _ => false
                 end) ts es
          | _ => false
          end
      | _ => false
      end
  | JSON.JObject ms =>
      match v with
      | VRef a =>
          match h !! a with
          | Some (Obj ps) =>
              (fix all2 (ms : list (jstring * JSON.json)) (ps : props) : bool :=
                 match ms, ps with
                 | [], [] => true
                 | (k', t') :: ms', (k, e) :: ps' =>
                     key_eqb k (key_of_string k') && denotes h e t' && all2 ms' ps'
                 | _, _ => false
                 end) ms ps
          | _ => false
          end
      | _ => false
      end
  end.

(** The clone a position of the path starts from: the clone of the root
    at the root, the clone of the source node below it. *)
Definition clone_at (h : heap) (o : object) (src : value) (P1 : Path) : object :=
  match P1 with
  | [] => o
  | _ :: _ => child_clone h (reach h src P1)
  end.

(** A container of a document: a map, or an array that carries its
    elements only. *)
Definition container (h : heap) (v : value) : bool :=
  match v with
  | VRef a =>
      match h !! a with
      | Some (Obj _) | Some (Arr _ []) => true
      | _ => false
      end
  | _ => false
  end.

(** What [build] guarantees of a tree. *)
Definition builds_closed (t : JSON.json) : Prop :=
  forall h, heap_closed h = true ->
    heap_closed (fst (JSON.build t h)) = true
    /\ value_closed (length (fst (JSON.build t h))) (snd (JSON.build t h)) = true
    /\ (length h <= length (fst (JSON.build t h)))%nat.

(** [o] is the clone [updateValueAtPath] makes of [src], as a root or as
    a child. *)
Definition clone_of (h : heap) (src : value) (o : object) : Prop :=
  o = root_clone h src \/ o = child_clone h src.

End Notions.

(** ** Sample documents *)

Module Sample.
Import JS Heap PathOps.

Definition zero : value := VNumber (of_Z 0).
Definition one : value := VNumber (of_Z 1).
Definition two : value := VNumber (of_Z 2).
Definition three : value := VNumber (of_Z 3).
Definition five : value := VNumber (of_Z 5).

(** The document {"a": {"b": 1, "c": "x"}}: the inner map at address 0,
    the root at address 1. *)
Definition nested : heap :=
  [Obj [(KName (js "b"), one); (KName (js "c"), VString (js "x"))];
   Obj [(KName (js "a"), VRef 0)]].
Definition nested_root : value := VRef 1.

(** The document {}. *)
Definition empty_map : heap := [Obj []].
Definition empty_map_root : value := VRef 0.

(** The documents [1, 2, 3] and [1]. *)
Definition triple : heap := [Arr [one; two; three] []].
Definition triple_root : value := VRef 0.
Definition single : heap := [Arr [one] []].
Definition single_root : value := VRef 0.

(** A map node with a colour, and drafts for both of its fields. *)
Definition coloured : heap :=
  [Obj [(KName (js "color"), VString (js "red")); (KName (js "n"), one)]].
Definition coloured_session : NodeModal.session :=
  {| NodeModal.path := [Key (js "node")];
     NodeModal.currentNodeValue := VRef 0;
     NodeModal.textDraft := [];
     NodeModal.fieldDrafts := [(js "color", js "blue"); (js "n", js "2")];
     NodeModal.isEditing := true |}.

(** A store whose text is not JSON, and the store after [clear]. *)
Definition broken_store : UseJson.JsonStates :=
  {| UseJson.json := js "{not json"; UseJson.loading := true |}.
Definition cleared_store : UseJson.JsonStates :=
  {| UseJson.json := []; UseJson.loading := false |}.

(** A serializer that answers every value with the same text. *)
Definition constant_text (t : jstring) (h : heap) (v : value)
  : completion (option jstring) := Normal (Some t).

End Sample.

(** ** Notions for the rest of the editor *)

Module EditorNotions.
Import JS JSText Heap PathOps NodeModal NodeModalRest.

(** No key occurs twice, as in every object. *)
Fixpoint distinct_keys (ps : props) : bool :=
  match ps with
  | [] => true
  | (k, _) :: ps' => negb (existsb (key_eqb k) (map fst ps')) && distinct_keys ps'
  end.

(** Every key is the key its own name denotes, as is every key made from
    a string. *)
Definition named_keys (ps : props) : bool :=
  forallb (fun kv => key_eqb (key_of_string (key_text (fst kv))) (fst kv)) ps.

(** Every number of the entries has a text, and the text reads back as
    the number. *)
Definition numbers_read_back (ps : props) : bool :=
  forallb (fun kv =>
             match snd kv with
             | VNumber x =>
                 match number_text x with
                 | Some t => float_eqb (StringToNumber t) x
                 | None => false
                 end
             | _ => true
             end) ps.

(** No draft under this name. *)
Definition undrafted (k : key) (drafts : list (jstring * jstring)) : bool :=
  negb (existsb (fun d => key_eqb (key_of_string (fst d)) k) drafts).

(** What the loop of [onSave] makes of the map [o] it fills, reading the
    originals from the map node [oa]: a draft counts where the node has a
    primitive entry under its name. *)
Fixpoint drafted (oa o : object) (drafts : list (jstring * jstring)) : object :=
  match drafts with
  | [] => o
  | (k, t) :: rest =>
      if is_read_only k then drafted oa o rest
      else
        let orig := object_get oa (key_of_string k) in
        if is_primitive orig
        then drafted oa (object_set o (key_of_string k) (coerceLike orig t)) rest
        else drafted oa o rest
  end.

(** The entries [primitiveOnly] keeps. *)
Definition primitive_entries (ps : props) : props :=
  filter (fun kv => is_primitive (snd kv) = true) ps.

(** The bracket group one step contributes to the rendering of a path. *)
Definition bracket (seg : step) : jstring := [91] ++ segment_text seg ++ [93].

End EditorNotions.

(* ===================================================================== *)
(** * Properties                                                         *)
(* ===================================================================== *)

(** ** Keys, property lists and objects *)

Module ObjectFacts.
Import JS Heap.

Lemma jstring_eqb_eq s t : jstring_eqb s t = true <-> s = t.
Proof.
  revert t; induction s as [|c s IH]; intros [|d t]; simpl; split;
    try congruence; try discriminate.
  - intros [Hc Hs]%andb_true_iff. apply N.eqb_eq in Hc. apply IH in Hs. congruence.
  - intros [= -> ->]. rewrite N.eqb_refl. simpl. apply IH. reflexivity.
Qed.

Lemma key_eqb_eq k k' : key_eqb k k' = true <-> k = k'.
Proof.
  destruct k, k'; simpl; split; try congruence; try discriminate.
  - intros ->%N.eqb_eq. reflexivity.
  - intros [= ->]. apply N.eqb_refl.
  - intros ->%jstring_eqb_eq. reflexivity.
  - intros [= ->]. apply jstring_eqb_eq. reflexivity.
Qed.

Lemma key_eqb_refl k : key_eqb k k = true.
Proof. apply key_eqb_eq. reflexivity. Qed.

Lemma key_eqb_neq k k' : k <> k' -> key_eqb k k' = false.
Proof.
  intros Hne. destruct (key_eqb k k') eqn:E; [|reflexivity].
  apply key_eqb_eq in E. contradiction.
Qed.

Lemma is_name_eq t k : is_name t k = true <-> k = KName (js t).
Proof. apply key_eqb_eq. Qed.

Lemma props_get_set_eq ps k v : props_get (props_set ps k v) k = Some v.
Proof.
  induction ps as [|[k' v'] ps IH]; simpl.
  - rewrite key_eqb_refl. reflexivity.
  - destruct (key_eqb k' k) eqn:E; simpl; rewrite E; [reflexivity | exact IH].
Qed.

Lemma props_get_set_ne ps k k' v :
  k <> k' -> props_get (props_set ps k v) k' = props_get ps k'.
Proof.
  intros Hne. induction ps as [|[k0 v0] ps IH]; simpl.
  - rewrite key_eqb_neq by assumption. reflexivity.
  - destruct (key_eqb k0 k) eqn:E; simpl.
    + apply key_eqb_eq in E. subst k0. rewrite key_eqb_neq by assumption. reflexivity.
    + destruct (key_eqb k0 k'); [reflexivity | exact IH].
Qed.

Lemma elems_set_same es i v : elems_set es i v !! i = Some v.
Proof.
  unfold elems_set. destruct (Nat.ltb_spec i (length es)).
  - apply list_lookup_insert_eq. assumption.
  - rewrite app_assoc. apply list_lookup_middle.
    rewrite length_app, length_replicate. lia.
Qed.

Lemma elems_set_length es i v : (i < length (elems_set es i v))%nat.
Proof.
  unfold elems_set. destruct (Nat.ltb_spec i (length es)).
  - rewrite length_insert. assumption.
  - rewrite !length_app, length_replicate. simpl. lia.
Qed.

Lemma elems_set_other es i j v :
  i <> j -> or_undefined (elems_set es i v !! j) = or_undefined (es !! j).
Proof.
  intros Hne. unfold elems_set. destruct (Nat.ltb_spec i (length es)).
  - rewrite list_lookup_insert_ne by assumption. reflexivity.
  - destruct (Nat.lt_ge_cases j (length es)) as [Hj|Hj].
    + rewrite lookup_app_l by assumption. reflexivity.
    + rewrite (lookup_ge_None_2 es j) by assumption. simpl.
      rewrite lookup_app_r by assumption.
      destruct (Nat.lt_ge_cases (j - length es) (i - length es)) as [Hlt|Hge].
      * rewrite lookup_app_l by (rewrite length_replicate; assumption).
        rewrite lookup_replicate_2 by assumption. reflexivity.
      * rewrite lookup_ge_None_2; [reflexivity|].
        rewrite length_app, length_replicate. simpl. lia.
Qed.

Lemma array_index_inj k k' i :
  array_index k = Some i -> array_index k' = Some i -> k = k'.
Proof.
  destruct k as [n|s], k' as [n'|s']; simpl; try discriminate.
  destruct (n <? 4294967295), (n' <? 4294967295); try discriminate.
  intros [= <-] [= H]. f_equal. lia.
Qed.

(** Reading an entry after making it. *)
Lemma object_get_set_eq o k v : object_get (object_set o k v) k = v.
Proof.
  destruct o as [ps|es ps|ps]; simpl.
  - rewrite props_get_set_eq. reflexivity.
  - destruct (array_index k) eqn:E; simpl; rewrite E.
    + rewrite elems_set_same. reflexivity.
    + rewrite props_get_set_eq. reflexivity.
  - rewrite props_get_set_eq. reflexivity.
Qed.

Lemma object_has_set_eq o k v : object_has (object_set o k v) k = true.
Proof.
  destruct o as [ps|es ps|ps]; simpl.
  - rewrite props_get_set_eq. reflexivity.
  - destruct (array_index k) eqn:E; simpl; rewrite E.
    + apply Nat.ltb_lt. apply elems_set_length.
    + rewrite props_get_set_eq. reflexivity.
  - rewrite props_get_set_eq. reflexivity.
Qed.

(** Making an entry leaves what the other keys hold. *)
Lemma object_get_set_ne o k k' v :
  k <> k' -> object_get (object_set o k v) k' = object_get o k'.
Proof.
  intros Hne. destruct o as [ps|es ps|ps]; simpl.
  - rewrite props_get_set_ne by assumption. reflexivity.
  - destruct (array_index k) as [i|] eqn:E; simpl;
      destruct (array_index k') as [j|] eqn:E'; try reflexivity.
    + apply elems_set_other. intros ->. apply Hne. eapply array_index_inj; eassumption.
    + rewrite props_get_set_ne by assumption. reflexivity.
  - rewrite props_get_set_ne by assumption. reflexivity.
Qed.

Lemma object_get_not_has o k : object_has o k = false -> object_get o k = VUndefined.
Proof.
  destruct o as [ps|es ps|ps]; simpl.
  - destruct (props_get ps k); [discriminate | reflexivity].
  - destruct (array_index k) as [i|].
    + intros H%Nat.ltb_ge. rewrite lookup_ge_None_2 by assumption. reflexivity.
    + destruct (props_get ps k); [discriminate | reflexivity].
  - destruct (props_get ps k); [discriminate | reflexivity].
Qed.

Lemma string_entries_get s : forall i k v,
  props_get (string_entries i s) k = Some v ->
  exists n c, k = KIndex n /\ i <= n /\ s !! N.to_nat (n - i) = Some c /\ v = VString [c].
Proof.
  induction s as [|c s IH]; intros i k v; simpl; [discriminate|].
  destruct k as [n|t]; simpl.
  - destruct (N.eqb_spec i n) as [->|Hne].
    + intros Hv. injection Hv as <-.
      exists n, c. rewrite N.sub_diag. simpl. repeat split. lia.
    + intros H. destruct (IH _ _ _ H) as (m & c' & Hk & Hle & Hl & ->).
      injection Hk as <-.
      exists n, c'. repeat split; [lia | ].
      replace (N.to_nat (n - i)) with (S (N.to_nat (n - (i + 1)))) by lia.
      exact Hl.
  - intros H. destruct (IH _ _ _ H) as (m & c' & Hk & _). discriminate.
Qed.

Lemma string_entries_read s : forall i k,
  or_undefined (props_get (string_entries i s) k) =
    match k with
    | KIndex n =>
        if i <=? n
        then match s !! N.to_nat (n - i) with
             | Some c => VString [c]
             | None => VUndefined
             end
        else VUndefined
    | KName _ => VUndefined
    end.
Proof.
  induction s as [|c s IH]; intros i k; simpl.
  - destruct k as [n|t]; [destruct (i <=? n)|]; reflexivity.
  - destruct k as [n|t]; simpl; [|rewrite IH; reflexivity].
    destruct (N.eqb_spec i n) as [->|Hne].
    + rewrite N.leb_refl, N.sub_diag. reflexivity.
    + rewrite IH. destruct (N.leb_spec i n) as [Hle|Hgt].
      * destruct (N.leb_spec (i + 1) n) as [_|Hlt]; [|lia].
        replace (N.to_nat (n - i)) with (S (N.to_nat (n - (i + 1)))) by lia.
        reflexivity.
      * destruct (N.leb_spec (i + 1) n) as [Hle|_]; [lia | reflexivity].
Qed.

End ObjectFacts.

(** ** The heap, and member access *)

Module HeapFacts.
Import JS Heap PathOps Notions ObjectFacts.

Lemma bind_normal {A B} (a : A) (f : A -> completion B) : (Normal a ≫= f) = f a.
Proof. reflexivity. Qed.

Lemma lookup_alloc_new (h : heap) o : (h ++ [o]) !! length h = Some o.
Proof. apply list_lookup_middle. reflexivity. Qed.

Lemma lookup_alloc_old (h : heap) o a x : h !! a = Some x -> (h ++ [o]) !! a = Some x.
Proof. intros H. apply lookup_app_l_Some. exact H. Qed.

Lemma get_own_ref h a o k : h !! a = Some o -> get_own h (VRef a) k = object_get o k.
Proof. intros H. simpl. rewrite H. reflexivity. Qed.

Lemma isArray_ref h a o : h !! a = Some o -> isArray h (VRef a) = is_array o.
Proof. intros H. simpl. rewrite H. destruct o; reflexivity. Qed.

Lemma is_array_set o k x : is_array (object_set o k x) = is_array o.
Proof. destruct o as [ps|es ps|ps]; simpl; [| destruct (array_index k) |]; reflexivity. Qed.

Lemma entry_key_not_proto arr k : entry_key arr k = true -> is_name "__proto__" k = false.
Proof. unfold entry_key. intros [H _]%andb_true_iff. apply negb_true_iff. exact H. Qed.

Lemma entry_key_not_length k : entry_key true k = true -> is_name "length" k = false.
Proof. unfold entry_key. intros [_ H]%andb_true_iff. apply negb_true_iff. exact H. Qed.

Lemma name_not_index t k : is_name t k = true -> array_index k = None.
Proof. intros H%is_name_eq. subst k. reflexivity. Qed.

(** Under an entry key an assignment makes the entry, or replaces it. *)
Lemma object_assign_entry h o k x :
  entry_key (is_array o) k = true ->
  object_assign h o k x = Normal (object_set o k x).
Proof.
  intros Hk. pose proof (entry_key_not_proto _ _ Hk) as Hp.
  destruct o as [ps|es ps|ps]; unfold object_assign.
  - rewrite Hp. reflexivity.
  - destruct (array_index k); [reflexivity|].
    rewrite (entry_key_not_length k Hk), Hp. reflexivity.
  - reflexivity.
Qed.

Lemma set_member_ref h a o k x :
  h !! a = Some o -> entry_key (is_array o) k = true ->
  set_member h (VRef a) k x = Normal (<[a := object_set o k x]> h).
Proof.
  intros H Hk. simpl. rewrite H, (object_assign_entry _ _ _ _ Hk). reflexivity.
Qed.

(** An assignment that returns changes one object, and no length. *)
Lemma set_member_frame h v k x h' :
  set_member h v k x = Normal h' ->
  exists a o o', v = VRef a /\ h !! a = Some o /\ h' = <[a := o']> h.
Proof.
  destruct v as [| | | | |a|i]; try discriminate. simpl.
  destruct (h !! a) as [o|] eqn:Ha; [|discriminate].
  destruct (object_assign h o k x) as [o'| |]; try discriminate.
  intros [= <-]. exists a, o, o'. auto.
Qed.

(** The entry an object holds under an entry key is what a read gives. *)
Lemma lookup_member_entry h a o k :
  h !! a = Some o -> object_has o k = true -> is_array o && is_name "length" k = false ->
  lookup_member h (VRef a) k = object_get o k.
Proof.
  intros Ha Hhas Hk. unfold lookup_member.
  assert (E : (if is_name "length" k then own_length h (VRef a) else None) = None).
  { destruct (is_name "length" k); [|reflexivity]. simpl. rewrite Ha.
    destruct o; try reflexivity. discriminate. }
  rewrite E. simpl. rewrite Ha, Hhas. reflexivity.
Qed.

Lemma get_member_entry h a o k :
  h !! a = Some o -> object_has o k = true -> entry_key (is_array o) k = true ->
  get_member h (VRef a) k = Normal (object_get o k).
Proof.
  intros Ha Hhas Hk. unfold get_member. f_equal.
  apply (lookup_member_entry _ _ _ _ Ha Hhas).
  unfold entry_key in Hk. apply andb_true_iff in Hk as [_ Hk].
  apply negb_true_iff. exact Hk.
Qed.

(** A read that is not made from a built-in function returns. *)
Lemma get_member_opt_normal h v k :
  is_function v = false -> get_member_opt h v k = Normal (read_opt h v k).
Proof.
  unfold read_opt, get_member_opt, get_member.
  destruct v as [| | | | | |[c|c s]]; simpl; try reflexivity. discriminate.
Qed.

Lemma get_member_normal h v k :
  nullish v = false -> is_function v = false ->
  get_member h v k = Normal (read_opt h v k).
Proof.
  intros Hn Hf. rewrite <- get_member_opt_normal by exact Hf.
  unfold get_member_opt. rewrite Hn. reflexivity.
Qed.

Lemma read_opt_nullish h v k : nullish v = true -> read_opt h v k = VUndefined.
Proof. unfold read_opt, get_member_opt. intros ->. reflexivity. Qed.

(** A name that is no entry and no built-in member reads as undefined. *)
Lemma method_of_absent c k : builtin_name k = false -> method_of c k = VUndefined.
Proof.
  unfold builtin_name, method_of. destruct k as [n|s]; [reflexivity|].
  intros H. apply orb_false_iff in H as [_ H].
  assert (Hall : forall c', existsb (jstring_eqb s) (names c') = false).
  { intros c'. destruct (existsb (jstring_eqb s) (names c')) eqn:E; [|reflexivity].
    exfalso. apply not_true_iff_false in H. apply H. apply existsb_exists.
    exists c'. split; [destruct c'; simpl; tauto | exact E]. }
  rewrite !Hall. reflexivity.
Qed.

Lemma read_opt_absent h v k :
  is_function v = false -> has_own h v k = false -> builtin_name k = false ->
  read_opt h v k = VUndefined.
Proof.
  intros Hf Hhas Hb. unfold read_opt, get_member_opt, get_member.
  assert (Hp : is_name "__proto__" k = false /\ is_name "length" k = false).
  { unfold builtin_name in Hb. destruct k as [n|s]; [split; reflexivity|].
    apply orb_false_iff in Hb as [Hb _]. apply orb_false_iff in Hb as [H1 H2].
    unfold is_name. simpl. auto. }
  destruct Hp as [Hp Hl].
  destruct v as [| | | | | |[c|c s]]; simpl; try reflexivity;
    try (unfold lookup_member; rewrite Hl, Hhas; simpl;
         try (unfold inherited; rewrite Hp; apply method_of_absent; exact Hb)).
  - destruct (h !! a) as [[ps|es ps|ps]|]; try reflexivity;
      unfold inherited; rewrite Hp; apply method_of_absent; exact Hb.
  - unfold proto_get. rewrite Hp, Hl. simpl. apply method_of_absent. exact Hb.
  - discriminate.
Qed.

Lemma reach_undefined h p : reach h VUndefined p = VUndefined.
Proof. induction p as [|seg p IH]; simpl; [reflexivity | exact IH]. Qed.

Lemma reach_nullish h v p : nullish v = true -> (1 <= length p)%nat -> reach h v p = VUndefined.
Proof.
  intros Hv. destruct p as [|k p]; simpl; [lia|]. intros _.
  rewrite read_opt_nullish by exact Hv. apply reach_undefined.
Qed.

Lemma getValueAtPath_nullish h v p :
  nullish v = true -> (1 <= length p)%nat -> getValueAtPath h v p = Normal VUndefined.
Proof. intros Hv. destruct p as [|k p]; simpl; [lia|]. rewrite Hv. reflexivity. Qed.

(** [getValueAtPath] computes [reach], and returns, on a path that takes
    no step from a built-in function. *)
Lemma getValueAtPath_reach h p : forall cur,
  avoids_functions h cur p = true ->
  getValueAtPath h cur p = Normal (reach h cur p).
Proof.
  induction p as [|seg p IH]; intros cur; simpl; [reflexivity|].
  intros [Hf Hp]%andb_true_iff. apply negb_true_iff in Hf.
  destruct (nullish cur) eqn:Hn.
  - rewrite read_opt_nullish by exact Hn. rewrite reach_undefined. reflexivity.
  - rewrite (get_member_normal _ _ _ Hn Hf), bind_normal. apply IH. exact Hp.
Qed.

Lemma reach_app h p q cur : reach h cur (p ++ q) = reach h (reach h cur p) q.
Proof. revert cur. induction p as [|seg p IH]; intros cur; simpl; [reflexivity | apply IH]. Qed.

(** Reading along two paths joined is reading along the first and then
    along the second. *)
Lemma getValueAtPath_bind h p q : forall cur,
  getValueAtPath h cur (p ++ q)
  = (node ← getValueAtPath h cur p; getValueAtPath h node q).
Proof.
  induction p as [|seg p IH]; intros cur; [reflexivity|].
  simpl. destruct (nullish cur) eqn:Hn.
  - simpl. destruct q; reflexivity.
  - destruct (get_member h cur (to_key seg)) as [x| |]; simpl; [apply IH | | ];
      reflexivity.
Qed.

Lemma is_function_intrinsic v : is_intrinsic v = false -> is_function v = false.
Proof. destruct v as [| | | | | |[c|c s]]; simpl; try reflexivity. discriminate. Qed.

Lemma plain_avoids_functions h p : forall v,
  plain h v p = true -> avoids_functions h v p = true.
Proof.
  induction p as [|k p IH]; intros v; simpl; [reflexivity|].
  intros [[Hi _]%andb_true_iff Hp]%andb_true_iff.
  apply negb_true_iff in Hi. rewrite (is_function_intrinsic _ Hi). simpl.
  apply IH. exact Hp.
Qed.

Lemma plain_app h p q : forall v,
  plain h v (p ++ q) = true -> plain h v p = true /\ plain h (reach h v p) q = true.
Proof.
  induction p as [|k p IH]; intros v; simpl; [auto|].
  intros [Hk Hp]%andb_true_iff. destruct (IH _ Hp) as [H1 H2].
  rewrite Hk, H1. auto.
Qed.

End HeapFacts.

(** ** Closed heaps *)

Module ClosedFacts.
Import JS Heap PathOps Notions ObjectFacts HeapFacts.

Lemma props_get_closed n ps k v :
  props_closed n ps = true -> props_get ps k = Some v -> value_closed n v = true.
Proof.
  unfold props_closed. induction ps as [|[k' v'] ps IH]; simpl; [discriminate|].
  intros [Hv Hps]%andb_true_iff. destruct (key_eqb k' k).
  - intros [= <-]. exact Hv.
  - apply IH. exact Hps.
Qed.

Lemma or_undefined_closed n (o : option value) :
  (forall v, o = Some v -> value_closed n v = true) ->
  value_closed n (or_undefined o) = true.
Proof. destruct o as [v|]; simpl; intros H; [apply H|]; reflexivity. Qed.

Lemma object_get_closed n o k :
  object_closed n o = true -> value_closed n (object_get o k) = true.
Proof.
  destruct o as [ps|es ps|ps]; simpl.
  - intros H. apply or_undefined_closed. intros v. apply props_get_closed. exact H.
  - intros [Hes Hps]%andb_true_iff. destruct (array_index k) as [i|].
    + apply or_undefined_closed. intros v Hv.
      rewrite forallb_forall in Hes. apply Hes.
      apply list_elem_of_In. eapply list_elem_of_lookup_2. exact Hv.
    + apply or_undefined_closed. intros v. apply props_get_closed. exact Hps.
  - intros H. apply or_undefined_closed. intros v. apply props_get_closed. exact H.
Qed.

Lemma heap_closed_lookup (h : heap) a o :
  heap_closed h = true -> h !! a = Some o -> object_closed (length h) o = true.
Proof.
  unfold heap_closed. rewrite forallb_forall. intros H Ha. apply H.
  apply list_elem_of_In. eapply list_elem_of_lookup_2. exact Ha.
Qed.

Lemma get_own_closed h v k :
  heap_closed h = true -> value_closed (length h) (get_own h v k) = true.
Proof.
  intros Hc. destruct v as [| | | |s|a|i]; simpl; try reflexivity.
  - destruct k; [|reflexivity]. destruct (s !! N.to_nat n); reflexivity.
  - destruct (h !! a) as [o|] eqn:Ha; [|reflexivity].
    apply object_get_closed. eapply heap_closed_lookup; eassumption.
Qed.

Lemma method_of_closed n c k : value_closed n (method_of c k) = true.
Proof.
  unfold method_of. destruct k as [m|s]; [reflexivity|].
  destruct (existsb _ (names c)); [reflexivity|].
  destruct (existsb _ (names ObjectC)); reflexivity.
Qed.

Lemma inherited_closed n c k : value_closed n (inherited c k) = true.
Proof.
  unfold inherited. destruct (is_name "__proto__" k); [reflexivity|].
  apply method_of_closed.
Qed.

Lemma lookup_member_closed h v k :
  heap_closed h = true -> value_closed (length h) (lookup_member h v k) = true.
Proof.
  intros Hc. unfold lookup_member.
  destruct (if is_name "length" k then own_length h v else None); [reflexivity|].
  destruct (has_own h v k); [apply get_own_closed; exact Hc|].
  destruct (class_of h v); [apply inherited_closed | reflexivity].
Qed.

Lemma read_opt_closed h v k :
  heap_closed h = true -> value_closed (length h) (read_opt h v k) = true.
Proof.
  intros Hc. unfold read_opt, get_member_opt, get_member.
  destruct v as [| | | | | |[c|c s]]; simpl; try reflexivity;
    try (apply lookup_member_closed; exact Hc).
  - unfold proto_get. destruct (is_name "__proto__" k); [destruct c; reflexivity|].
    destruct (_ && _); [reflexivity | apply method_of_closed].
  - destruct (_ || _); reflexivity.
Qed.

Section Agree.

(** Two heaps with the same first [n] objects read alike from the values
    closed under [n]. *)
Variables (n : nat) (h h' : heap).
Hypothesis Hagree : forall b, (b < n)%nat -> h' !! b = h !! b.

Lemma agree_lookup a : value_closed n (VRef a) = true -> h' !! a = h !! a.
Proof. intros Hv. apply Hagree. apply Nat.ltb_lt. exact Hv. Qed.

Lemma agree_get_own v k :
  value_closed n v = true -> get_own h' v k = get_own h v k.
Proof.
  intros Hv. destruct v; try reflexivity. simpl.
  rewrite (agree_lookup a Hv). reflexivity.
Qed.

Lemma agree_has_own v k :
  value_closed n v = true -> has_own h' v k = has_own h v k.
Proof.
  intros Hv. destruct v; try reflexivity. simpl.
  rewrite (agree_lookup a Hv). reflexivity.
Qed.

Lemma agree_isArray v : value_closed n v = true -> isArray h' v = isArray h v.
Proof.
  intros Hv. destruct v; try reflexivity. simpl.
  rewrite (agree_lookup a Hv). reflexivity.
Qed.

Lemma agree_lookup_member v k :
  value_closed n v = true -> lookup_member h' v k = lookup_member h v k.
Proof.
  intros Hv. unfold lookup_member.
  rewrite (agree_has_own v k Hv), (agree_get_own v k Hv).
  replace (own_length h' v) with (own_length h v);
    [replace (class_of h' v) with (class_of h v); [reflexivity|]|];
    destruct v; try reflexivity; simpl; rewrite (agree_lookup a Hv); reflexivity.
Qed.

Lemma agree_get_member v k :
  value_closed n v = true -> get_member h' v k = get_member h v k.
Proof.
  intros Hv. unfold get_member.
  destruct v as [| | | | | |i]; try reflexivity;
    rewrite agree_lookup_member by exact Hv; reflexivity.
Qed.

Lemma agree_read_opt v k :
  value_closed n v = true -> read_opt h' v k = read_opt h v k.
Proof.
  intros Hv. unfold read_opt, get_member_opt.
  rewrite agree_get_member by exact Hv. reflexivity.
Qed.

Lemma agree_child_clone v :
  value_closed n v = true -> child_clone h' v = child_clone h v.
Proof.
  intros Hv. unfold child_clone, isArray, spread_elems, own_entries.
  destruct v; try reflexivity. rewrite (agree_lookup a Hv). reflexivity.
Qed.

Lemma agree_to_number v :
  value_closed n v = true -> to_number h' v = to_number h v.
Proof.
  intros Hv. destruct v; try reflexivity. simpl.
  rewrite (agree_lookup a Hv). reflexivity.
Qed.

End Agree.

Lemma reach_closed h p : forall v,
  heap_closed h = true -> value_closed (length h) v = true ->
  value_closed (length h) (reach h v p) = true.
Proof.
  induction p as [|seg p IH]; intros v Hc Hv; simpl; [exact Hv|].
  apply IH; [exact Hc|]. apply read_opt_closed. exact Hc.
Qed.

(** Reading from a closed value only looks at the closed part of a heap. *)
Lemma agree_getValueAtPath (h h' : heap) p : forall v,
  heap_closed h = true ->
  (forall b, (b < length h)%nat -> h' !! b = h !! b) ->
  value_closed (length h) v = true ->
  getValueAtPath h' v p = getValueAtPath h v p.
Proof.
  induction p as [|seg p IH]; intros v Hc Hag Hv; simpl; [reflexivity|].
  destruct (nullish v) eqn:Hn; [reflexivity|].
  rewrite (agree_get_member (length h) h h' Hag v _ Hv).
  destruct (get_member h v (to_key seg)) as [x| |] eqn:Hx; try reflexivity.
  simpl. apply IH; [exact Hc | exact Hag |].
  assert (E : x = read_opt h v (to_key seg)).
  { unfold read_opt, get_member_opt. rewrite Hn, Hx. reflexivity. }
  rewrite E. apply read_opt_closed. exact Hc.
Qed.

Lemma agree_reach (h h' : heap) p : forall v,
  heap_closed h = true ->
  (forall b, (b < length h)%nat -> h' !! b = h !! b) ->
  value_closed (length h) v = true ->
  reach h' v p = reach h v p.
Proof.
  induction p as [|seg p IH]; intros v Hc Hag Hv; simpl; [reflexivity|].
  rewrite (agree_read_opt (length h) h h' Hag v _ Hv).
  apply IH; [exact Hc | exact Hag | apply read_opt_closed; exact Hc].
Qed.

Lemma lookup_agree_of_keep (h h' : heap) :
  (forall a o, h !! a = Some o -> h' !! a = Some o) ->
  forall b, (b < length h)%nat -> h' !! b = h !! b.
Proof.
  intros Hk b Hb. apply lookup_lt_is_Some in Hb. destruct Hb as [o Ho].
  rewrite Ho. apply Hk. exact Ho.
Qed.

End ClosedFacts.
(** ** Parsed documents are closed *)

Module BuildFacts.
Import JS Heap PathOps Notions JSON.

(** Induction over a tree, with the property of every element and of
    every member value at hand. *)
Lemma json_induction (P : json -> Prop) :
  P JNull ->
  (forall b, P (JBool b)) ->
  (forall x, P (JNumber x)) ->
  (forall s, P (JString s)) ->
  (forall elems, Forall P elems -> P (JArray elems)) ->
  (forall members, Forall (fun kv => P (snd kv)) members -> P (JObject members)) ->
  forall t, P t.
Proof.
  intros Hnull Hbool Hnum Hstr Harr Hobj.
  fix IH 1. intros [| b | x | s | elems | members].
  - exact Hnull.
  - apply Hbool.
  - apply Hnum.
  - apply Hstr.
  - apply Harr. induction elems as [|t elems IHl]; constructor; [apply IH | exact IHl].
  - apply Hobj. induction members as [|[k t] members IHl]; constructor;
      [apply IH | exact IHl].
Qed.

Lemma value_closed_mono n m v :
  (n <= m)%nat -> value_closed n v = true -> value_closed m v = true.
Proof.
  destruct v; simpl; try reflexivity.
  intros Hle H%Nat.ltb_lt. apply Nat.ltb_lt. lia.
Qed.

Lemma values_closed_mono n m vs :
  (n <= m)%nat -> forallb (value_closed n) vs = true ->
  forallb (value_closed m) vs = true.
Proof.
  intros Hle. rewrite !forallb_forall. intros H v Hv.
  eapply value_closed_mono; [exact Hle | apply H; exact Hv].
Qed.

Lemma props_closed_mono n m ps :
  (n <= m)%nat -> props_closed n ps = true -> props_closed m ps = true.
Proof.
  intros Hle. unfold props_closed. rewrite !forallb_forall. intros H kv Hkv.
  eapply value_closed_mono; [exact Hle | apply H; exact Hkv].
Qed.

Lemma object_closed_mono n m o :
  (n <= m)%nat -> object_closed n o = true -> object_closed m o = true.
Proof.
  intros Hle. destruct o as [ps|es ps|ps]; simpl.
  - apply props_closed_mono. exact Hle.
  - intros [Hes Hps]%andb_true_iff. apply andb_true_iff. split.
    + eapply values_closed_mono; eassumption.
    + eapply props_closed_mono; eassumption.
  - apply props_closed_mono. exact Hle.
Qed.

(** Allocating an object closed under the new length keeps a heap closed. *)
Lemma heap_closed_alloc (h : heap) o :
  heap_closed h = true -> object_closed (S (length h)) o = true ->
  heap_closed (h ++ [o]) = true.
Proof.
  unfold heap_closed. rewrite length_app. simpl length.
  replace (length h + 1)%nat with (S (length h)) by lia.
  rewrite forallb_app. intros Hh Ho. apply andb_true_iff. split.
  - rewrite forallb_forall in Hh |- *. intros x Hx.
    eapply object_closed_mono; [|apply Hh; exact Hx]. lia.
  - simpl. rewrite Ho. reflexivity.
Qed.

Lemma build_array_equation elems h :
  build (JArray elems) h =
    let '(h1, vs) :=
      (fix go (l : list json) (h : heap) : heap * list value :=
         match l with
         | [] => (h, [])
         | x :: l' =>
             let '(h1, v) := build x h in
             let '(h2, vs) := go l' h1 in
             (h2, v :: vs)
         end) elems h in
    alloc h1 (Arr vs []).
Proof. reflexivity. Qed.

Lemma build_object_equation members h :
  build (JObject members) h =
    let '(h1, ps) :=
      (fix go (l : list (jstring * json)) (h : heap) : heap * props :=
         match l with
         | [] => (h, [])
         | (k, x) :: l' =>
             let '(h1, v) := build x h in
             let '(h2, ps) := go l' h1 in
             (h2, (key_of_string k, v) :: ps)
         end) members h in
    alloc h1 (Obj ps).
Proof. reflexivity. Qed.

(** A document built from a tree lives in a closed heap: what the sharing
    and extension theorems ask of their input holds of every parsed
    document. *)
Lemma build_closed t : builds_closed t.
Proof.
  induction t as [| b | x | s | elems IH | members IH] using json_induction;
    unfold builds_closed; intros h Hc.
  1-4: simpl; auto.
  - rewrite build_array_equation.
    set (go := fix go (l : list json) (h : heap) : heap * list value :=
           match l with
           | [] => (h, [])
           | x :: l' =>
               let '(h1, v) := build x h in
               let '(h2, vs) := go l' h1 in
               (h2, v :: vs)
           end).
    assert (Hgo : forall l, Forall builds_closed l -> forall h0,
              heap_closed h0 = true ->
              heap_closed (fst (go l h0)) = true
              /\ forallb (value_closed (length (fst (go l h0)))) (snd (go l h0)) = true
              /\ (length h0 <= length (fst (go l h0)))%nat).
    { induction 1 as [|x l Hx Hl IHl]; intros h0 Hc0; simpl; [auto|].
      destruct (Hx h0 Hc0) as (Hc1 & Hv1 & Hle1).
      destruct (build x h0) as [h1 v1]. simpl in Hc1, Hv1, Hle1.
      destruct (IHl h1 Hc1) as (Hc2 & Hv2 & Hle2).
      destruct (go l h1) as [h2 vs]. simpl in *.
      split; [exact Hc2|]. split; [|lia].
      rewrite Hv2, andb_true_r. eapply value_closed_mono; eassumption. }
    destruct (Hgo elems IH h Hc) as (Hc1 & Hv1 & Hle1).
    destruct (go elems h) as [h1 vs]. simpl in *.
    split; [|split].
    + apply heap_closed_alloc; [exact Hc1|]. simpl. rewrite andb_true_r.
      eapply values_closed_mono; [|exact Hv1]. lia.
    + rewrite length_app. simpl. apply Nat.ltb_lt. lia.
    + rewrite length_app. simpl. lia.
  - rewrite build_object_equation.
    set (go := fix go (l : list (jstring * json)) (h : heap) : heap * props :=
           match l with
           | [] => (h, [])
           | (k, x) :: l' =>
               let '(h1, v) := build x h in
               let '(h2, ps) := go l' h1 in
               (h2, (key_of_string k, v) :: ps)
           end).
    assert (Hgo : forall l, Forall (fun kv => builds_closed (snd kv)) l -> forall h0,
              heap_closed h0 = true ->
              heap_closed (fst (go l h0)) = true
              /\ props_closed (length (fst (go l h0))) (snd (go l h0)) = true
              /\ (length h0 <= length (fst (go l h0)))%nat).
    { induction 1 as [|[k x] l Hx Hl IHl]; intros h0 Hc0; simpl; [auto|].
      simpl in Hx. destruct (Hx h0 Hc0) as (Hc1 & Hv1 & Hle1).
      destruct (build x h0) as [h1 v1]. simpl in Hc1, Hv1, Hle1.
      destruct (IHl h1 Hc1) as (Hc2 & Hv2 & Hle2).
      destruct (go l h1) as [h2 ps]. simpl in *.
      split; [exact Hc2|]. split; [|lia].
      unfold props_closed in *. simpl. rewrite Hv2, andb_true_r.
      eapply value_closed_mono; eassumption. }
    destruct (Hgo members IH h Hc) as (Hc1 & Hv1 & Hle1).
    destruct (go members h) as [h1 ps]. simpl in *.
    split; [|split].
    + apply heap_closed_alloc; [exact Hc1|]. simpl.
      eapply props_closed_mono; [|exact Hv1]. lia.
    + rewrite length_app. simpl. apply Nat.ltb_lt. lia.
    + rewrite length_app. simpl. lia.
Qed.

End BuildFacts.


(** ** The clone chain of updateValueAtPath *)

Module LevelFacts.
Import JS Heap PathOps Notions ObjectFacts HeapFacts ClosedFacts.

Lemma descend_cons h cur src k rest next :
  rest <> [] ->
  descend h cur src (k :: rest) next =
    (childSrc ← get_member_opt h src (to_key k);
     let '(h1, child) := alloc h (child_clone h childSrc) in
     h2 ← set_member h1 cur (to_key k) child;
     descend h2 child childSrc rest next).
Proof. destruct rest; [congruence | reflexivity]. Qed.

Lemma child_clone_is_array h v : is_array (child_clone h v) = isArray h v.
Proof.
  unfold child_clone. destruct (isArray h v); [reflexivity|].
  destruct (_ && _); reflexivity.
Qed.

Lemma root_clone_is_array h v : is_array (root_clone h v) = isArray h v.
Proof. unfold root_clone. destruct (isArray h v); reflexivity. Qed.

(** The loop writes to the node it is given and to the nodes it makes;
    whatever else the heap holds stays as it is. *)
Lemma descend_writes next : forall p h cur src h',
  descend h cur src p next = Normal h' ->
  (length h <= length h')%nat
  /\ forall b, (b < length h)%nat -> cur <> VRef b -> h' !! b = h !! b.
Proof.
  induction p as [|k rest IH]; intros h cur src h' Hd.
  - injection Hd as <-. auto.
  - destruct rest as [|k' rest].
    + change (set_member h cur (to_key k) next = Normal h') in Hd.
      destruct (set_member_frame _ _ _ _ _ Hd) as (a & o & o' & -> & Ha & ->).
      rewrite length_insert. split; [lia|].
      intros b Hb Hne. apply list_lookup_insert_ne. congruence.
    + rewrite descend_cons in Hd by discriminate.
      destruct (get_member_opt h src (to_key k)) as [childSrc| |]; try discriminate.
      rewrite bind_normal in Hd. unfold alloc in Hd.
      destruct (set_member (h ++ [child_clone h childSrc]) cur (to_key k)
                  (VRef (length h))) as [h2| |] eqn:Hs; try discriminate.
      rewrite bind_normal in Hd.
      destruct (set_member_frame _ _ _ _ _ Hs) as (a & o & o' & -> & Ha & ->).
      destruct (IH _ _ _ _ Hd) as [Hlen Hfr].
      rewrite length_insert, length_app in Hlen, Hfr. simpl in Hlen, Hfr.
      split; [lia|]. intros b Hb Hne.
      rewrite Hfr by (try lia; intros [= E]; lia).
      rewrite list_lookup_insert_ne by congruence.
      apply lookup_app_l. exact Hb.
Qed.

(** An update that returns has allocated, and has left every object of
    its input as it was. *)
Lemma update_writes h D p v h' r :
  updateValueAtPath h D (PathArray p) v = Normal (h', r) ->
  (length h <= length h')%nat
  /\ forall b, (b < length h)%nat -> h' !! b = h !! b.
Proof.
  destruct p as [|k rest]; [intros [= <- <-]; auto|].
  unfold updateValueAtPath, alloc.
  destruct (descend _ _ _ _ _) as [h2| |] eqn:Hd; try discriminate.
  intros [= <- <-]. destruct (descend_writes _ _ _ _ _ _ Hd) as [Hlen Hfr].
  rewrite length_app in Hlen, Hfr. simpl in Hlen, Hfr. split; [lia|].
  intros b Hb. rewrite Hfr by (try lia; intros [= E]; lia).
  apply lookup_app_l. exact Hb.
Qed.

Lemma builtin_name_entry_key arr k : builtin_name k = false -> entry_key arr k = true.
Proof.
  unfold builtin_name, entry_key, is_name. destruct k as [n|s]; [destruct arr; reflexivity|].
  intros H. apply orb_false_iff in H as [H _]. apply orb_false_iff in H as [H1 H2].
  simpl. rewrite H1, H2, andb_false_r. reflexivity.
Qed.

(** An update of one step on a root that is no built-in object. *)
Lemma update_one_step h D k v :
  is_intrinsic D = false ->
  entry_key (isArray h D) (to_key k) = true ->
  updateValueAtPath h D (PathArray [k]) v
  = Normal (h ++ [object_set (root_clone h D) (to_key k) v], VRef (length h)).
Proof.
  intros Hi Hk. unfold updateValueAtPath, alloc.
  change (descend (h ++ [root_clone h D]) (VRef (length h)) D [k] v)
    with (set_member (h ++ [root_clone h D]) (VRef (length h)) (to_key k) v).
  rewrite (set_member_ref _ _ _ _ _ (lookup_alloc_new _ _))
    by (rewrite root_clone_is_array; exact Hk).
  rewrite bind_normal. f_equal. f_equal.
  rewrite insert_app_r_alt by lia. rewrite Nat.sub_diag. reflexivity.
Qed.

Section Levels.

Variable h0 : heap.
Hypothesis Hclosed : heap_closed h0 = true.
Variable next : value.

(** One run of the loop from a node of the clone, along a plain path: it
    returns, it only touches that node and the nodes it allocates, the
    node ends with the first step assigned, and reading the path back
    gives the new value. *)
Lemma descend_frame : forall rest k h a o src,
  (forall b, (b < length h0)%nat -> h !! b = h0 !! b) ->
  (length h0 <= a)%nat ->
  h !! a = Some o ->
  value_closed (length h0) src = true ->
  is_array o = isArray h0 src ->
  plain h0 src (k :: rest) = true ->
  exists h',
    descend h (VRef a) src (k :: rest) next = Normal h'
    /\ (length h <= length h')%nat
    /\ (forall b, (b < length h)%nat -> b <> a -> h' !! b = h !! b)
    /\ h' !! a = Some (object_set o (to_key k)
                         (match rest with [] => next | _ :: _ => VRef (length h) end))
    /\ getValueAtPath h' (VRef a) (k :: rest) = Normal next.
Proof.
  induction rest as [|k' rest IH]; intros k h a o src Hag Hge Ha Hsrc Harr Hpl.
  - assert (Hlt : (a < length h)%nat) by (eapply lookup_lt_Some; eassumption).
    simpl in Hpl. rewrite andb_true_r in Hpl.
    apply andb_true_iff in Hpl as [_ Hk]. rewrite <- Harr in Hk.
    exists (<[a := object_set o (to_key k) next]> h).
    change (descend h (VRef a) src [k] next)
      with (set_member h (VRef a) (to_key k) next).
    rewrite (set_member_ref _ _ _ _ _ Ha Hk).
    split; [reflexivity|]. split; [rewrite length_insert; lia|].
    split; [intros b _ Hb; apply list_lookup_insert_ne; congruence|].
    assert (Hn : <[a := object_set o (to_key k) next]> h !! a
                 = Some (object_set o (to_key k) next))
      by (apply list_lookup_insert_eq; assumption).
    split; [exact Hn|].
    cbn [getValueAtPath nullish].
    rewrite (get_member_entry _ _ _ _ Hn (object_has_set_eq _ _ _)).
    + rewrite object_get_set_eq. reflexivity.
    + rewrite is_array_set. exact Hk.
  - assert (Hlt : (a < length h)%nat) by (eapply lookup_lt_Some; eassumption).
    change (plain h0 src (k :: k' :: rest))
      with (negb (is_intrinsic src) && entry_key (isArray h0 src) (to_key k)
            && plain h0 (read_opt h0 src (to_key k)) (k' :: rest)) in Hpl.
    apply andb_true_iff in Hpl as [Hpl Hrest].
    apply andb_true_iff in Hpl as [Hi Hk]. apply negb_true_iff in Hi.
    rewrite <- Harr in Hk.
    set (childSrc := read_opt h src (to_key k)).
    assert (Hcs : childSrc = read_opt h0 src (to_key k)).
    { unfold childSrc. apply (agree_read_opt (length h0)); assumption. }
    assert (Hcc : value_closed (length h0) childSrc = true).
    { rewrite Hcs. apply read_opt_closed. exact Hclosed. }
    set (oc := child_clone h childSrc).
    assert (Hoc : oc = child_clone h0 childSrc).
    { unfold oc. apply (agree_child_clone (length h0)); assumption. }
    set (h1 := h ++ [oc]).
    set (h2 := <[a := object_set o (to_key k) (VRef (length h))]> h1).
    assert (H1a : h1 !! a = Some o) by (apply lookup_alloc_old; exact Ha).
    assert (H2c : h2 !! length h = Some oc).
    { unfold h2. rewrite list_lookup_insert_ne by lia. apply lookup_alloc_new. }
    assert (Hl2 : length h2 = S (length h)).
    { unfold h2, h1. rewrite length_insert, length_app. simpl. lia. }
    assert (Hag2 : forall b, (b < length h0)%nat -> h2 !! b = h0 !! b).
    { intros b Hb. unfold h2. rewrite list_lookup_insert_ne by lia.
      unfold h1. rewrite lookup_app_l by lia. apply Hag. exact Hb. }
    assert (Harr2 : is_array oc = isArray h0 childSrc).
    { rewrite Hoc. apply child_clone_is_array. }
    rewrite <- Hcs in Hrest.
    destruct (IH k' h2 (length h) oc childSrc Hag2 ltac:(lia) H2c Hcc Harr2 Hrest)
      as (h' & Hd & Hlen & Hfr & Hnode & Hread).
    exists h'.
    assert (Hn : h' !! a = Some (object_set o (to_key k) (VRef (length h)))).
    { rewrite Hfr by lia. unfold h2. apply list_lookup_insert_eq.
      unfold h1. rewrite length_app. simpl. lia. }
    split.
    { rewrite descend_cons by discriminate.
      rewrite get_member_opt_normal by (apply is_function_intrinsic; exact Hi).
      rewrite bind_normal. unfold alloc.
      fold childSrc oc h1. rewrite (set_member_ref _ _ _ _ _ H1a Hk), bind_normal.
      exact Hd. }
    split; [lia|].
    split.
    { intros b Hb Hne. rewrite Hfr by lia. unfold h2.
      rewrite list_lookup_insert_ne by congruence.
      unfold h1. apply lookup_app_l. exact Hb. }
    split; [exact Hn|].
    change (getValueAtPath h' (VRef a) (k :: k' :: rest))
      with (cur' ← get_member h' (VRef a) (to_key k);
            getValueAtPath h' cur' (k' :: rest)).
    rewrite (get_member_entry _ _ _ _ Hn (object_has_set_eq _ _ _)).
    + rewrite object_get_set_eq, bind_normal. exact Hread.
    + rewrite is_array_set. exact Hk.
Qed.

(** After the loop, the node of the clone at any position [P1] of the
    path is a new object: the clone of the source node at [P1] with the
    step that follows assigned. *)
Lemma descend_at : forall P1 k P2 h a o src,
  (forall b, (b < length h0)%nat -> h !! b = h0 !! b) ->
  (length h0 <= a)%nat ->
  h !! a = Some o ->
  value_closed (length h0) src = true ->
  is_array o = isArray h0 src ->
  plain h0 src (P1 ++ k :: P2) = true ->
  exists h',
    descend h (VRef a) src (P1 ++ k :: P2) next = Normal h'
    /\ (forall b, (b < length h)%nat -> b <> a -> h' !! b = h !! b)
    /\ exists b x,
         getValueAtPath h' (VRef a) P1 = Normal (VRef b)
         /\ (length h0 <= b)%nat
         /\ h' !! b = Some (object_set (clone_at h0 o src P1) (to_key k) x)
         /\ (P2 = [] -> x = next).
Proof.
  induction P1 as [|k1 P1 IH]; intros k P2 h a o src Hag Hge Ha Hsrc Harr Hpl.
  - destruct (descend_frame P2 k h a o src Hag Hge Ha Hsrc Harr Hpl)
      as (h' & Hd & _ & Hfr & Hn & _).
    exists h'. split; [exact Hd|]. split; [exact Hfr|].
    exists a, (match P2 with [] => next | _ :: _ => VRef (length h) end).
    repeat split; [exact Hge | exact Hn |]. intros ->. reflexivity.
  - assert (Hlt : (a < length h)%nat) by (eapply lookup_lt_Some; eassumption).
    change (plain h0 src ((k1 :: P1) ++ k :: P2))
      with (negb (is_intrinsic src) && entry_key (isArray h0 src) (to_key k1)
            && plain h0 (read_opt h0 src (to_key k1)) (P1 ++ k :: P2)) in Hpl.
    apply andb_true_iff in Hpl as [Hpl Hrest].
    apply andb_true_iff in Hpl as [Hi Hk]. apply negb_true_iff in Hi.
    rewrite <- Harr in Hk.
    set (childSrc := read_opt h src (to_key k1)).
    assert (Hcs : childSrc = read_opt h0 src (to_key k1)).
    { unfold childSrc. apply (agree_read_opt (length h0)); assumption. }
    assert (Hcc : value_closed (length h0) childSrc = true).
    { rewrite Hcs. apply read_opt_closed. exact Hclosed. }
    set (oc := child_clone h childSrc).
    assert (Hoc : oc = child_clone h0 childSrc).
    { unfold oc. apply (agree_child_clone (length h0)); assumption. }
    set (h1 := h ++ [oc]).
    set (h2 := <[a := object_set o (to_key k1) (VRef (length h))]> h1).
    assert (H1a : h1 !! a = Some o) by (apply lookup_alloc_old; exact Ha).
    assert (Hl2 : length h2 = S (length h)).
    { unfold h2, h1. rewrite length_insert, length_app. simpl. lia. }
    assert (H2c : h2 !! length h = Some oc).
    { unfold h2. rewrite list_lookup_insert_ne by lia. apply lookup_alloc_new. }
    assert (Hag2 : forall b, (b < length h0)%nat -> h2 !! b = h0 !! b).
    { intros b Hb. unfold h2. rewrite list_lookup_insert_ne by lia.
      unfold h1. rewrite lookup_app_l by lia. apply Hag. exact Hb. }
    assert (Harr2 : is_array oc = isArray h0 childSrc).
    { rewrite Hoc. apply child_clone_is_array. }
    rewrite <- Hcs in Hrest.
    destruct (IH k P2 h2 (length h) oc childSrc Hag2 ltac:(lia) H2c Hcc Harr2 Hrest)
      as (h' & Hd & Hfr & b & x & Hb & Hbge & Hnode & Hx).
    assert (Hn : h' !! a = Some (object_set o (to_key k1) (VRef (length h)))).
    { rewrite Hfr by lia. unfold h2. apply list_lookup_insert_eq.
      unfold h1. rewrite length_app. simpl. lia. }
    exists h'. split.
    { simpl app. rewrite descend_cons by (destruct P1; discriminate).
      rewrite get_member_opt_normal by (apply is_function_intrinsic; exact Hi).
      rewrite bind_normal. unfold alloc.
      fold childSrc oc h1. rewrite (set_member_ref _ _ _ _ _ H1a Hk), bind_normal.
      exact Hd. }
    split.
    { intros c Hc Hne. rewrite Hfr by lia. unfold h2.
      rewrite list_lookup_insert_ne by congruence.
      unfold h1. apply lookup_app_l. exact Hc. }
    exists b, x. split.
    { change (getValueAtPath h' (VRef a) (k1 :: P1))
        with (cur' ← get_member h' (VRef a) (to_key k1);
              getValueAtPath h' cur' P1).
      rewrite (get_member_entry _ _ _ _ Hn (object_has_set_eq _ _ _)).
      - rewrite object_get_set_eq, bind_normal. exact Hb.
      - rewrite is_array_set. exact Hk. }
    split; [exact Hbge|]. split; [|exact Hx].
    rewrite Hnode. f_equal. f_equal.
    unfold clone_at. simpl reach. rewrite <- Hcs.
    destruct P1 as [|k2 P1]; [exact Hoc | reflexivity].
Qed.

(** An update along a plain path of one step or more returns a new root,
    and the path read back from it reaches the new value. *)
Lemma update_read D k rest :
  value_closed (length h0) D = true ->
  plain h0 D (k :: rest) = true ->
  exists h',
    updateValueAtPath h0 D (PathArray (k :: rest)) next = Normal (h', VRef (length h0))
    /\ (length h0 < length h')%nat
    /\ (forall b, (b < length h0)%nat -> h' !! b = h0 !! b)
    /\ getValueAtPath h' (VRef (length h0)) (k :: rest) = Normal next.
Proof.
  intros HD Hpl.
  set (h1 := h0 ++ [root_clone h0 D]).
  assert (Hag : forall b, (b < length h0)%nat -> h1 !! b = h0 !! b).
  { intros b Hb. unfold h1. apply lookup_app_l. exact Hb. }
  destruct (descend_frame rest k h1 (length h0) (root_clone h0 D) D Hag
              ltac:(lia) (lookup_alloc_new _ _) HD (root_clone_is_array _ _) Hpl)
    as (h' & Hd & Hlen & Hfr & _ & Hr).
  unfold h1 in Hlen, Hfr. rewrite length_app in Hlen, Hfr. simpl in Hlen, Hfr.
  exists h'. split; [unfold updateValueAtPath, alloc; fold h1; rewrite Hd; reflexivity|].
  split; [lia|]. split; [|exact Hr].
  intros b Hb. rewrite Hfr by lia. apply Hag. exact Hb.
Qed.

(** The same for every position of the path: every node on the path is a
    new object built from the clone of its source node. *)
Lemma update_at D P1 k P2 :
  value_closed (length h0) D = true ->
  plain h0 D (P1 ++ k :: P2) = true ->
  exists h',
    updateValueAtPath h0 D (PathArray (P1 ++ k :: P2)) next
      = Normal (h', VRef (length h0))
    /\ (forall a o, h0 !! a = Some o -> h' !! a = Some o)
    /\ exists b x,
         getValueAtPath h' (VRef (length h0)) P1 = Normal (VRef b)
         /\ (length h0 <= b)%nat
         /\ h' !! b = Some (object_set (clone_at h0 (root_clone h0 D) D P1) (to_key k) x)
         /\ (P2 = [] -> x = next).
Proof.
  intros HD Hpl.
  set (h1 := h0 ++ [root_clone h0 D]).
  assert (Hag : forall b, (b < length h0)%nat -> h1 !! b = h0 !! b).
  { intros b Hb. unfold h1. apply lookup_app_l. exact Hb. }
  destruct (descend_at P1 k P2 h1 (length h0) (root_clone h0 D) D Hag
              ltac:(lia) (lookup_alloc_new _ _) HD (root_clone_is_array _ _) Hpl)
    as (h' & Hd & Hfr & b & x & Hb & Hbge & Hnode & Hx).
  exists h'. split.
  { unfold updateValueAtPath.
    destruct (P1 ++ k :: P2) as [|s p] eqn:E; [destruct P1; discriminate|].
    unfold alloc. fold h1. rewrite Hd. reflexivity. }
  split.
  { intros a o Ha.
    assert (Hlt : (a < length h0)%nat) by (eapply lookup_lt_Some; eassumption).
    rewrite Hfr; [rewrite Hag; assumption | | lia].
    unfold h1. rewrite length_app. simpl. lia. }
  exists b, x. auto.
Qed.

End Levels.
End LevelFacts.

(** ** What a clone holds *)

Module CloneFacts.
Import JS Heap PathOps Notions ObjectFacts HeapFacts.

(** The clone of a container holds what the container holds: the entries
    of a map, the elements of an array. *)
Lemma clone_container h src :
  container h src = true ->
  exists a o,
    src = VRef a /\ h !! a = Some o
    /\ root_clone h src = o /\ child_clone h src = o.
Proof.
  destruct src as [| | | | |a|i]; try discriminate. simpl container.
  destruct (h !! a) as [o|] eqn:Ha; [|discriminate].
  intros Hc. exists a, o. split; [reflexivity|]. split; [exact Ha|].
  unfold root_clone, child_clone, isArray, spread_elems, own_entries.
  rewrite Ha. destruct o as [ps|es [|p ps]|ps]; try discriminate; split; reflexivity.
Qed.

Lemma clone_at_container h D P1 :
  container h (reach h D P1) = true ->
  exists a o,
    reach h D P1 = VRef a /\ h !! a = Some o
    /\ clone_at h (root_clone h D) D P1 = o.
Proof.
  intros Hc. destruct (clone_container _ _ Hc) as (a & o & Hr & Ha & Hroot & Hchild).
  exists a, o. split; [exact Hr|]. split; [exact Ha|].
  destruct P1 as [|k P1]; [exact Hroot | exact Hchild].
Qed.

(** The clone of a source that is missing is the empty map. *)
Lemma child_clone_nullish h src : nullish src = true -> child_clone h src = Obj [].
Proof. destruct src; try discriminate; reflexivity. Qed.

(** The clone has the type of its source: an array for an array, with the
    same elements; a map for a map, with the same entries; the empty map
    for anything else, except that the clone of a root that is a text
    holds the code units of the text. *)
Lemma clone_follows_source h src :
  (forall a es ps, src = VRef a -> h !! a = Some (Arr es ps) ->
     root_clone h src = Arr es [] /\ child_clone h src = Arr es [])
  /\ (forall a ps, src = VRef a -> h !! a = Some (Obj ps) ->
        root_clone h src = Obj ps /\ child_clone h src = Obj ps)
  /\ (typeof src <> TObject \/ src = VNull -> child_clone h src = Obj [])
  /\ (typeof src <> TObject \/ src = VNull ->
      root_clone h src = match src with
                         | VString s => Obj (string_entries 0 s)
                         | _ => Obj []
                         end).
Proof.
  unfold root_clone, child_clone, isArray, spread_elems, own_entries.
  repeat split.
  1-4: intros; subst src; simpl; rewrite H0; reflexivity.
  - intros [H| ->]; [|reflexivity].
    destruct src as [| | | | | |[c|c s]]; simpl in *; rewrite ?andb_false_r;
      try reflexivity; contradiction.
  - intros [H| ->]; [|reflexivity].
    destruct src as [| | | | | |[c|c s]]; simpl in *; try reflexivity; contradiction.
Qed.

End CloneFacts.

(* ===================================================================== *)
(** * The path primitives                                                *)
(* ===================================================================== *)

Section PathPrimitives.
Import JS Heap PathOps Notions Sample.
Import ObjectFacts HeapFacts ClosedFacts LevelFacts CloneFacts.

Lemma get_own_not_has h v k : has_own h v k = false -> get_own h v k = VUndefined.
Proof.
  destruct v as [| | | | s | a | i]; simpl; try reflexivity.
  - destruct k as [n|t]; [|reflexivity].
    intros H%Nat.ltb_ge. rewrite lookup_ge_None_2 by assumption. reflexivity.
  - destruct (h !! a) as [o|]; [apply object_get_not_has | reflexivity].
Qed.

(** C1 -- Read-after-write, as stated: the update of {} at the name
    __proto__ with 5 returns, and the name read back from the result is
    not 5: the assignment has gone to the inherited setter, which ignores
    a number, and the read answers the prototype of the objects. *)
Lemma read_after_write_fails_at_proto :
  (1 <= length [Key (js "__proto__")])%nat
  /\ avoids_leaves empty_map empty_map_root [Key (js "__proto__")] = true
  /\ ~ (exists h' r,
          updateValueAtPath empty_map empty_map_root
            (PathArray [Key (js "__proto__")]) five = Normal (h', r)
          /\ getValueAtPath h' r [Key (js "__proto__")] = Normal five).
Proof.
  split; [simpl; lia|]. split; [reflexivity|].
  intros (h' & r & Hu & Hg). vm_compute in Hu. injection Hu as <- <-.
  vm_compute in Hg. discriminate Hg.
Qed.

(** C1 -- Read-after-write, amended.  For every document [D], every path
    [P] of at least one step that does not pass through a leaf of [D] and
    is plain -- no step is the name __proto__, none is the name length
    applied to an array, none is taken from a built-in object -- and
    every value [v], the update returns a document from which
    [getValueAtPath] along [P] returns [v]. *)
Theorem read_after_write (h : heap) (D : value) (P : Path) (v : value) :
  heap_closed h = true ->
  value_closed (length h) D = true ->
  (1 <= length P)%nat ->
  avoids_leaves h D P = true ->
  plain h D P = true ->
  exists h' r,
    updateValueAtPath h D (PathArray P) v = Normal (h', r)
    /\ getValueAtPath h' r P = Normal v.
Proof.
  intros Hc HD Hlen _ Hpl. destruct P as [|k rest]; [simpl in Hlen; lia|].
  destruct (update_read h Hc v D k rest HD Hpl) as (h' & Hu & _ & _ & Hr).
  exists h', (VRef (length h)). split; [exact Hu | exact Hr].
Qed.

Lemma read_after_write_witness :
  heap_closed nested = true
  /\ value_closed (length nested) nested_root = true
  /\ (1 <= length [Key (js "a"); Key (js "b")])%nat
  /\ avoids_leaves nested nested_root [Key (js "a"); Key (js "b")] = true
  /\ plain nested nested_root [Key (js "a"); Key (js "b")] = true
  /\ exists h' r,
       updateValueAtPath nested nested_root
         (PathArray [Key (js "a"); Key (js "b")]) two = Normal (h', r)
       /\ getValueAtPath h' r [Key (js "a"); Key (js "b")] = Normal two.
Proof.
  split; [reflexivity|]. split; [reflexivity|]. split; [simpl; lia|].
  split; [reflexivity|]. split; [reflexivity|].
  apply (read_after_write nested nested_root [Key (js "a"); Key (js "b")] two);
    first [reflexivity | simpl; lia].
Defined.

(** C2 -- Structural sharing, as stated: the update of [1, 2, 3] at the
    name length with 0 returns the empty array; the entry at index 0,
    which the path does not address, is gone. *)
Lemma structural_sharing_fails_at_length :
  (1 <= length [Key (js "length")])%nat
  /\ KIndex 0 <> to_key (Key (js "length"))
  /\ exists h' r,
       updateValueAtPath triple triple_root (PathArray [Key (js "length")]) zero
         = Normal (h', r)
       /\ h' !! 1%nat = Some (Arr [] [])
       /\ r = VRef 1
       /\ get_own h' r (KIndex 0) <> get_own triple triple_root (KIndex 0).
Proof.
  split; [simpl; lia|]. split; [discriminate|].
  eexists _, _. split; [vm_compute; reflexivity|].
  split; [reflexivity|]. split; [reflexivity|]. vm_compute. discriminate.
Qed.

(** C2 -- Structural sharing, amended.  An update along a plain path of
    one step or more returns, leaves every object of the input where it
    was and as it was, and builds its result from new objects along the
    path: at every position [P1] of the path the node of the result is a
    new object, and where the document has a container at [P1] -- a map,
    or an array that carries its elements only -- the new node and the
    container hold the same under every key but the one the next step
    [k] addresses: the same primitive, the same reference into the
    untouched input, or nothing on both sides. *)
Theorem structural_sharing (h : heap) (D : value) (P : Path) (v : value) :
  heap_closed h = true ->
  value_closed (length h) D = true ->
  (1 <= length P)%nat ->
  plain h D P = true ->
  exists h' r,
    updateValueAtPath h D (PathArray P) v = Normal (h', r)
    /\ (forall a o, h !! a = Some o -> h' !! a = Some o)
    /\ (forall P1 k P2,
          P = P1 ++ k :: P2 ->
          exists b src,
            getValueAtPath h' r P1 = Normal (VRef b)
            /\ getValueAtPath h D P1 = Normal src
            /\ (length h <= b)%nat
            /\ (container h src = true ->
                forall k', k' <> to_key k ->
                  get_own h' (VRef b) k' = get_own h src k'
                  /\ value_closed (length h) (get_own h src k') = true)).
Proof.
  intros Hc HD Hlen Hpl. destruct P as [|k0 rest]; [simpl in Hlen; lia|].
  destruct (update_at h Hc v D [] k0 rest HD Hpl) as (h' & Hu & Hold & _).
  exists h', (VRef (length h)). split; [exact Hu|]. split; [exact Hold|].
  intros P1 k P2 HP. rewrite HP in Hpl.
  destruct (update_at h Hc v D P1 k P2 HD Hpl)
    as (h'' & Hu' & _ & b & x & Hb & Hbge & Hobj & _).
  simpl app in Hu. rewrite <- HP in Hu'. rewrite Hu in Hu'.
  injection Hu' as <-.
  exists b, (reach h D P1). split; [exact Hb|]. split.
  { apply getValueAtPath_reach. apply plain_avoids_functions.
    apply (plain_app h P1 (k :: P2) D Hpl). }
  split; [exact Hbge|]. intros Hcont k' Hne.
  destruct (clone_at_container h D P1 Hcont) as (a & o & Hr & Ha & Hclone).
  rewrite Hclone in Hobj. rewrite Hr.
  rewrite (get_own_ref _ _ _ _ Hobj), (get_own_ref _ _ _ _ Ha).
  split; [apply object_get_set_ne; congruence|].
  apply object_get_closed. eapply heap_closed_lookup; eassumption.
Qed.

Lemma structural_sharing_witness :
  heap_closed nested = true
  /\ value_closed (length nested) nested_root = true
  /\ (1 <= length [Key (js "a"); Key (js "b")])%nat
  /\ plain nested nested_root [Key (js "a"); Key (js "b")] = true
  /\ exists h' r,
       updateValueAtPath nested nested_root
         (PathArray [Key (js "a"); Key (js "b")]) two = Normal (h', r)
       /\ h' !! 0%nat = nested !! 0%nat
       /\ exists b,
            getValueAtPath h' r [Key (js "a")] = Normal (VRef b)
            /\ (length nested <= b)%nat
            /\ get_own h' (VRef b) (KName (js "c")) = VString (js "x").
Proof.
  split; [reflexivity|]. split; [reflexivity|]. split; [simpl; lia|].
  split; [reflexivity|].
  destruct (structural_sharing nested nested_root
              [Key (js "a"); Key (js "b")] two eq_refl eq_refl ltac:(simpl; lia)
              eq_refl)
    as (h' & r & Hu & Hold & Hlev).
  exists h', r. split; [exact Hu|].
  split; [apply Hold; reflexivity|].
  destruct (Hlev [Key (js "a")] (Key (js "b")) [] eq_refl)
    as (b & src & Hb & Hsrc & Hge & Hk).
  vm_compute in Hsrc. injection Hsrc as <-.
  exists b. split; [exact Hb|]. split; [exact Hge|].
  apply (Hk eq_refl (KName (js "c"))). discriminate.
Defined.

(** The document {"a": {"b": 1, "c": "x"}} updated at a, b with 2 is
    {"a": {"b": 2, "c": "x"}}. *)
Example update_nested :
  exists h' r,
    updateValueAtPath nested nested_root (PathArray [Key (js "a"); Key (js "b")]) two
      = Normal (h', r)
    /\ denotes h' r
         (JSON.JObject
            [(js "a", JSON.JObject [(js "b", JSON.JNumber (of_Z 2));
                                    (js "c", JSON.JString (js "x"))])])
       = true.
Proof. eexists _, _. split; reflexivity. Qed.

(** C3 -- Root replacement.  With the empty path, or with a path that is
    not an array, the update returns the new value itself and builds
    nothing. *)
Theorem root_replacement (h : heap) (D : value) (v : value) :
  updateValueAtPath h D (PathArray []) v = Normal (h, v)
  /\ updateValueAtPath h D NotAnArray v = Normal (h, v).
Proof. split; reflexivity. Qed.

(** C6 -- Clone type follows the source, at a root that is a text.  The
    root "hi" is not a container, yet the clone the update builds from is
    not the empty map: it holds the two code units of the text, beside
    the new entry.  The same text below the root is cloned to the empty
    map. *)
Theorem text_root_clone_keeps_code_units :
  updateValueAtPath [] (VString (js "hi")) (PathArray [Key (js "a")]) one
    = Normal ([Obj [(KIndex 0, VString (js "h")); (KIndex 1, VString (js "i"));
                    (KName (js "a"), one)]], VRef 0%nat)
  /\ root_clone [] (VString (js "hi"))
     = Obj [(KIndex 0, VString (js "h")); (KIndex 1, VString (js "i"))]
  /\ child_clone [] (VString (js "hi")) = Obj [].
Proof. repeat split; reflexivity. Qed.

(** C7 -- Extension, as stated: in the document [1] the steps length, a
    address nothing, and yet the update at length, a, b fails: the empty
    map made for the step a is assigned to the length of the clone of the
    array, a RangeError. *)
Lemma extension_fails_at_length :
  getValueAtPath single single_root [Key (js "length"); Key (js "a")] = Normal VUndefined
  /\ updateValueAtPath single single_root
       (PathArray [Key (js "length"); Key (js "a"); Key (js "b")]) five
     = Throw RangeError.
Proof. split; vm_compute; reflexivity. Qed.

(** C7 -- Extension, amended.  When the steps [P1] that lead to an
    intermediate position address nothing, or null, in the document, and
    the path is plain, the update returns, and the node of the result at
    that position is a new map whose only entry is the one the next step
    [k] addresses; it holds the new value when [k] is the last step.  In
    particular the update of {} at a, b with 5 is {a: {b: 5}}. *)
Theorem extension :
  (forall (h : heap) (D : value) (P1 : Path) (k : step) (P2 : Path) (v src : value),
     heap_closed h = true ->
     value_closed (length h) D = true ->
     (1 <= length P1)%nat ->
     plain h D (P1 ++ k :: P2) = true ->
     getValueAtPath h D P1 = Normal src ->
     nullish src = true ->
     exists h' r b x,
       updateValueAtPath h D (PathArray (P1 ++ k :: P2)) v = Normal (h', r)
       /\ getValueAtPath h' r P1 = Normal (VRef b)
       /\ (length h <= b)%nat
       /\ h' !! b = Some (Obj [(to_key k, x)])
       /\ (P2 = [] -> x = v))
  /\ (exists h' r,
        updateValueAtPath empty_map empty_map_root
          (PathArray [Key (js "a"); Key (js "b")]) five = Normal (h', r)
        /\ denotes h' r
             (JSON.JObject [(js "a", JSON.JObject [(js "b", JSON.JNumber (of_Z 5))])])
           = true).
Proof.
  split.
  - intros h D P1 k P2 v src Hc HD Hlen Hpl Hsrc Hnull.
    destruct (update_at h Hc v D P1 k P2 HD Hpl)
      as (h' & Hu & _ & b & x & Hb & Hbge & Hobj & Hx).
    exists h', (VRef (length h)), b, x. split; [exact Hu|].
    split; [exact Hb|]. split; [exact Hbge|]. split; [|exact Hx].
    rewrite Hobj. f_equal.
    rewrite getValueAtPath_reach in Hsrc
      by (apply plain_avoids_functions; apply (plain_app h P1 (k :: P2) D Hpl)).
    injection Hsrc as <-.
    unfold clone_at. destruct P1 as [|k1 P1]; [simpl in Hlen; lia|].
    rewrite child_clone_nullish by exact Hnull. reflexivity.
  - eexists _, _. split; reflexivity.
Qed.

Lemma extension_witness :
  heap_closed empty_map = true
  /\ value_closed (length empty_map) empty_map_root = true
  /\ (1 <= length [Key (js "a")])%nat
  /\ plain empty_map empty_map_root ([Key (js "a")] ++ Key (js "b") :: []) = true
  /\ getValueAtPath empty_map empty_map_root [Key (js "a")] = Normal VUndefined
  /\ nullish VUndefined = true
  /\ exists h' r b x,
       updateValueAtPath empty_map empty_map_root
         (PathArray ([Key (js "a")] ++ Key (js "b") :: [])) five = Normal (h', r)
       /\ getValueAtPath h' r [Key (js "a")] = Normal (VRef b)
       /\ (length empty_map <= b)%nat
       /\ h' !! b = Some (Obj [(to_key (Key (js "b")), x)])
       /\ (([] : Path) = [] -> x = five).
Proof.
  repeat (split; [first [reflexivity | simpl; lia]|]).
  apply (proj1 extension empty_map empty_map_root [Key (js "a")] (Key (js "b")) []
           five VUndefined);
    first [reflexivity | simpl; lia].
Defined.

(** C8 -- Absence safety, as stated: in the document {} the name
    constructor reads the function that makes objects, and the name
    caller read from that function raises a TypeError. *)
Lemma absence_safety_fails_at_caller :
  getValueAtPath empty_map empty_map_root [Key (js "constructor"); Key (js "caller")]
  = Throw TypeError.
Proof. vm_compute. reflexivity. Qed.

(** C8 -- Absence safety, amended.  [getValueAtPath] returns for every
    document, null and undefined included, and every path that takes no
    step from a built-in function; it returns undefined when a proper
    prefix of the path reaches null or undefined, and when the last step,
    taken from a node that is no function, names neither an entry of the
    node nor a built-in member. *)
Theorem absence_safety (h : heap) (D : value) (P : Path) :
  (avoids_functions h D P = true -> exists v, getValueAtPath h D P = Normal v)
  /\ (forall P1 P2 node,
        P = P1 ++ P2 -> (1 <= length P2)%nat ->
        getValueAtPath h D P1 = Normal node -> nullish node = true ->
        getValueAtPath h D P = Normal VUndefined)
  /\ (forall P1 k node,
        P = P1 ++ [k] ->
        getValueAtPath h D P1 = Normal node ->
        is_function node = false ->
        has_own h node (to_key k) = false ->
        builtin_name (to_key k) = false ->
        getValueAtPath h D P = Normal VUndefined).
Proof.
  split; [intros Hf; eexists; apply getValueAtPath_reach; exact Hf|]. split.
  - intros P1 P2 node -> Hlen Hnode Hnull.
    rewrite getValueAtPath_bind, Hnode, bind_normal.
    apply getValueAtPath_nullish; assumption.
  - intros P1 k node -> Hnode Hf Hhas Hb.
    rewrite getValueAtPath_bind, Hnode, bind_normal.
    cbn [getValueAtPath]. destruct (nullish node) eqn:Hn; [reflexivity|].
    rewrite (get_member_normal _ _ _ Hn Hf), bind_normal. f_equal.
    apply read_opt_absent; assumption.
Qed.

Lemma absence_safety_witness :
  avoids_functions [] VNull [Key (js "a"); Index 3] = true
  /\ (exists v, getValueAtPath [] VNull [Key (js "a"); Index 3] = Normal v)
  /\ getValueAtPath [] VNull [Key (js "a"); Index 3] = Normal VUndefined
  /\ getValueAtPath nested nested_root [Key (js "a"); Key (js "z")] = Normal VUndefined.
Proof.
  split; [reflexivity|].
  split; [apply (proj1 (absence_safety [] VNull [Key (js "a"); Index 3])); reflexivity|].
  split.
  - apply (proj1 (proj2 (absence_safety [] VNull [Key (js "a"); Index 3]))
             [] [Key (js "a"); Index 3] VNull);
      first [reflexivity | simpl; lia].
  - apply (proj2 (proj2 (absence_safety nested nested_root
                           [Key (js "a"); Key (js "z")]))
             [Key (js "a")] (Key (js "z")) (VRef 0%nat));
      reflexivity.
Defined.

End PathPrimitives.

(* ===================================================================== *)
(** * The store                                                          *)
(* ===================================================================== *)

Section StoreClaims.
Import JS Heap PathOps UseJson Notions Sample.

(** [clear] leaves the empty text. *)
Lemma clear_leaves_empty_text s : fst (clear s) = cleared_store.
Proof. reflexivity. Qed.

(** C4 -- Bad-state no-op, as stated: the store after [clear] holds the
    empty text, which does not deserialize, and yet an update goes on --
    the empty text is read as {} -- to the serializer: whatever that one
    does, the call does not return with the state as it was and without
    a call to a collaborator. *)
Lemma bad_state_noop_fails_on_empty_text :
  JSON.parse (json cleared_store) = Throw SyntaxError
  /\ forall stringify,
       updateAtPath stringify cleared_store [] [Key (js "x")] one
       <> Normal (cleared_store, []).
Proof.
  split; [reflexivity|]. intros stringify H. vm_compute in H.
  destruct (stringify _ _) as [[t|]| |]; discriminate H.
Qed.

(** C4 -- Bad-state no-op, amended.  When the stored text is not empty
    and fails to deserialize, [updateAtPath] returns to its caller with
    the state as it was -- text and loading flag -- and without a call to
    either collaborator; so it does on the text {not json. *)
Theorem bad_state_noop (stringify : heap -> value -> completion (option jstring))
    (s : JsonStates) (h : heap) (path : Path) (next : value) (e : error) :
  json s <> [] ->
  JSON.parse (json s) = Throw e ->
  updateAtPath stringify s h path next = Normal (s, []).
Proof.
  intros Hne Hparse. unfold updateAtPath, current_text.
  destruct (json s) as [|c t] eqn:E; [congruence|]. rewrite Hparse. reflexivity.
Qed.

Lemma bad_state_noop_witness :
  json broken_store <> []
  /\ JSON.parse (json broken_store) = Throw SyntaxError
  /\ forall stringify,
       updateAtPath stringify broken_store [] [Key (js "x")] one
       = Normal (broken_store, []).
Proof.
  assert (Hne : json broken_store <> []) by (vm_compute; discriminate).
  split; [exact Hne|]. split; [reflexivity|].
  intros stringify.
  apply (bad_state_noop stringify broken_store [] [Key (js "x")] one SyntaxError);
    [exact Hne | reflexivity].
Defined.

End StoreClaims.

(** ** The loop of onSave *)

Module SaveFacts.
Import JS JSText Heap PathOps NodeModal NodeModalRest Notions EditorNotions.
Import ObjectFacts HeapFacts.

(** Whatever the original and the text, a coercion gives a primitive. *)
Lemma coerceLike_is_primitive orig s : is_primitive (coerceLike orig s) = true.
Proof.
  unfold coerceLike. destruct orig as [| | b | x | t | a | [c|c n]]; simpl;
    try reflexivity.
  - destruct (jstring_eqb _ _); reflexivity.
  - destruct (jstring_eqb _ (js "true")); [reflexivity|].
    destruct (jstring_eqb _ (js "false")); reflexivity.
  - destruct (isNaN (StringToNumber s)); reflexivity.
Qed.

Lemma method_of_not_primitive c k : is_primitive (method_of c k) = false.
Proof.
  unfold method_of. destruct k as [n|s]; [reflexivity|].
  destruct (existsb _ (names c)); [destruct c; simpl; repeat destruct (jstring_eqb _ _); reflexivity|].
  destruct (existsb _ (names ObjectC)); reflexivity.
Qed.

(** What a map inherits is no primitive. *)
Lemma inherited_not_primitive c k : is_primitive (inherited c k) = false.
Proof.
  unfold inherited. destruct (is_name "__proto__" k); [reflexivity|].
  apply method_of_not_primitive.
Qed.

(** What a read of a map gives is the entry, or an inherited member that
    is no primitive. *)
Lemma get_member_map h a ps k :
  h !! a = Some (Obj ps) ->
  exists v,
    get_member h (VRef a) k = Normal v
    /\ is_primitive v = is_primitive (object_get (Obj ps) k)
    /\ (is_primitive v = true -> v = object_get (Obj ps) k /\ props_get ps k = Some v).
Proof.
  intros Ha. unfold get_member, lookup_member.
  assert (E : (if is_name "length" k then own_length h (VRef a) else None) = None).
  { destruct (is_name "length" k); [|reflexivity]. simpl. rewrite Ha. reflexivity. }
  rewrite E. simpl. rewrite Ha. simpl.
  destruct (props_get ps k) as [x|] eqn:Hk; simpl.
  - exists x. auto.
  - exists (inherited ObjectC k). split; [reflexivity|].
    rewrite inherited_not_primitive. split; [reflexivity | discriminate].
Qed.

Lemma props_has_set ps k v k' :
  match props_get (props_set ps k v) k' with Some _ => true | None => false end
  = key_eqb k k' || match props_get ps k' with Some _ => true | None => false end.
Proof.
  induction ps as [|[k0 v0] ps IH]; simpl.
  - destruct (key_eqb k k'); reflexivity.
  - destruct (key_eqb k0 k) eqn:E0; simpl.
    + apply key_eqb_eq in E0. subst k0. destruct (key_eqb k k'); reflexivity.
    + destruct (key_eqb k0 k'); [rewrite orb_true_r; reflexivity | exact IH].
Qed.

Lemma props_get_undefined_not_primitive ps k :
  is_primitive (or_undefined (props_get ps k)) = true ->
  match props_get ps k with Some _ => true | None => false end = true.
Proof. destruct (props_get ps k); [reflexivity | discriminate]. Qed.

Lemma apply_drafts_cons h cur nextObj k draftVal rest :
  apply_drafts h cur nextObj ((k, draftVal) :: rest) =
    if is_read_only k then apply_drafts h cur nextObj rest
    else
      orig ← get_member h cur (key_of_string k);
      if is_primitive orig then
        h' ← set_member h nextObj (key_of_string k) (coerceLike orig draftVal);
        apply_drafts h' cur nextObj rest
      else apply_drafts h cur nextObj rest.
Proof. reflexivity. Qed.

(** An assignment of a primitive to a map returns, leaves a map, and
    changes no entry but the one it names. *)
Lemma object_assign_map h o k x :
  is_array o = false -> is_primitive x = true ->
  exists o',
    object_assign h o k x = Normal o'
    /\ is_array o' = false
    /\ (forall k', k' <> k -> object_get o' k' = object_get o k').
Proof.
  intros Harr Hx. destruct o as [ps|es ps|ps]; [|discriminate|].
  - unfold object_assign.
    destruct (is_name "__proto__" k && negb (object_has (Obj ps) k)).
    + destruct x as [| | b | y | t | a | [c|c s]]; simpl in Hx; try discriminate Hx;
        simpl; eexists; repeat split; intros; reflexivity.
    + eexists. split; [reflexivity|]. split; [reflexivity|].
      intros k' Hne. apply object_get_set_ne. congruence.
  - eexists. split; [reflexivity|]. split; [reflexivity|].
    intros k' Hne. apply object_get_set_ne. congruence.
Qed.

(** The loop returns for every node that is an object and every list of
    drafts; it changes the map it fills and nothing else, and only under
    the keys of the drafts that are not read-only. *)
Lemma apply_drafts_map cur n : forall drafts h o,
  nullish cur = false ->
  is_function cur = false ->
  h !! n = Some o ->
  is_array o = false ->
  exists h' o',
    apply_drafts h cur (VRef n) drafts = Normal h'
    /\ h' !! n = Some o'
    /\ is_array o' = false
    /\ length h' = length h
    /\ (forall b, b <> n -> h' !! b = h !! b)
    /\ (forall k,
          (forall d, In d drafts -> is_read_only (fst d) = true
                                    \/ key_of_string (fst d) <> k) ->
          object_get o' k = object_get o k).
Proof.
  induction drafts as [|[k draftVal] drafts IH]; intros h o Hcur Hf Hn Harr.
  - exists h, o. repeat split; auto.
  - rewrite apply_drafts_cons.
    assert (Hrest : forall k0,
               (forall d, In d ((k, draftVal) :: drafts) ->
                  is_read_only (fst d) = true \/ key_of_string (fst d) <> k0) ->
               forall d, In d drafts ->
                 is_read_only (fst d) = true \/ key_of_string (fst d) <> k0).
    { intros k0 H d Hd. apply H. right. exact Hd. }
    destruct (is_read_only k) eqn:Hro.
    { destruct (IH h o Hcur Hf Hn Harr) as (h' & o' & Hd & Hn' & Ha' & Hl & Hfr & Hk).
      exists h', o'. repeat split; auto. }
    rewrite (get_member_normal _ _ _ Hcur Hf), bind_normal.
    set (orig := read_opt h cur (key_of_string k)).
    destruct (is_primitive orig) eqn:Hp.
    2:{ destruct (IH h o Hcur Hf Hn Harr) as (h' & o' & Hd & Hn' & Ha' & Hl & Hfr & Hk).
        exists h', o'. repeat split; auto. }
    destruct (object_assign_map h o (key_of_string k) (coerceLike orig draftVal)
                Harr (coerceLike_is_primitive _ _))
      as (o1 & Ho1 & Harr1 & Hget1).
    assert (Hlt : (n < length h)%nat) by (eapply lookup_lt_Some; eassumption).
    assert (Hs : set_member h (VRef n) (key_of_string k) (coerceLike orig draftVal)
                 = Normal (<[n := o1]> h)).
    { simpl. rewrite Hn, Ho1. reflexivity. }
    rewrite Hs, bind_normal.
    destruct (IH (<[n := o1]> h) o1 Hcur Hf (list_lookup_insert_eq h n o1 Hlt) Harr1)
      as (h' & o' & Hd & Hn' & Ha' & Hl & Hfr & Hk).
    exists h', o'. split; [exact Hd|]. split; [exact Hn'|]. split; [exact Ha'|].
    split; [rewrite Hl; apply length_insert|]. split.
    + intros b Hb. rewrite Hfr by exact Hb. apply list_lookup_insert_ne. congruence.
    + intros k0 Hk0. rewrite Hk by (apply Hrest; exact Hk0).
      apply Hget1. intros ->.
      destruct (Hk0 (k, draftVal) (or_introl eq_refl)) as [H|H]; simpl in H;
        [congruence | contradiction].
Qed.

(** On a map node, the loop fills the copy as [drafted] says. *)
Lemma apply_drafts_drafted a n ps : forall drafts h qs,
  a <> n ->
  h !! a = Some (Obj ps) ->
  h !! n = Some (Obj qs) ->
  (forall k, match props_get qs k with Some _ => true | None => false end
             = match props_get ps k with Some _ => true | None => false end) ->
  exists h',
    apply_drafts h (VRef a) (VRef n) drafts = Normal h'
    /\ h' !! n = Some (drafted (Obj ps) (Obj qs) drafts)
    /\ (forall b, b <> n -> h' !! b = h !! b).
Proof.
  induction drafts as [|[k t] drafts IH]; intros h qs Hne Ha Hn Hkeys.
  - exists h. auto.
  - rewrite apply_drafts_cons.
    change (drafted (Obj ps) (Obj qs) ((k, t) :: drafts))
      with (if is_read_only k then drafted (Obj ps) (Obj qs) drafts
            else if is_primitive (object_get (Obj ps) (key_of_string k))
            then drafted (Obj ps)
                   (object_set (Obj qs) (key_of_string k)
                      (coerceLike (object_get (Obj ps) (key_of_string k)) t)) drafts
            else drafted (Obj ps) (Obj qs) drafts).
    destruct (is_read_only k); [apply IH; assumption|].
    destruct (get_member_map h a ps (key_of_string k) Ha) as (v & Hv & Hpv & Hown).
    rewrite Hv, bind_normal, Hpv.
    destruct (is_primitive (object_get (Obj ps) (key_of_string k))) eqn:Hp;
      [|apply IH; assumption].
    rewrite Hpv in Hown. destruct (Hown eq_refl) as [-> Hget].
    set (x := coerceLike (object_get (Obj ps) (key_of_string k)) t).
    assert (Hhas : object_has (Obj qs) (key_of_string k) = true).
    { simpl. rewrite Hkeys, Hget. reflexivity. }
    assert (Hs : set_member h (VRef n) (key_of_string k) x
                 = Normal (<[n := object_set (Obj qs) (key_of_string k) x]> h)).
    { unfold set_member. rewrite Hn. unfold object_assign. rewrite Hhas.
      rewrite andb_false_r. reflexivity. }
    rewrite Hs, bind_normal.
    assert (Hlt : (n < length h)%nat) by (eapply lookup_lt_Some; eassumption).
    destruct (IH (<[n := object_set (Obj qs) (key_of_string k) x]> h)
                (props_set qs (key_of_string k) x) Hne) as (h' & Hd & Hn' & Hfr).
    + rewrite list_lookup_insert_ne by congruence. exact Ha.
    + apply list_lookup_insert_eq. exact Hlt.
    + intros k0. rewrite props_has_set, Hkeys.
      destruct (key_eqb (key_of_string k) k0) eqn:E; [|reflexivity].
      apply key_eqb_eq in E. subst k0. rewrite Hget. reflexivity.
    + exists h'. split; [exact Hd|]. split; [exact Hn'|].
      intros b Hb. rewrite Hfr by exact Hb.
      apply list_lookup_insert_ne. congruence.
Qed.

(** A node that [isObjectNode] accepts is an object, and no function. *)
Lemma isObjectNode_object h v :
  isObjectNode h v = true -> nullish v = false /\ is_function v = false.
Proof.
  unfold isObjectNode. destruct v as [| | | | | |[c|c s]]; simpl; try discriminate; auto.
Qed.

End SaveFacts.
(* ===================================================================== *)
(** * The editor                                                         *)
(* ===================================================================== *)

Section EditorClaims.
Import JS Heap PathOps NodeModal Notions Sample.
Import ObjectFacts HeapFacts SaveFacts.

Lemma trimStart_blank s : blank s = true -> trimStart s = [].
Proof.
  induction s as [|c s IH]; simpl; [reflexivity|].
  intros [Hc Hs]%andb_true_iff. rewrite Hc. apply IH. exact Hs.
Qed.

Lemma trim_blank s : blank s = true -> trim s = [].
Proof. intros H. unfold trim. rewrite trimStart_blank by exact H. reflexivity. Qed.

(** C5 -- Type-preserving coercion.  A number takes the number the text
    parses to, and stays as it is when the text does not parse (the parse
    is NaN); a boolean becomes true or false on the text true or false,
    trimmed and in any case, and stays as it is otherwise; null stays
    null on the text null and no other, and otherwise becomes the text;
    anything else becomes the text.  So 42 edited to 17 is 17, and 42
    edited to abc is 42. *)
Theorem type_preserving_coercion (s : jstring) :
  (forall x,
     coerceLike (VNumber x) s
     = if isNaN (StringToNumber s) then VNumber x else VNumber (StringToNumber s))
  /\ (forall b,
        (toLowerCase (trim s) = js "true" -> coerceLike (VBool b) s = VBool true)
        /\ (toLowerCase (trim s) = js "false" -> coerceLike (VBool b) s = VBool false)
        /\ (toLowerCase (trim s) <> js "true" -> toLowerCase (trim s) <> js "false" ->
            coerceLike (VBool b) s = VBool b))
  /\ ((coerceLike VNull s = VNull <-> toLowerCase (trim s) = js "null")
      /\ (toLowerCase (trim s) <> js "null" -> coerceLike VNull s = VString s))
  /\ (forall orig,
        typeof orig <> TNumber -> typeof orig <> TBoolean -> orig <> VNull ->
        coerceLike orig s = VString s)
  /\ coerceLike (VNumber (of_Z 42)) (js "17") = VNumber (of_Z 17)
  /\ coerceLike (VNumber (of_Z 42)) (js "abc") = VNumber (of_Z 42).
Proof.
  split; [reflexivity|]. split; [|split; [|split]].
  - intros b. unfold coerceLike. simpl typeof. simpl type_tag_eqb. cbv iota.
    repeat split.
    + intros ->. reflexivity.
    + intros ->. reflexivity.
    + intros Ht Hf.
      destruct (jstring_eqb _ (js "true")) eqn:E1;
        [apply jstring_eqb_eq in E1; contradiction|].
      destruct (jstring_eqb _ (js "false")) eqn:E2;
        [apply jstring_eqb_eq in E2; contradiction|].
      reflexivity.
  - unfold coerceLike. simpl typeof. simpl type_tag_eqb. simpl is_null. cbv iota.
    destruct (jstring_eqb (toLowerCase (trim s)) (js "null")) eqn:E.
    + apply jstring_eqb_eq in E. split; [split; auto | intros Hc; contradiction].
    + assert (Hne : toLowerCase (trim s) <> js "null").
      { intros H. apply jstring_eqb_eq in H. congruence. }
      split; [split; [discriminate | contradiction] | reflexivity].
  - intros orig Hn Hb Hnull. unfold coerceLike.
    destruct orig as [| | | | | |[c|c n]]; simpl in *; try reflexivity; contradiction.
  - split; reflexivity.
Qed.

Lemma type_preserving_coercion_witness :
  toLowerCase (trim (js " TRUE ")) = js "true"
  /\ coerceLike (VBool false) (js " TRUE ") = VBool true
  /\ toLowerCase (trim (js "maybe")) <> js "null"
  /\ coerceLike VNull (js "maybe") = VString (js "maybe")
  /\ coerceLike (VString (js "old")) (js "new") = VString (js "new").
Proof.
  split; [reflexivity|]. split.
  { apply (proj1 (proj1 (proj2 (type_preserving_coercion (js " TRUE "))) false)).
    reflexivity. }
  assert (Hne : toLowerCase (trim (js "maybe")) <> js "null")
    by (vm_compute; discriminate).
  split; [exact Hne|]. split.
  { apply (proj2 (proj1 (proj2 (proj2 (type_preserving_coercion (js "maybe")))))).
    exact Hne. }
  apply (proj1 (proj2 (proj2 (proj2 (type_preserving_coercion (js "new")))))
           (VString (js "old")));
    vm_compute; discriminate.
Defined.

(** C10 -- Numeric coercion of an empty draft.  For a number of any
    value, a draft that is empty or made of white space only is coerced
    to the number 0: it parses as zero, so the original is not kept. *)
Theorem blank_draft_coerces_to_zero (x : number) (s : jstring) :
  blank s = true ->
  coerceLike (VNumber x) s = VNumber (of_Z 0).
Proof.
  intros H. unfold coerceLike, StringToNumber. simpl typeof. simpl type_tag_eqb.
  cbv iota. rewrite trim_blank by exact H. reflexivity.
Qed.

Lemma blank_draft_coerces_to_zero_witness :
  blank (js "   ") = true
  /\ coerceLike (VNumber (of_Z 42)) (js "   ") = VNumber (of_Z 0)
  /\ blank (js "") = true
  /\ coerceLike (VNumber (of_Z 42)) (js "") = VNumber (of_Z 0).
Proof.
  split; [reflexivity|].
  split; [apply (blank_draft_coerces_to_zero (of_Z 42) (js "   ")); reflexivity|].
  split; [reflexivity|].
  apply (blank_draft_coerces_to_zero (of_Z 42) (js "")); reflexivity.
Defined.


Lemma key_of_string_name k s : key_of_string k = KName s -> s = k.
Proof.
  unfold key_of_string. destruct (span_digits 10 k) as [[|d ds] [|c r]];
    try (intros [= <-]; reflexivity).
  destruct (negb (d =? 0) || _); [discriminate | intros [= <-]; reflexivity].
Qed.

Lemma not_read_only_key k :
  is_read_only k = false -> key_of_string k <> KName (js "color").
Proof.
  unfold is_read_only, READ_ONLY_KEYS. simpl existsb. rewrite orb_false_r.
  intros H E. apply key_of_string_name in E. subst k.
  vm_compute in H. discriminate H.
Qed.

(** C9 -- Read-only field preserved.  A save of a map node that holds the
    key color returns, and commits for the path of the session an object
    whose colour is the value the node had, whatever the drafts hold. *)
Theorem read_only_field_preserved (h : heap) (st : session) :
  isObjectNode h (currentNodeValue st) = true ->
  has_own h (currentNodeValue st) (KName (js "color")) = true ->
  exists h' c st',
    onSave h st = Normal (h', c, st')
    /\ commit_path c = path st
    /\ get_own h' (commit_value c) (KName (js "color"))
       = get_own h (currentNodeValue st) (KName (js "color")).
Proof.
  intros Hobj Hhas. unfold onSave. rewrite Hobj.
  destruct (isObjectNode_object _ _ Hobj) as [Hnn Hnf].
  destruct (currentNodeValue st) as [| | | | |a|i] eqn:Hcur; try discriminate Hhas.
  simpl truthy. simpl typeof. simpl type_tag_eqb. simpl andb. cbv iota.
  unfold alloc.
  destruct (apply_drafts_map (VRef a) (length h) (fieldDrafts st)
              (h ++ [Obj (own_entries h (VRef a))]) _ Hnn Hnf
              (lookup_alloc_new _ _) eq_refl)
    as (h' & o' & Hd & Hn & _ & _ & _ & Hc).
  rewrite Hd, bind_normal.
  eexists _, _, _. split; [reflexivity|]. split; [reflexivity|].
  simpl commit_value. rewrite (get_own_ref _ _ _ _ Hn), Hc.
  - unfold isObjectNode, isArray in Hobj. simpl in Hobj, Hhas |- *.
    destruct (h !! a) as [[ps|es ps|ps]|]; [reflexivity | discriminate | reflexivity | discriminate].
  - intros d Hd'. destruct (is_read_only (fst d)) eqn:Hro; [left; reflexivity|].
    right. apply not_read_only_key. exact Hro.
Qed.

Lemma read_only_field_preserved_witness :
  isObjectNode coloured (currentNodeValue coloured_session) = true
  /\ has_own coloured (currentNodeValue coloured_session) (KName (js "color")) = true
  /\ exists h' c st',
       onSave coloured coloured_session = Normal (h', c, st')
       /\ commit_path c = path coloured_session
       /\ get_own h' (commit_value c) (KName (js "color"))
          = get_own coloured (currentNodeValue coloured_session) (KName (js "color")).
Proof.
  split; [reflexivity|]. split; [reflexivity|].
  apply (read_only_field_preserved coloured coloured_session); reflexivity.
Defined.

End EditorClaims.

(* ===================================================================== *)
(** * More of the path primitives                                        *)
(* ===================================================================== *)

Module PathMore.
Import JS Heap PathOps Notions Sample.
Import ObjectFacts HeapFacts ClosedFacts BuildFacts LevelFacts CloneFacts.

(** X1 -- The input is left as it was.  An update along a plain path
    returns; and after an update that has returned, along whatever path,
    every path read from the old root gives what it gave before the
    update. *)
Theorem update_leaves_input_readable (h : heap) (D : value) (P : Path) (v : value) :
  heap_closed h = true ->
  value_closed (length h) D = true ->
  (plain h D P = true ->
   exists h' r, updateValueAtPath h D (PathArray P) v = Normal (h', r))
  /\ (forall h' r,
        updateValueAtPath h D (PathArray P) v = Normal (h', r) ->
        forall Q, getValueAtPath h' D Q = getValueAtPath h D Q).
Proof.
  intros Hc HD. split.
  - intros Hpl. destruct P as [|k rest]; [eexists _, _; reflexivity|].
    destruct (update_read h Hc v D k rest HD Hpl) as (h' & Hu & _).
    eexists _, _. exact Hu.
  - intros h' r Hu Q. destruct (update_writes _ _ _ _ _ _ Hu) as [_ Hfr].
    apply agree_getValueAtPath; assumption.
Qed.

Lemma update_leaves_input_readable_witness :
  heap_closed nested = true
  /\ value_closed (length nested) nested_root = true
  /\ plain nested nested_root [Key (js "a"); Key (js "b")] = true
  /\ exists h' r,
       updateValueAtPath nested nested_root (PathArray [Key (js "a"); Key (js "b")]) two
         = Normal (h', r)
       /\ getValueAtPath h' nested_root [Key (js "a"); Key (js "b")]
          = getValueAtPath nested nested_root [Key (js "a"); Key (js "b")].
Proof.
  split; [reflexivity|]. split; [reflexivity|]. split; [reflexivity|].
  destruct (update_leaves_input_readable nested nested_root
              [Key (js "a"); Key (js "b")] two eq_refl eq_refl) as [Hex Hfr].
  destruct (Hex eq_refl) as (h' & r & Hu).
  exists h', r. split; [exact Hu|]. apply (Hfr h' r Hu).
Defined.

(** X2 -- Reading below the written position.  After an update along a
    plain path, a path that goes through the updated position and on
    reads, from the result, what the rest of the path reads from the new
    value. *)
Theorem read_below_written (h : heap) (D : value) (P Q : Path) (v : value) :
  heap_closed h = true ->
  value_closed (length h) D = true ->
  value_closed (length h) v = true ->
  (1 <= length P)%nat ->
  plain h D P = true ->
  exists h' r,
    updateValueAtPath h D (PathArray P) v = Normal (h', r)
    /\ getValueAtPath h' r (P ++ Q) = getValueAtPath h v Q.
Proof.
  intros Hc HD Hv Hlen Hpl. destruct P as [|k rest]; [simpl in Hlen; lia|].
  destruct (update_read h Hc v D k rest HD Hpl) as (h' & Hu & _ & Hag & Hr).
  exists h', (VRef (length h)). split; [exact Hu|].
  rewrite getValueAtPath_bind, Hr, bind_normal.
  apply agree_getValueAtPath; assumption.
Qed.

Lemma read_below_written_witness :
  heap_closed nested = true
  /\ value_closed (length nested) nested_root = true
  /\ value_closed (length nested) (VRef 0) = true
  /\ (1 <= length [Key (js "copy")])%nat
  /\ plain nested nested_root [Key (js "copy")] = true
  /\ exists h' r,
       updateValueAtPath nested nested_root (PathArray [Key (js "copy")]) (VRef 0)
         = Normal (h', r)
       /\ getValueAtPath h' r ([Key (js "copy")] ++ [Key (js "c")])
          = getValueAtPath nested (VRef 0) [Key (js "c")].
Proof.
  split; [reflexivity|]. split; [reflexivity|]. split; [reflexivity|].
  split; [simpl; lia|]. split; [reflexivity|].
  apply (read_below_written nested nested_root [Key (js "copy")] [Key (js "c")] (VRef 0));
    first [reflexivity | simpl; lia].
Defined.

(** X3 -- Paths compose.  Reading along a path and then along a second
    one is reading along the two joined, whether the reads return, throw
    or end on a missing node. *)
Theorem getValueAtPath_app (h : heap) (D : value) (P Q : Path) :
  getValueAtPath h D (P ++ Q)
  = (node ← getValueAtPath h D P; getValueAtPath h node Q).
Proof.
  revert D. induction P as [|seg P IH]; intros D; [reflexivity|].
  simpl. destruct (nullish D).
  - simpl. destruct Q; reflexivity.
  - destruct (get_member h D (to_key seg)) as [x| |]; simpl;
      [apply IH | reflexivity | reflexivity].
Qed.

(** A node with one entry made reads, under every other key, as the node
    it was made from; but for the length of an array, which an entry past
    its end moves. *)
Lemma lookup_member_set_ne (h h' : heap) a b o k x k' :
  h !! a = Some o ->
  h' !! b = Some (object_set o k x) ->
  k <> k' ->
  is_array o && is_name "length" k' = false ->
  lookup_member h' (VRef b) k' = lookup_member h (VRef a) k'.
Proof.
  intros Ha Hb Hne Hlen. unfold lookup_member.
  assert (E : forall (g : heap) c o', g !! c = Some o' -> is_array o' = is_array o ->
            (if is_name "length" k' then own_length g (VRef c) else None) = None).
  { intros g c o' Hg Ho'. destruct (is_name "length" k'); [|reflexivity].
    rewrite andb_true_r in Hlen. simpl. rewrite Hg.
    destruct o'; try reflexivity. simpl in Ho'. congruence. }
  rewrite (E h' b _ Hb (is_array_set _ _ _)), (E h a _ Ha eq_refl).
  simpl has_own. simpl get_own. simpl class_of. rewrite Ha, Hb.
  rewrite object_get_set_ne by exact Hne.
  destruct o as [ps|es ps|ps]; simpl.
  - rewrite props_get_set_ne by exact Hne. reflexivity.
  - destruct (array_index k) as [i|] eqn:Ei; simpl;
      destruct (array_index k') as [j|] eqn:Ej; try reflexivity.
    + assert (Hin : inherited ArrayC k' = VUndefined).
      { destruct k' as [n|s]; [reflexivity | discriminate]. }
      rewrite Hin.
      destruct (Nat.ltb_spec j (length es)) as [Hj|Hj].
      * assert (Hj' : (j <? length (elems_set es i x))%nat = true).
        { apply Nat.ltb_lt. unfold elems_set.
          destruct (i <? length es)%nat;
            [rewrite length_insert | rewrite length_app]; lia. }
        rewrite Hj'. reflexivity.
      * rewrite (lookup_ge_None_2 es j) by assumption.
        destruct (j <? length (elems_set es i x))%nat; reflexivity.
    + rewrite props_get_set_ne by exact Hne. reflexivity.
  - rewrite props_get_set_ne by exact Hne. reflexivity.
Qed.

(** The read of a path that leaves the path of an update at a container
    of the document. *)
Lemma other_paths (h : heap) (D : value) (P1 P2 Q : Path) (k k' : step) (v : value) :
  heap_closed h = true ->
  value_closed (length h) D = true ->
  plain h D (P1 ++ k :: P2) = true ->
  container h (reach h D P1) = true ->
  to_key k' <> to_key k ->
  isArray h (reach h D P1) && is_name "length" (to_key k') = false ->
  exists h' r,
    updateValueAtPath h D (PathArray (P1 ++ k :: P2)) v = Normal (h', r)
    /\ getValueAtPath h' r (P1 ++ k' :: Q) = getValueAtPath h D (P1 ++ k' :: Q).
Proof.
  intros Hc HD Hpl Hcont Hne Hlen.
  destruct (update_at h Hc v D P1 k P2 HD Hpl)
    as (h' & Hu & Hold & b & x & Hb & Hbge & Hobj & _).
  exists h', (VRef (length h)). split; [exact Hu|].
  destruct (clone_at_container h D P1 Hcont) as (a & o & Hr & Ha & Hclone).
  rewrite Hclone in Hobj.
  assert (Hsrc : getValueAtPath h D P1 = Normal (VRef a)).
  { rewrite <- Hr. apply getValueAtPath_reach. apply plain_avoids_functions.
    apply (plain_app h P1 (k :: P2) D Hpl). }
  rewrite !getValueAtPath_bind, Hb, Hsrc, !bind_normal.
  cbn [getValueAtPath nullish]. unfold get_member.
  rewrite Hr, (isArray_ref _ _ _ Ha) in Hlen.
  rewrite (lookup_member_set_ne h h' a b o (to_key k) x (to_key k') Ha Hobj)
    by (try congruence; exact Hlen).
  rewrite !bind_normal.
  apply agree_getValueAtPath; [exact Hc | apply lookup_agree_of_keep; exact Hold |].
  apply lookup_member_closed. exact Hc.
Qed.


(** X4 -- Other paths are not disturbed.  Where the plain path of an
    update and a second path part ways at a container of the document,
    and the second path does not go on by the length of an array, the
    second path reads from the result what it read from the input. *)
Theorem update_leaves_other_paths (h : heap) (D : value) (P1 P2 Q : Path)
    (k k' : step) (v : value) :
  heap_closed h = true ->
  value_closed (length h) D = true ->
  plain h D (P1 ++ k :: P2) = true ->
  container h (reach h D P1) = true ->
  to_key k' <> to_key k ->
  isArray h (reach h D P1) && is_name "length" (to_key k') = false ->
  exists h' r,
    updateValueAtPath h D (PathArray (P1 ++ k :: P2)) v = Normal (h', r)
    /\ getValueAtPath h' r (P1 ++ k' :: Q) = getValueAtPath h D (P1 ++ k' :: Q).
Proof. apply other_paths. Qed.

Lemma update_leaves_other_paths_witness :
  heap_closed nested = true
  /\ value_closed (length nested) nested_root = true
  /\ plain nested nested_root ([Key (js "a")] ++ Key (js "b") :: []) = true
  /\ container nested (reach nested nested_root [Key (js "a")]) = true
  /\ to_key (Key (js "c")) <> to_key (Key (js "b"))
  /\ isArray nested (reach nested nested_root [Key (js "a")])
     && is_name "length" (to_key (Key (js "c"))) = false
  /\ exists h' r,
       updateValueAtPath nested nested_root
         (PathArray ([Key (js "a")] ++ Key (js "b") :: [])) two = Normal (h', r)
       /\ getValueAtPath h' r ([Key (js "a")] ++ Key (js "c") :: [])
          = getValueAtPath nested nested_root ([Key (js "a")] ++ Key (js "c") :: []).
Proof.
  assert (Hne : to_key (Key (js "c")) <> to_key (Key (js "b")))
    by (vm_compute; discriminate).
  split; [reflexivity|]. split; [reflexivity|]. split; [reflexivity|].
  split; [reflexivity|]. split; [exact Hne|]. split; [reflexivity|].
  apply (update_leaves_other_paths nested nested_root [Key (js "a")] [] []
           (Key (js "b")) (Key (js "c")) two);
    first [reflexivity | exact Hne].
Defined.

End PathMore.

(* ===================================================================== *)
(** * Updates in a row                                                   *)
(* ===================================================================== *)

Module ChainFacts.
Import JS Heap PathOps Notions Sample.
Import ObjectFacts HeapFacts ClosedFacts BuildFacts LevelFacts CloneFacts PathMore.

Lemma heap_closed_iff (h : heap) :
  heap_closed h = true <->
  forall a o, h !! a = Some o -> object_closed (length h) o = true.
Proof.
  unfold heap_closed. rewrite forallb_forall. split.
  - intros H a o Ha. apply H. apply list_elem_of_In.
    eapply list_elem_of_lookup_2. exact Ha.
  - intros H o Ho. apply list_elem_of_In, list_elem_of_lookup in Ho.
    destruct Ho as [a Ha]. eapply H. exact Ha.
Qed.

Lemma heap_closed_insert (h : heap) a o :
  heap_closed h = true -> object_closed (length h) o = true ->
  heap_closed (<[a := o]> h) = true.
Proof.
  rewrite !heap_closed_iff, length_insert. intros Hh Ho b ob Hb.
  destruct (decide (a = b)) as [->|Hne].
  - destruct (Nat.lt_ge_cases b (length h)) as [Hlt|Hge].
    + rewrite list_lookup_insert_eq in Hb by exact Hlt. congruence.
    + rewrite list_insert_ge in Hb by exact Hge. eapply Hh. exact Hb.
  - rewrite list_lookup_insert_ne in Hb by exact Hne. eapply Hh. exact Hb.
Qed.

Lemma props_set_closed n ps k v :
  props_closed n ps = true -> value_closed n v = true ->
  props_closed n (props_set ps k v) = true.
Proof.
  unfold props_closed. intros Hps Hv.
  induction ps as [|[k' v'] ps IH]; simpl in *.
  - rewrite Hv. reflexivity.
  - apply andb_true_iff in Hps as [Hv' Hps]. destruct (key_eqb k' k); simpl.
    + rewrite Hv, Hps. reflexivity.
    + rewrite Hv', IH by exact Hps. reflexivity.
Qed.

Lemma elems_set_closed n es i v :
  forallb (value_closed n) es = true -> value_closed n v = true ->
  forallb (value_closed n) (elems_set es i v) = true.
Proof.
  intros Hes Hv. rewrite forallb_forall in *. intros x Hx.
  apply list_elem_of_In in Hx. unfold elems_set in Hx.
  destruct (i <? length es)%nat.
  - apply list_elem_of_lookup in Hx as [j Hj].
    destruct (decide (i = j)) as [->|Hne].
    + destruct (Nat.lt_ge_cases j (length es)) as [Hlt|Hge].
      * rewrite list_lookup_insert_eq in Hj by exact Hlt. congruence.
      * rewrite list_insert_ge in Hj by exact Hge.
        apply Hes, list_elem_of_In. eapply list_elem_of_lookup_2. exact Hj.
    + rewrite list_lookup_insert_ne in Hj by exact Hne.
      apply Hes, list_elem_of_In. eapply list_elem_of_lookup_2. exact Hj.
  - rewrite !elem_of_app in Hx. destruct Hx as [Hx|[Hx|Hx]].
    + apply Hes, list_elem_of_In. exact Hx.
    + apply elem_of_replicate in Hx as [-> _]. reflexivity.
    + apply list_elem_of_singleton in Hx. subst x. exact Hv.
Qed.

Lemma object_set_closed n o k v :
  object_closed n o = true -> value_closed n v = true ->
  object_closed n (object_set o k v) = true.
Proof.
  destruct o as [ps|es ps|ps]; simpl.
  - apply props_set_closed.
  - intros [Hes Hps]%andb_true_iff Hv. destruct (array_index k); simpl.
    + rewrite elems_set_closed, Hps by assumption. reflexivity.
    + rewrite Hes, props_set_closed by assumption. reflexivity.
  - apply props_set_closed.
Qed.

Lemma resize_closed n es m :
  forallb (value_closed n) es = true ->
  forallb (value_closed n) (resize es m) = true.
Proof.
  intros Hes. rewrite forallb_forall in *. intros x Hx.
  apply list_elem_of_In in Hx. unfold resize in Hx.
  destruct (m <=? length es)%nat.
  - apply elem_of_take in Hx as (i & Hi & _).
    apply Hes, list_elem_of_In. eapply list_elem_of_lookup_2. exact Hi.
  - rewrite elem_of_app in Hx. destruct Hx as [Hx|Hx].
    + apply Hes, list_elem_of_In. exact Hx.
    + apply elem_of_replicate in Hx as [-> _]. reflexivity.
Qed.

(** An assignment of a closed value keeps an object closed. *)
Lemma object_assign_closed n h o k x o' :
  object_closed n o = true -> value_closed n x = true ->
  object_assign h o k x = Normal o' ->
  object_closed n o' = true.
Proof.
  intros Ho Hx. pose proof (object_set_closed n o k x Ho Hx) as Hset.
  assert (Hproto : forall o1, set_prototype o x = Normal o1 -> object_closed n o1 = true).
  { intros o1. unfold set_prototype.
    destruct x as [| | | | | |i]; try discriminate; try (intros [= <-]; exact Ho).
    destruct o as [ps|es ps|ps]; try discriminate. intros [= <-]. exact Ho. }
  destruct o as [ps|es ps|ps]; unfold object_assign.
  - destruct (_ && _); [apply Hproto | intros [= <-]; exact Hset].
  - destruct (array_index k) eqn:Ei; [intros [= <-]; exact Hset|].
    destruct (is_name "length" k).
    + unfold array_set_length. destruct (to_number h x) as [y| |]; try discriminate.
      rewrite bind_normal. destruct (to_uint32 y) as [len|]; [|discriminate].
      intros [= <-]. simpl in Ho |- *. apply andb_true_iff in Ho as [Hes Hps].
      rewrite resize_closed, Hps by exact Hes. reflexivity.
    + destruct (_ && _); [apply Hproto | intros [= <-]; exact Hset].
  - intros [= <-]. exact Hset.
Qed.

Lemma set_member_closed h v k x h' :
  heap_closed h = true -> value_closed (length h) x = true ->
  set_member h v k x = Normal h' ->
  heap_closed h' = true.
Proof.
  intros Hc Hx. destruct v as [| | | | |a|i]; try discriminate. simpl.
  destruct (h !! a) as [o|] eqn:Ha; [|discriminate].
  destruct (object_assign h o k x) as [o'| |] eqn:Ho; try discriminate.
  rewrite bind_normal. intros [= <-]. apply heap_closed_insert; [exact Hc|].
  eapply object_assign_closed; [|exact Hx|exact Ho].
  eapply heap_closed_lookup; eassumption.
Qed.

Lemma string_entries_closed n s : forall i, props_closed n (string_entries i s) = true.
Proof. induction s as [|c s IH]; intros i; simpl; [reflexivity | apply IH]. Qed.

Lemma elems_entries_closed n es : forall i,
  forallb (value_closed n) es = true -> props_closed n (elems_entries i es) = true.
Proof.
  unfold props_closed. induction es as [|v es IH]; intros i; simpl; [reflexivity|].
  intros [Hv Hes]%andb_true_iff. rewrite Hv. simpl. apply IH. exact Hes.
Qed.

Lemma own_entries_closed h v :
  heap_closed h = true -> props_closed (length h) (own_entries h v) = true.
Proof.
  intros Hc. destruct v as [| | | | s | a | i]; simpl; try reflexivity.
  - apply string_entries_closed.
  - destruct (h !! a) as [[ps|es ps|ps]|] eqn:Ha; [| | |reflexivity];
      pose proof (heap_closed_lookup h a _ Hc Ha) as Ho; simpl in Ho.
    + exact Ho.
    + apply andb_true_iff in Ho as [Hes Hps]. unfold props_closed in *.
      rewrite forallb_app. fold (props_closed (length h) (elems_entries 0 es)).
      rewrite elems_entries_closed by exact Hes. exact Hps.
    + exact Ho.
Qed.

Lemma spread_elems_closed h v :
  heap_closed h = true -> forallb (value_closed (length h)) (spread_elems h v) = true.
Proof.
  intros Hc. destruct v as [| | | | s | a | i]; simpl; try reflexivity.
  destruct (h !! a) as [[ps|es ps|ps]|] eqn:Ha; try reflexivity.
  pose proof (heap_closed_lookup h a _ Hc Ha) as Ho. simpl in Ho.
  apply andb_true_iff in Ho as [Hes _]. exact Hes.
Qed.

Lemma clone_closed h src o :
  heap_closed h = true -> clone_of h src o -> object_closed (length h) o = true.
Proof.
  intros Hc [-> | ->]; unfold root_clone, child_clone;
    repeat match goal with |- context [if ?c then _ else _] => destruct c end;
    simpl; rewrite ?andb_true_r;
    first [reflexivity | apply spread_elems_closed; exact Hc
          | apply own_entries_closed; exact Hc].
Qed.

(** The loop keeps a closed heap closed. *)
Lemma descend_closed next : forall p h cur src h',
  heap_closed h = true ->
  value_closed (length h) next = true ->
  descend h cur src p next = Normal h' ->
  heap_closed h' = true.
Proof.
  induction p as [|k rest IH]; intros h cur src h' Hc Hnext Hd.
  - injection Hd as <-. exact Hc.
  - destruct rest as [|k' rest].
    + change (set_member h cur (to_key k) next = Normal h') in Hd.
      eapply set_member_closed; eassumption.
    + rewrite descend_cons in Hd by discriminate.
      destruct (get_member_opt h src (to_key k)) as [childSrc| |]; try discriminate.
      rewrite bind_normal in Hd. unfold alloc in Hd.
      set (h1 := h ++ [child_clone h childSrc]) in *.
      destruct (set_member h1 cur (to_key k) (VRef (length h))) as [h2| |] eqn:Hs;
        try discriminate.
      rewrite bind_normal in Hd.
      assert (Hl1 : length h1 = S (length h)).
      { unfold h1. rewrite length_app. simpl. lia. }
      assert (Hc1 : heap_closed h1 = true).
      { apply heap_closed_alloc; [exact Hc|].
        apply (object_closed_mono (length h)); [lia|].
        apply (clone_closed h childSrc); [exact Hc | right; reflexivity]. }
      assert (Hc2 : heap_closed h2 = true).
      { eapply set_member_closed; [exact Hc1 | | exact Hs].
        simpl. apply Nat.ltb_lt. lia. }
      destruct (set_member_frame _ _ _ _ _ Hs) as (a & o & o' & _ & _ & E).
      eapply IH; [exact Hc2 | | exact Hd].
      apply (value_closed_mono (length h)); [|exact Hnext].
      rewrite E, length_insert. lia.
Qed.

(** An update that returns on a closed heap gives a closed heap and a
    root in it. *)
Lemma update_closed h D P v h' r :
  heap_closed h = true ->
  value_closed (length h) v = true ->
  updateValueAtPath h D (PathArray P) v = Normal (h', r) ->
  heap_closed h' = true /\ value_closed (length h') r = true.
Proof.
  intros Hc Hv Hu. destruct (update_writes _ _ _ _ _ _ Hu) as [Hlen _].
  destruct P as [|k rest].
  - injection Hu as <- <-. auto.
  - unfold updateValueAtPath, alloc in Hu.
    set (h1 := h ++ [root_clone h D]) in *.
    destruct (descend h1 (VRef (length h)) D (k :: rest) v) as [h2| |] eqn:Hd;
      try discriminate.
    injection Hu as <- <-.
    assert (Hl1 : length h1 = S (length h)).
    { unfold h1. rewrite length_app. simpl. lia. }
    destruct (descend_writes _ _ _ _ _ _ Hd) as [Hlen2 _].
    split.
    + eapply descend_closed; [| |exact Hd].
      * apply heap_closed_alloc; [exact Hc|].
        apply (object_closed_mono (length h)); [lia|].
        apply (clone_closed h D); [exact Hc | left; reflexivity].
      * apply (value_closed_mono (length h)); [lia | exact Hv].
    + simpl. apply Nat.ltb_lt. lia.
Qed.

(** What [getValueAtPath] returns is the node the path reaches. *)
Lemma getValueAtPath_is_reach h p : forall cur x,
  getValueAtPath h cur p = Normal x -> reach h cur p = x.
Proof.
  induction p as [|seg p IH]; intros cur x.
  - intros [= ->]. reflexivity.
  - cbn [getValueAtPath reach]. destruct (nullish cur) eqn:Hn.
    + intros [= <-]. rewrite read_opt_nullish by exact Hn. apply reach_undefined.
    + destruct (get_member h cur (to_key seg)) as [y| |] eqn:Hy; try discriminate.
      rewrite bind_normal. intros H.
      assert (E : read_opt h cur (to_key seg) = y).
      { unfold read_opt, get_member_opt. rewrite Hn, Hy. reflexivity. }
      rewrite E. apply IH. exact H.
Qed.

Lemma agree_plain (h h' : heap) p : forall v,
  heap_closed h = true ->
  (forall b, (b < length h)%nat -> h' !! b = h !! b) ->
  value_closed (length h) v = true ->
  plain h' v p = plain h v p.
Proof.
  induction p as [|k p IH]; intros v Hc Hag Hv; [reflexivity|].
  cbn [plain].
  rewrite (agree_isArray (length h) h h' Hag v Hv),
    (agree_read_opt (length h) h h' Hag v _ Hv).
  rewrite IH; [reflexivity | exact Hc | exact Hag | apply read_opt_closed; exact Hc].
Qed.

Lemma plain_join h p q : forall v,
  plain h v p = true -> plain h (reach h v p) q = true -> plain h v (p ++ q) = true.
Proof.
  induction p as [|k p IH]; intros v; [intros _ H; exact H|].
  simpl app. cbn [plain reach]. intros [Hk Hp]%andb_true_iff Hq.
  rewrite Hk. apply IH; assumption.
Qed.

Lemma clone_at_is_array h D A :
  is_array (clone_at h (root_clone h D) D A) = isArray h (reach h D A).
Proof.
  destruct A as [|k A]; [apply root_clone_is_array | apply child_clone_is_array].
Qed.

(** The node of a result at a position of the path. *)
Lemma result_node h D A k B v h' r :
  heap_closed h = true ->
  value_closed (length h) D = true ->
  plain h D (A ++ k :: B) = true ->
  updateValueAtPath h D (PathArray (A ++ k :: B)) v = Normal (h', r) ->
  r = VRef (length h)
  /\ (forall a o, h !! a = Some o -> h' !! a = Some o)
  /\ exists b x,
       reach h' r A = VRef b
       /\ h' !! b = Some (object_set (clone_at h (root_clone h D) D A) (to_key k) x).
Proof.
  intros Hc HD Hpl Hu.
  destruct (update_at h Hc v D A k B HD Hpl)
    as (h2 & Hu2 & Hold & b & x & Hb & _ & Hobj & _).
  rewrite Hu in Hu2. injection Hu2 as <- ->.
  split; [reflexivity|]. split; [exact Hold|].
  exists b, x. split; [|exact Hobj]. apply getValueAtPath_is_reach. exact Hb.
Qed.

(** The path of an update is plain in its result, up to any of its
    positions. *)
Lemma result_plain h D P v h' r :
  heap_closed h = true ->
  value_closed (length h) D = true ->
  plain h D P = true ->
  updateValueAtPath h D (PathArray P) v = Normal (h', r) ->
  forall A B, P = A ++ B -> B <> [] -> plain h' r A = true.
Proof.
  intros Hc HD Hpl Hu A. induction A as [|k1 A IH] using rev_ind; intros B HP HB.
  - reflexivity.
  - rewrite <- app_assoc in HP. simpl in HP.
    apply plain_join; [apply (IH (k1 :: B) HP); discriminate|].
    destruct B as [|k B]; [congruence|]. subst P.
    destruct (result_node h D A k1 (k :: B) v h' r Hc HD Hpl Hu)
      as (-> & _ & b & x & Hb & Hobj).
    rewrite Hb. cbn [plain]. rewrite andb_true_r.
    rewrite (isArray_ref _ _ _ Hobj), is_array_set, clone_at_is_array.
    destruct (plain_app h A _ D Hpl) as [_ Hk]. cbn [plain] in Hk.
    apply andb_true_iff in Hk as [Hk _]. apply andb_true_iff in Hk as [_ Hk].
    simpl. exact Hk.
Qed.

(** X5 -- Two edits, one after the other.  When two plain paths part
    ways at a container of the document -- a map, or an array from which
    the first path goes on by an index -- updating along the first and
    then, in the result, along the second gives a document in which both
    paths read the value written along them. *)
Theorem two_updates_both_readable (h : heap) (D : value) (P1 P2 Q2 : Path)
    (kp kq : step) (v w : value) :
  heap_closed h = true ->
  value_closed (length h) D = true ->
  value_closed (length h) v = true ->
  plain h D (P1 ++ kp :: P2) = true ->
  plain h D (P1 ++ kq :: Q2) = true ->
  container h (reach h D P1) = true ->
  to_key kp <> to_key kq ->
  isArray h (reach h D P1) = false \/ array_index (to_key kp) <> None ->
  exists h1 r1 h2 r2,
    updateValueAtPath h D (PathArray (P1 ++ kp :: P2)) v = Normal (h1, r1)
    /\ updateValueAtPath h1 r1 (PathArray (P1 ++ kq :: Q2)) w = Normal (h2, r2)
    /\ getValueAtPath h2 r2 (P1 ++ kp :: P2) = Normal v
    /\ getValueAtPath h2 r2 (P1 ++ kq :: Q2) = Normal w.
Proof.
  intros Hc HD Hv Hplp Hplq Hcont Hne Hshape.
  assert (Hpath : forall k R, exists k0 rest, P1 ++ k :: R = k0 :: rest).
  { intros k R. destruct P1 as [|k0 P1]; simpl; eauto. }
  (* the first update *)
  destruct (Hpath kp P2) as (k0 & rest & Ep).
  destruct (update_read h Hc v D k0 rest HD ltac:(rewrite <- Ep; exact Hplp))
    as (h1 & Hu1 & Hlt1 & Hag1 & Hread1).
  rewrite <- Ep in Hu1, Hread1. clear k0 rest Ep.
  destruct (update_closed _ _ _ _ _ _ Hc Hv Hu1) as [Hc1 Hr1].
  destruct (result_node h D P1 kp P2 v h1 _ Hc HD Hplp Hu1)
    as (_ & Hold & b & x & Hb & Hobj).
  destruct (clone_at_container h D P1 Hcont) as (a & o & Hr & Ha & Hclone).
  rewrite Hclone in Hobj.
  destruct (plain_app h P1 _ D Hplp) as [_ Hkp]. cbn [plain] in Hkp.
  apply andb_true_iff in Hkp as [Hkp _]. apply andb_true_iff in Hkp as [_ Hkp].
  destruct (plain_app h P1 _ D Hplq) as [_ Hkq]. cbn [plain] in Hkq.
  apply andb_true_iff in Hkq as [Hkq Hq2]. apply andb_true_iff in Hkq as [_ Hkq].
  rewrite Hr, (isArray_ref _ _ _ Ha) in Hkp, Hkq, Hshape.
  assert (Hlenq : is_array o && is_name "length" (to_key kq) = false).
  { unfold entry_key in Hkq. apply andb_true_iff in Hkq as [_ Hkq].
    apply negb_true_iff in Hkq. exact Hkq. }
  assert (Hlenp : is_array o && is_name "length" (to_key kp) = false).
  { unfold entry_key in Hkp. apply andb_true_iff in Hkp as [_ Hkp].
    apply negb_true_iff in Hkp. exact Hkp. }
  (* the second path is plain in the result of the first update *)
  assert (Hpl1 : plain h1 (VRef (length h)) (P1 ++ kq :: Q2) = true).
  { apply plain_join.
    - apply (result_plain h D _ v h1 _ Hc HD Hplp Hu1 P1 (kp :: P2) eq_refl).
      discriminate.
    - rewrite Hb. cbn [plain]. simpl negb.
      rewrite (isArray_ref _ _ _ Hobj), is_array_set, Hkq. simpl andb.
      assert (E : read_opt h1 (VRef b) (to_key kq) = read_opt h (VRef a) (to_key kq)).
      { unfold read_opt, get_member_opt, get_member. simpl nullish. cbv iota.
        rewrite (lookup_member_set_ne h h1 a b o (to_key kp) x (to_key kq) Ha Hobj Hne Hlenq).
        reflexivity. }
      rewrite E, <- Hr.
      rewrite (agree_plain h h1); [exact Hq2 | exact Hc | exact Hag1 |].
      apply read_opt_closed. exact Hc. }
  (* the node where the paths part is a container of the result *)
  assert (Hcont1 : container h1 (reach h1 (VRef (length h)) P1) = true).
  { rewrite Hb. simpl. rewrite Hobj. rewrite Hr in Hcont. simpl in Hcont.
    rewrite Ha in Hcont. destruct o as [ps|es ps|ps]; try discriminate; [reflexivity|].
    destruct ps; [|discriminate]. simpl.
    destruct (array_index (to_key kp)); [reflexivity|].
    destruct Hshape as [Hs|Hs]; [discriminate | contradiction]. }
  assert (Hlen1 : isArray h1 (reach h1 (VRef (length h)) P1)
                  && is_name "length" (to_key kp) = false).
  { rewrite Hb, (isArray_ref _ _ _ Hobj), is_array_set. exact Hlenp. }
  (* the second update *)
  destruct (other_paths h1 (VRef (length h)) P1 Q2 P2 kq kp w Hc1 Hr1 Hpl1 Hcont1 Hne Hlen1)
    as (h2 & r2 & Hu2 & Hkeep).
  exists h1, (VRef (length h)), h2, r2.
  split; [exact Hu1|]. split; [exact Hu2|]. split.
  - rewrite Hkeep. exact Hread1.
  - destruct (Hpath kq Q2) as (k0 & rest & Eq). rewrite Eq in Hu2, Hpl1 |- *.
    destruct (update_read h1 Hc1 w (VRef (length h)) k0 rest Hr1 Hpl1)
      as (h2' & Hu2' & _ & _ & Hread2).
    rewrite Hu2 in Hu2'. injection Hu2' as <- ->. exact Hread2.
Qed.

Lemma two_updates_both_readable_witness :
  heap_closed nested = true
  /\ value_closed (length nested) nested_root = true
  /\ value_closed (length nested) two = true
  /\ plain nested nested_root ([Key (js "a")] ++ Key (js "b") :: []) = true
  /\ plain nested nested_root ([Key (js "a")] ++ Key (js "c") :: []) = true
  /\ container nested (reach nested nested_root [Key (js "a")]) = true
  /\ to_key (Key (js "b")) <> to_key (Key (js "c"))
  /\ (isArray nested (reach nested nested_root [Key (js "a")]) = false
      \/ array_index (to_key (Key (js "b"))) <> None)
  /\ exists h1 r1 h2 r2,
       updateValueAtPath nested nested_root
         (PathArray ([Key (js "a")] ++ Key (js "b") :: [])) two = Normal (h1, r1)
       /\ updateValueAtPath h1 r1
            (PathArray ([Key (js "a")] ++ Key (js "c") :: [])) five = Normal (h2, r2)
       /\ getValueAtPath h2 r2 ([Key (js "a")] ++ Key (js "b") :: []) = Normal two
       /\ getValueAtPath h2 r2 ([Key (js "a")] ++ Key (js "c") :: []) = Normal five.
Proof.
  assert (Hne : to_key (Key (js "b")) <> to_key (Key (js "c")))
    by (vm_compute; discriminate).
  repeat (split; [first [reflexivity | exact Hne | left; reflexivity]|]).
  apply (two_updates_both_readable nested nested_root [Key (js "a")] [] []
           (Key (js "b")) (Key (js "c")) two five);
    first [reflexivity | exact Hne | left; reflexivity].
Defined.

(** X6 -- What an array carries beside its elements is not copied.  An
    entry written to an array under a name that is no index and no
    built-in member can be read back from the result, and is gone after
    the next update that goes through the array by an index. *)
Theorem named_entry_of_array_dropped (h : heap) (a : nat) (es : list value)
    (ps : props) (kn ki : step) (v w : value) :
  h !! a = Some (Arr es ps) ->
  array_index (to_key kn) = None ->
  builtin_name (to_key kn) = false ->
  array_index (to_key ki) <> None ->
  exists h1 r1 h2 r2,
    updateValueAtPath h (VRef a) (PathArray [kn]) v = Normal (h1, r1)
    /\ getValueAtPath h1 r1 [kn] = Normal v
    /\ updateValueAtPath h1 r1 (PathArray [ki]) w = Normal (h2, r2)
    /\ getValueAtPath h2 r2 [kn] = Normal VUndefined.
Proof.
  intros Ha Hkn Hb Hki.
  assert (Hroot : root_clone h (VRef a) = Arr es []).
  { unfold root_clone, isArray, spread_elems. rewrite Ha. reflexivity. }
  assert (Hu1 := update_one_step h (VRef a) kn v eq_refl
                   (builtin_name_entry_key _ _ Hb)).
  rewrite Hroot in Hu1. simpl object_set in Hu1. rewrite Hkn in Hu1.
  simpl props_set in Hu1.
  set (h1 := h ++ [Arr es [(to_key kn, v)]]) in *.
  assert (H1 : h1 !! length h = Some (Arr es [(to_key kn, v)]))
    by apply lookup_alloc_new.
  assert (Hroot1 : root_clone h1 (VRef (length h)) = Arr es []).
  { unfold root_clone, isArray, spread_elems. rewrite H1. reflexivity. }
  assert (Hki' : entry_key (isArray h1 (VRef (length h))) (to_key ki) = true).
  { unfold entry_key, is_name. destruct (to_key ki) as [n|s]; [|contradiction].
    rewrite andb_false_r. reflexivity. }
  assert (Hu2 := update_one_step h1 (VRef (length h)) ki w eq_refl Hki').
  rewrite Hroot1 in Hu2. simpl object_set in Hu2.
  destruct (array_index (to_key ki)) as [i|] eqn:Ei; [|contradiction].
  exists h1, (VRef (length h)), (h1 ++ [Arr (elems_set es i w) []]), (VRef (length h1)).
  split; [exact Hu1|]. split.
  { cbn [getValueAtPath nullish].
    rewrite (get_member_entry _ _ _ _ H1).
    - simpl. rewrite Hkn. simpl. rewrite key_eqb_refl. reflexivity.
    - simpl. rewrite Hkn. simpl. rewrite key_eqb_refl. reflexivity.
    - apply builtin_name_entry_key. exact Hb. }
  split; [exact Hu2|].
  cbn [getValueAtPath nullish].
  rewrite get_member_normal by reflexivity. rewrite bind_normal. f_equal.
  apply read_opt_absent; [reflexivity | | exact Hb].
  simpl. rewrite lookup_alloc_new. simpl. rewrite Hkn. reflexivity.
Qed.

Lemma named_entry_of_array_dropped_witness :
  single !! 0%nat = Some (Arr [one] [])
  /\ array_index (to_key (Key (js "tag"))) = None
  /\ builtin_name (to_key (Key (js "tag"))) = false
  /\ array_index (to_key (Index 0)) <> None
  /\ exists h1 r1 h2 r2,
       updateValueAtPath single single_root (PathArray [Key (js "tag")]) two
         = Normal (h1, r1)
       /\ getValueAtPath h1 r1 [Key (js "tag")] = Normal two
       /\ updateValueAtPath h1 r1 (PathArray [Index 0]) five = Normal (h2, r2)
       /\ getValueAtPath h2 r2 [Key (js "tag")] = Normal VUndefined.
Proof.
  assert (Hi : array_index (to_key (Index 0)) <> None) by (vm_compute; discriminate).
  repeat (split; [first [reflexivity | exact Hi]|]).
  apply (named_entry_of_array_dropped single 0 [one] [] (Key (js "tag"))
           (Index 0) two five);
    first [reflexivity | exact Hi].
Defined.

End ChainFacts.

(* ===================================================================== *)
(** * More of the store                                                  *)
(* ===================================================================== *)

Module StoreMore.
Import JS Heap PathOps UseJson Notions Sample.
Import HeapFacts ClosedFacts BuildFacts LevelFacts.

(** X7 -- The store and its collaborators stay in step.  Whenever
    [updateAtPath] returns, it has either changed nothing and called
    nobody, or cleared the loading flag and handed the text it has just
    stored to the graph store and then to the file store, the latter
    with skipUpdate set. *)
Theorem updateAtPath_keeps_in_step
    (stringify : heap -> value -> completion (option jstring))
    (s : JsonStates) (h : heap) (path : Path) (next : value)
    (s' : JsonStates) (calls : list call) :
  updateAtPath stringify s h path next = Normal (s', calls) ->
  (s' = s /\ calls = [])
  \/ (loading s' = false
      /\ calls = [setGraph (json s'); setContents (json s') true]).
Proof.
  unfold updateAtPath. destruct (JSON.parse (current_text s)) as [doc|e|].
  - destruct (JSON.build doc h) as [h1 obj].
    destruct (updateValueAtPath h1 obj (PathArray path) next) as [[h2 r]| |];
      try discriminate.
    rewrite bind_normal. destruct (stringify h2 r) as [[t|]| |]; try discriminate.
    rewrite bind_normal. intros [= <- <-]. right. split; reflexivity.
  - intros [= <- <-]. left. split; reflexivity.
  - discriminate.
Qed.

Lemma updateAtPath_keeps_in_step_witness :
  updateAtPath (constant_text (js "{}")) initialStates [] [Key (js "x")] one
  = Normal ({| json := js "{}"; loading := false |},
            [setGraph (js "{}"); setContents (js "{}") true])
  /\ ({| json := js "{}"; loading := false |} = initialStates
      /\ [setGraph (js "{}"); setContents (js "{}") true] = []
      \/ loading {| json := js "{}"; loading := false |} = false
         /\ [setGraph (js "{}"); setContents (js "{}") true]
            = [setGraph (json {| json := js "{}"; loading := false |});
               setContents (json {| json := js "{}"; loading := false |}) true]).
Proof.
  split; [reflexivity|].
  apply (updateAtPath_keeps_in_step (constant_text (js "{}")) initialStates []
           [Key (js "x")] one). reflexivity.
Defined.

(** X8 -- What a successful [updateAtPath] stores.  When the text of the
    store deserializes and the path, of one step or more, is plain in the
    document, the document handed to the serializer is one built by
    [updateValueAtPath] from the parsed one, in which reading the path
    gives the new value; the text the serializer returns is what is
    stored, and an exception of the serializer escapes. *)
Theorem updateAtPath_stores_update
    (stringify : heap -> value -> completion (option jstring))
    (s : JsonStates) (h : heap) (path : Path) (next : value) (doc : JSON.json) :
  JSON.parse (current_text s) = Normal doc ->
  heap_closed h = true ->
  (1 <= length path)%nat ->
  plain (fst (JSON.build doc h)) (snd (JSON.build doc h)) path = true ->
  exists h2 r,
    updateValueAtPath (fst (JSON.build doc h)) (snd (JSON.build doc h))
      (PathArray path) next = Normal (h2, r)
    /\ getValueAtPath h2 r path = Normal next
    /\ (forall t, stringify h2 r = Normal (Some t) ->
          updateAtPath stringify s h path next = Normal (setJson s t))
    /\ (forall e, stringify h2 r = Throw e ->
          updateAtPath stringify s h path next = Throw e).
Proof.
  intros Hparse Hc Hlen Hpl. unfold updateAtPath. rewrite Hparse.
  destruct (build_closed doc h Hc) as (Hc1 & Hr1 & _).
  destruct (JSON.build doc h) as [h1 obj]. cbn [fst snd] in *.
  destruct path as [|k rest]; [simpl in Hlen; lia|].
  destruct (update_read h1 Hc1 next obj k rest Hr1 Hpl) as (h2 & Hu & _ & _ & Hr).
  exists h2, (VRef (length h1)). rewrite Hu. split; [reflexivity|].
  split; [exact Hr|]. split.
  - intros t Ht. rewrite bind_normal, Ht. reflexivity.
  - intros e He. rewrite bind_normal, He. reflexivity.
Qed.

Lemma updateAtPath_stores_update_witness :
  JSON.parse (current_text initialStates) = Normal (JSON.JObject [])
  /\ heap_closed [] = true
  /\ (1 <= length [Key (js "x")])%nat
  /\ plain (fst (JSON.build (JSON.JObject []) []))
       (snd (JSON.build (JSON.JObject []) [])) [Key (js "x")] = true
  /\ exists h2 r,
       updateValueAtPath (fst (JSON.build (JSON.JObject []) []))
         (snd (JSON.build (JSON.JObject []) [])) (PathArray [Key (js "x")]) one
         = Normal (h2, r)
       /\ getValueAtPath h2 r [Key (js "x")] = Normal one
       /\ updateAtPath (constant_text (js "{}")) initialStates [] [Key (js "x")] one
          = Normal (setJson initialStates (js "{}")).
Proof.
  split; [reflexivity|]. split; [reflexivity|]. split; [simpl; lia|].
  split; [reflexivity|].
  destruct (updateAtPath_stores_update (constant_text (js "{}")) initialStates []
              [Key (js "x")] one (JSON.JObject []) eq_refl eq_refl
              ltac:(simpl; lia) eq_refl)
    as (h2 & r & Hu & Hr & Ht & _).
  exists h2, r. split; [exact Hu|]. split; [exact Hr|]. apply Ht. reflexivity.
Defined.

(** X9 -- The first edit after [clear].  The store that [clear] leaves
    holds the empty text; an update of one step on it, under any name
    but __proto__, hands to the serializer a new map whose only entry is
    the one written, and stores the text that comes back. *)
Theorem first_edit_after_clear
    (stringify : heap -> value -> completion (option jstring))
    (s : JsonStates) (h : heap) (k : step) (v : value) :
  is_name "__proto__" (to_key k) = false ->
  exists h2 a,
    h2 !! a = Some (Obj [(to_key k, v)])
    /\ (forall b o, h !! b = Some o -> h2 !! b = Some o)
    /\ (forall t, stringify h2 (VRef a) = Normal (Some t) ->
          updateAtPath stringify (fst (clear s)) h [k] v
          = Normal (setJson (fst (clear s)) t)).
Proof.
  intros Hk.
  set (h1 := h ++ [Obj []]).
  assert (Hroot : root_clone h1 (VRef (length h)) = Obj []).
  { unfold root_clone, isArray, own_entries, h1.
    rewrite lookup_alloc_new. reflexivity. }
  assert (Hu : updateValueAtPath h1 (VRef (length h)) (PathArray [k]) v
               = Normal (h1 ++ [Obj [(to_key k, v)]], VRef (length h1))).
  { rewrite update_one_step; [rewrite Hroot; reflexivity | reflexivity |].
    unfold entry_key. rewrite Hk. simpl. unfold h1. rewrite lookup_alloc_new.
    reflexivity. }
  exists (h1 ++ [Obj [(to_key k, v)]]), (length h1).
  split; [apply lookup_alloc_new|]. split.
  - intros b o Hb. unfold h1. rewrite <- app_assoc. apply lookup_app_l_Some. exact Hb.
  - intros t Ht. unfold updateAtPath.
    change (JSON.parse (current_text (clear s).1)) with (Normal (JSON.JObject [])).
    cbv iota beta.
    replace (JSON.build (JSON.JObject []) h) with (h1, VRef (length h))
      by reflexivity.
    cbv iota beta. rewrite Hu, bind_normal, Ht. reflexivity.
Qed.

Lemma first_edit_after_clear_witness :
  is_name "__proto__" (to_key (Key (js "x"))) = false
  /\ exists (h2 : heap) (a : nat),
       h2 !! a = Some (Obj [(to_key (Key (js "x")), one)])
       /\ updateAtPath (constant_text (js "{}")) (fst (clear initialStates)) []
            [Key (js "x")] one
          = Normal (setJson (fst (clear initialStates)) (js "{}")).
Proof.
  split; [reflexivity|].
  destruct (first_edit_after_clear (constant_text (js "{}")) initialStates []
              (Key (js "x")) one eq_refl) as (h2 & a & Hn & _ & Ht).
  exists h2, a. split; [exact Hn|]. apply Ht. reflexivity.
Defined.

End StoreMore.

(* ===================================================================== *)
(** * More of the editor                                                 *)
(* ===================================================================== *)

Module EditorMore.
Import JS JSText Heap PathOps NodeModal NodeModalRest Notions EditorNotions Sample.
Import ObjectFacts HeapFacts BuildFacts SaveFacts.

(** X10 -- Coercion keeps to primitives and to the type.  Whatever the
    original and the text, [coerceLike] gives a primitive; from a number
    it gives a number, from a boolean a boolean, from a text a text. *)
Theorem coerceLike_keeps_type (orig : value) (s : jstring) :
  is_primitive (coerceLike orig s) = true
  /\ (typeof orig = TNumber \/ typeof orig = TBoolean \/ typeof orig = TString ->
      typeof (coerceLike orig s) = typeof orig).
Proof.
  unfold coerceLike. destruct orig as [| | b | x | t | a | [c|c n]]; simpl.
  - split; [reflexivity | intros [H|[H|H]]; discriminate].
  - split; [|intros [H|[H|H]]; discriminate].
    destruct (jstring_eqb _ _); reflexivity.
  - destruct (jstring_eqb _ (js "true")); [split; reflexivity|].
    destruct (jstring_eqb _ (js "false")); split; reflexivity.
  - destruct (isNaN (StringToNumber s)); split; reflexivity.
  - split; reflexivity.
  - split; [reflexivity | intros [H|[H|H]]; discriminate].
  - split; [reflexivity | intros [H|[H|H]]; discriminate].
  - split; [reflexivity | intros [H|[H|H]]; discriminate].
Qed.

Lemma coerceLike_keeps_type_witness :
  (typeof one = TNumber \/ typeof one = TBoolean \/ typeof one = TString)
  /\ typeof (coerceLike one (js "seven")) = typeof one.
Proof.
  split; [left; reflexivity|].
  apply (proj2 (coerceLike_keeps_type one (js "seven"))). left. reflexivity.
Defined.

(** On a map, the loop neither adds nor removes a key, leaves alone the
    keys whose original is not a primitive and those without a draft, and
    keeps primitives primitive. *)
Lemma drafted_shape ps : forall drafts qs,
  (forall k, match props_get qs k with Some _ => true | None => false end
             = match props_get ps k with Some _ => true | None => false end) ->
  exists rs,
    drafted (Obj ps) (Obj qs) drafts = Obj rs
    /\ (forall k, match props_get rs k with Some _ => true | None => false end
                  = match props_get ps k with Some _ => true | None => false end)
    /\ (forall k, is_primitive (or_undefined (props_get ps k)) = false
                  \/ undrafted k drafts = true ->
                  props_get rs k = props_get qs k)
    /\ (forall k, is_primitive (or_undefined (props_get qs k)) = true ->
                  is_primitive (or_undefined (props_get rs k)) = true).
Proof.
  induction drafts as [|[kd t] drafts IH]; intros qs Hkeys.
  - exists qs. repeat split; auto.
  - simpl drafted. destruct (is_read_only kd).
    { destruct (IH qs Hkeys) as (rs & Hd & Hk & Hsame & Hprim).
      exists rs. repeat split; auto.
      intros k [H|H]; apply Hsame; [left; exact H|right].
      unfold undrafted in *. simpl in H. apply negb_true_iff in H.
      apply orb_false_iff in H as [_ H]. rewrite H. reflexivity. }
    simpl object_get. set (key := key_of_string kd).
    destruct (is_primitive (or_undefined (props_get ps key))) eqn:Hp.
    2:{ destruct (IH qs Hkeys) as (rs & Hd & Hk & Hsame & Hprim).
        exists rs. repeat split; auto.
        intros k [H|H]; apply Hsame; [left; exact H|right].
        unfold undrafted in *. simpl in H. apply negb_true_iff in H.
        apply orb_false_iff in H as [_ H]. rewrite H. reflexivity. }
    simpl object_set.
    set (x := coerceLike (or_undefined (props_get ps key)) t).
    assert (Hkeys' : forall k,
               match props_get (props_set qs key x) k with
               | Some _ => true | None => false end
               = match props_get ps k with Some _ => true | None => false end).
    { intros k. rewrite props_has_set, Hkeys.
      destruct (key_eqb key k) eqn:E; [|reflexivity].
      apply key_eqb_eq in E. subst k.
      rewrite (props_get_undefined_not_primitive _ _ Hp). reflexivity. }
    destruct (IH _ Hkeys') as (rs & Hd & Hk & Hsame & Hprim).
    exists rs. split; [exact Hd|]. split; [exact Hk|]. split.
    + intros k Hcase.
      assert (Hne : key <> k).
      { intros <-. destruct Hcase as [H|H]; [congruence|].
        unfold undrafted in H. simpl in H. fold key in H.
        rewrite key_eqb_refl in H. discriminate. }
      rewrite Hsame.
      * apply props_get_set_ne. exact Hne.
      * destruct Hcase as [H|H]; [left; exact H|right].
        unfold undrafted in *. simpl in H. apply negb_true_iff in H.
        apply orb_false_iff in H as [_ H]. rewrite H. reflexivity.
    + intros k Hq. apply Hprim.
      destruct (key_eqb key k) eqn:E.
      * apply key_eqb_eq in E. subst k. rewrite props_get_set_eq. simpl.
        apply coerceLike_is_primitive.
      * rewrite props_get_set_ne; [exact Hq|].
        intros ->. rewrite key_eqb_refl in E. discriminate.
Qed.

(** X11 -- A structured save keeps the shape of the node.  The save of a
    map node commits a new object and changes no object there was; the
    object committed has the keys of the node and no other; it holds what
    the node holds under every key whose value is not a primitive and
    under every key without a draft; and where the node holds a
    primitive, it holds a primitive. *)
Theorem structured_save_keeps_shape (h : heap) (st : session) (a : nat) (ps : props) :
  currentNodeValue st = VRef a ->
  h !! a = Some (Obj ps) ->
  exists h' c st',
    onSave h st = Normal (h', c, st')
    /\ commit_value c = VRef (length h)
    /\ (forall b o, h !! b = Some o -> h' !! b = Some o)
    /\ (forall k, has_own h' (commit_value c) k = has_own h (VRef a) k)
    /\ (forall k, is_primitive (get_own h (VRef a) k) = false
                  \/ undrafted k (fieldDrafts st) = true ->
                  get_own h' (commit_value c) k = get_own h (VRef a) k)
    /\ (forall k, is_primitive (get_own h (VRef a) k) = true ->
                  is_primitive (get_own h' (commit_value c) k) = true).
Proof.
  intros Hcur Ha. unfold onSave. rewrite Hcur.
  assert (Hlt : (a < length h)%nat) by (eapply lookup_lt_Some; exact Ha).
  assert (Hobj : isObjectNode h (VRef a) = true).
  { unfold isObjectNode, isArray. simpl. rewrite Ha. reflexivity. }
  rewrite Hobj. simpl truthy. simpl typeof. simpl type_tag_eqb. simpl andb.
  cbv iota. unfold alloc.
  replace (own_entries h (VRef a)) with ps by (simpl; rewrite Ha; reflexivity).
  destruct (apply_drafts_drafted a (length h) ps (fieldDrafts st)
              (h ++ [Obj ps]) ps ltac:(lia)
              (lookup_alloc_old _ _ _ _ Ha) (lookup_alloc_new _ _) (fun _ => eq_refl))
    as (h' & Hd & Hn & Hfr).
  destruct (drafted_shape ps (fieldDrafts st) ps (fun _ => eq_refl))
    as (rs & Hrs & Hkeys & Hsame & Hprim).
  rewrite Hrs in Hn. rewrite Hd, bind_normal.
  eexists _, _, _. split; [reflexivity|]. simpl commit_value.
  split; [reflexivity|]. split.
  { intros b o Hb.
    assert (Hbl : (b < length h)%nat) by (eapply lookup_lt_Some; exact Hb).
    rewrite Hfr by lia. apply lookup_alloc_old. exact Hb. }
  simpl has_own. simpl get_own. rewrite Hn, Ha. simpl.
  split; [exact Hkeys|]. split.
  - intros k Hk. rewrite (Hsame k Hk). reflexivity.
  - exact (Hprim).
Qed.

Lemma structured_save_keeps_shape_witness :
  currentNodeValue coloured_session = VRef 0
  /\ coloured !! 0%nat
     = Some (Obj [(KName (js "color"), VString (js "red")); (KName (js "n"), one)])
  /\ exists h' c st',
       onSave coloured coloured_session = Normal (h', c, st')
       /\ commit_value c = VRef (length coloured)
       /\ has_own h' (commit_value c) (KName (js "n"))
          = has_own coloured (VRef 0) (KName (js "n")).
Proof.
  split; [reflexivity|]. split; [reflexivity|].
  destruct (structured_save_keeps_shape coloured coloured_session 0 _ eq_refl eq_refl)
    as (h' & c & st' & Hs & Hc & _ & Hk & _).
  exists h', c, st'. split; [exact Hs|]. split; [exact Hc|]. apply Hk.
Defined.

End EditorMore.

Module EditorSave.
Import JS JSText Heap PathOps NodeModal NodeModalRest Notions EditorNotions Sample.
Import ObjectFacts HeapFacts BuildFacts SaveFacts.

Lemma undrafted_tail k d ds : undrafted k (d :: ds) = true -> undrafted k ds = true.
Proof.
  unfold undrafted. simpl. intros H. apply negb_true_iff in H.
  apply orb_false_iff in H as [_ H]. rewrite H. reflexivity.
Qed.

Lemma drafted_keeps_undrafted ps : forall drafts qs k,
  undrafted k drafts = true ->
  exists rs, drafted (Obj ps) (Obj qs) drafts = Obj rs
             /\ props_get rs k = props_get qs k.
Proof.
  induction drafts as [|[kd t] drafts IH]; intros qs k Hk.
  - exists qs. auto.
  - pose proof (undrafted_tail _ _ _ Hk) as Hk'. simpl drafted.
    destruct (is_read_only kd); [apply IH; exact Hk'|].
    match goal with
    | |- context [if is_primitive ?x then _ else _] => destruct (is_primitive x)
    end; [|apply IH; exact Hk'].
    simpl object_set. destruct (IH (props_set qs (key_of_string kd)
                                      (coerceLike (object_get (Obj ps) (key_of_string kd)) t))
                                  k Hk') as (rs & Hd & Hg).
    exists rs. split; [exact Hd|]. rewrite Hg. apply props_get_set_ne.
    intros E. unfold undrafted in Hk. simpl in Hk. rewrite E, key_eqb_refl in Hk.
    discriminate.
Qed.

(** The last draft for a key decides what the key holds. *)
Lemma drafted_last ps kd t d2 : forall d1 qs,
  is_read_only kd = false ->
  is_primitive (or_undefined (props_get ps (key_of_string kd))) = true ->
  undrafted (key_of_string kd) d2 = true ->
  exists rs,
    drafted (Obj ps) (Obj qs) (d1 ++ (kd, t) :: d2) = Obj rs
    /\ props_get rs (key_of_string kd)
       = Some (coerceLike (or_undefined (props_get ps (key_of_string kd))) t).
Proof.
  induction d1 as [|[k0 t0] d1 IH]; intros qs Hro Hp Hun.
  - simpl app. simpl drafted. rewrite Hro. simpl object_get. rewrite Hp.
    simpl object_set.
    destruct (drafted_keeps_undrafted ps d2
                (props_set qs (key_of_string kd)
                   (coerceLike (or_undefined (props_get ps (key_of_string kd))) t))
                _ Hun) as (rs & Hd & Hg).
    exists rs. split; [exact Hd|]. rewrite Hg. apply props_get_set_eq.
  - simpl app. simpl drafted. destruct (is_read_only k0); [apply IH; assumption|].
    match goal with
    | |- context [if is_primitive ?x then _ else _] => destruct (is_primitive x)
    end; [|apply IH; assumption].
    simpl object_set. apply IH; assumption.
Qed.

(** X12 -- The draft of a field decides the field.  In the save of a map
    node, a key that is not read-only, holds a primitive and has a draft
    ends up holding the coercion of the last draft made for it. *)
Theorem structured_save_applies_draft (h : heap) (st : session) (a : nat)
    (ps : props) (d1 d2 : list (jstring * jstring)) (kd t : jstring) :
  currentNodeValue st = VRef a ->
  h !! a = Some (Obj ps) ->
  fieldDrafts st = d1 ++ (kd, t) :: d2 ->
  undrafted (key_of_string kd) d2 = true ->
  is_read_only kd = false ->
  is_primitive (get_own h (VRef a) (key_of_string kd)) = true ->
  exists h' c st',
    onSave h st = Normal (h', c, st')
    /\ get_own h' (commit_value c) (key_of_string kd)
       = coerceLike (get_own h (VRef a) (key_of_string kd)) t.
Proof.
  intros Hcur Ha Hdr Hun Hro Hp. unfold onSave. rewrite Hcur.
  assert (Hlt : (a < length h)%nat) by (eapply lookup_lt_Some; exact Ha).
  assert (Hobj : isObjectNode h (VRef a) = true).
  { unfold isObjectNode, isArray. simpl. rewrite Ha. reflexivity. }
  rewrite Hobj. simpl truthy. simpl typeof. simpl type_tag_eqb. simpl andb.
  cbv iota. unfold alloc.
  replace (own_entries h (VRef a)) with ps by (simpl; rewrite Ha; reflexivity).
  destruct (apply_drafts_drafted a (length h) ps (fieldDrafts st)
              (h ++ [Obj ps]) ps ltac:(lia)
              (lookup_alloc_old _ _ _ _ Ha) (lookup_alloc_new _ _) (fun _ => eq_refl))
    as (h' & Hd & Hn & Hfr).
  rewrite (get_own_ref _ _ _ _ Ha) in Hp |- *. simpl object_get in Hp |- *.
  rewrite Hdr in Hn.
  destruct (drafted_last ps kd t d2 d1 ps Hro Hp Hun) as (rs & Hrs & Hg).
  rewrite Hrs in Hn. rewrite Hd, bind_normal.
  eexists _, _, _. split; [reflexivity|]. simpl commit_value.
  rewrite (get_own_ref _ _ _ _ Hn). simpl. rewrite Hg. reflexivity.
Qed.

Lemma structured_save_applies_draft_witness :
  currentNodeValue coloured_session = VRef 0
  /\ coloured !! 0%nat
     = Some (Obj [(KName (js "color"), VString (js "red")); (KName (js "n"), one)])
  /\ fieldDrafts coloured_session = [(js "color", js "blue")] ++ (js "n", js "2") :: []
  /\ undrafted (key_of_string (js "n")) [] = true
  /\ is_read_only (js "n") = false
  /\ is_primitive (get_own coloured (VRef 0) (key_of_string (js "n"))) = true
  /\ exists h' c st',
       onSave coloured coloured_session = Normal (h', c, st')
       /\ get_own h' (commit_value c) (key_of_string (js "n"))
          = coerceLike (get_own coloured (VRef 0) (key_of_string (js "n"))) (js "2").
Proof.
  repeat (split; [reflexivity|]).
  apply (structured_save_applies_draft coloured coloured_session 0
           [(KName (js "color"), VString (js "red")); (KName (js "n"), one)]
           [(js "color", js "blue")] [] (js "n") (js "2"));
    reflexivity.
Defined.

(** ** Saving always commits *)





End EditorSave.

Module EditorView.
Import JS JSText Heap PathOps NodeModal NodeModalRest Notions EditorNotions Sample.
Import ObjectFacts HeapFacts BuildFacts SaveFacts.

(** ** primitiveOnly *)

Lemma props_get_app ps qs k :
  props_get (ps ++ qs) k =
    match props_get ps k with Some v => Some v | None => props_get qs k end.
Proof.
  induction ps as [|[k' v'] ps IH]; simpl; [reflexivity|].
  destruct (key_eqb k' k); [reflexivity | exact IH].
Qed.

Lemma props_set_fresh ps k v : props_get ps k = None -> props_set ps k v = ps ++ [(k, v)].
Proof.
  induction ps as [|[k' v'] ps IH]; simpl; [reflexivity|].
  destruct (key_eqb k' k); [discriminate|]. intros H. rewrite IH by exact H. reflexivity.
Qed.

Lemma existsb_key_false k ks :
  existsb (key_eqb k) ks = false -> forall k', In k' ks -> k <> k'.
Proof.
  intros H k' Hin ->. apply not_true_iff_false in H. apply H.
  apply existsb_exists. exists k'. split; [exact Hin | apply key_eqb_refl].
Qed.

Lemma distinct_get ps k v :
  distinct_keys ps = true -> In (k, v) ps -> props_get ps k = Some v.
Proof.
  induction ps as [|[k' v'] ps IH]; simpl; [intros _ []|].
  intros Hd [Heq | Hin].
  - injection Heq as -> ->. rewrite key_eqb_refl. reflexivity.
  - apply andb_true_iff in Hd as [Hk Hd]. apply negb_true_iff in Hk.
    rewrite key_eqb_neq; [apply IH; assumption|].
    apply (existsb_key_false k' (map fst ps) Hk).
    apply in_map_iff. exists (k, v). auto.
Qed.

Lemma keep_primitives_filter n : forall entries h acc,
  h !! n = Some (Obj acc) ->
  distinct_keys entries = true ->
  (forall k v, In (k, v) entries -> props_get acc k = None) ->
  (forall k v, In (k, v) entries -> is_name "__proto__" k = false) ->
  exists h',
    keep_primitives h (VRef n) entries = Normal h'
    /\ h' !! n = Some (Obj (acc ++ primitive_entries entries))
    /\ (forall b, b <> n -> h' !! b = h !! b).
Proof.
  induction entries as [|[k v] entries IH]; intros h acc Hn Hd Hfresh Hnp.
  - exists h. unfold primitive_entries. rewrite app_nil_r. auto.
  - simpl in Hd. apply andb_true_iff in Hd as [Hk Hd]. apply negb_true_iff in Hk.
    change (keep_primitives h (VRef n) ((k, v) :: entries))
      with (if is_primitive v then
              h' ← set_member h (VRef n) k v;
              keep_primitives h' (VRef n) entries
            else keep_primitives h (VRef n) entries).
    unfold primitive_entries. rewrite filter_cons. simpl snd.
    destruct (is_primitive v) eqn:Hp.
    + rewrite decide_True by reflexivity.
      rewrite (set_member_ref _ _ _ _ _ Hn), bind_normal
        by (unfold entry_key; rewrite (Hnp k v (or_introl eq_refl)); reflexivity).
      simpl object_set.
      rewrite props_set_fresh by (eapply Hfresh; left; reflexivity).
      assert (Hlt : (n < length h)%nat) by (eapply lookup_lt_Some; eassumption).
      destruct (IH (<[n := Obj (acc ++ [(k, v)])]> h) (acc ++ [(k, v)])) as (h' & Hk' & Hn' & Hfr).
      * apply list_lookup_insert_eq. exact Hlt.
      * exact Hd.
      * intros k' v' Hin. rewrite props_get_app.
        rewrite (Hfresh k' v') by (right; exact Hin). simpl.
        rewrite key_eqb_neq; [reflexivity|].
        apply (existsb_key_false k (map fst entries) Hk).
        apply in_map_iff. exists (k', v'). auto.
      * intros k' v' Hin. eapply Hnp. right. exact Hin.
      * exists h'. split; [exact Hk'|]. split.
        -- rewrite Hn'. rewrite <- app_assoc. reflexivity.
        -- intros b Hb. rewrite Hfr by exact Hb.
           apply list_lookup_insert_ne. congruence.
    + rewrite decide_False by discriminate.
      apply IH; [exact Hn | exact Hd | |].
      * intros k' v' Hin. eapply Hfresh. right. exact Hin.
      * intros k' v' Hin. eapply Hnp. right. exact Hin.
Qed.

(** X14 -- [primitiveOnly] filters a map and nothing else.  A value that
    is not a map -- a primitive, null, an array, a function -- is returned
    as it is.  Of a map that has no entry named __proto__, a new object is
    returned that holds, in their order, the entries of the map whose
    value is a primitive, and the map is left as it was. *)
Theorem primitiveOnly_filters (h : heap) (obj : value) :
  (isObjectNode h obj = false -> primitiveOnly h obj = Normal (h, obj))
  /\ (forall a ps,
        obj = VRef a -> h !! a = Some (Obj ps) -> distinct_keys ps = true ->
        props_get ps (KName (js "__proto__")) = None ->
        exists h',
          primitiveOnly h obj = Normal (h', VRef (length h))
          /\ h' !! length h = Some (Obj (primitive_entries ps))
          /\ (forall b o, h !! b = Some o -> h' !! b = Some o)).
Proof.
  split.
  - unfold primitiveOnly, isObjectNode.
    destruct obj as [| | b | x | s | a | [c|c s]]; intros Hno; unfold isArray; simpl;
      rewrite ?orb_true_r; try reflexivity.
    + unfold isArray in Hno. simpl in Hno.
      destruct (match h !! a with Some (Arr _ _) => true | _ => false end);
        [reflexivity | discriminate].
    + destruct c; try discriminate Hno; reflexivity.
  - intros a ps -> Ha Hd Hnp. unfold primitiveOnly, isArray. simpl. rewrite Ha.
    unfold alloc.
    assert (Hnp' : forall k v, In (k, v) ps -> is_name "__proto__" k = false).
    { intros k v Hin. destruct (is_name "__proto__" k) eqn:E; [|reflexivity].
      apply is_name_eq in E. subst k.
      rewrite (distinct_get _ _ _ Hd Hin) in Hnp. discriminate. }
    destruct (keep_primitives_filter (length h) ps (h ++ [Obj []]) []
                (lookup_alloc_new _ _) Hd (fun _ _ _ => eq_refl) Hnp')
      as (h' & Hk & Hn & Hfr).
    rewrite Hk, bind_normal. exists h'. split; [reflexivity|].
    split; [exact Hn|]. intros b o Hb.
    assert (Hbl : (b < length h)%nat) by (eapply lookup_lt_Some; exact Hb).
    rewrite Hfr by lia. apply lookup_alloc_old. exact Hb.
Qed.

Lemma primitiveOnly_filters_witness :
  isObjectNode nested (VString (js "x")) = false
  /\ primitiveOnly nested (VString (js "x")) = Normal (nested, VString (js "x"))
  /\ nested !! 1%nat = Some (Obj [(KName (js "a"), VRef 0)])
  /\ distinct_keys [(KName (js "a"), VRef 0)] = true
  /\ props_get [(KName (js "a"), VRef 0)] (KName (js "__proto__")) = None
  /\ exists h',
       primitiveOnly nested nested_root = Normal (h', VRef (length nested))
       /\ h' !! length nested = Some (Obj (primitive_entries [(KName (js "a"), VRef 0)])).
Proof.
  split; [reflexivity|].
  split; [apply (proj1 (primitiveOnly_filters nested (VString (js "x")))); reflexivity|].
  split; [reflexivity|]. split; [reflexivity|]. split; [reflexivity|].
  destruct (proj2 (primitiveOnly_filters nested nested_root) 1%nat
              [(KName (js "a"), VRef 0)] eq_refl eq_refl eq_refl eq_refl)
    as (h' & Hp & Hn & _).
  exists h'. split; assumption.
Defined.

(** ** jsonPathToString *)

Lemma join_brackets parts : forall p,
  js "[" ++ join (js "][") (p :: parts) ++ js "]"
  = concat (map (fun t => [91] ++ t ++ [93]) (p :: parts)).
Proof.
  induction parts as [|q parts IH]; intros p.
  - simpl. rewrite app_nil_r. reflexivity.
  - change (join (js "][") (p :: q :: parts))
      with (p ++ js "][" ++ join (js "][") (q :: parts)).
    change (concat (map (fun t => [91] ++ t ++ [93]) (p :: q :: parts)))
      with (([91] ++ p ++ [93])
            ++ concat (map (fun t => [91] ++ t ++ [93]) (q :: parts))).
    rewrite <- IH. change (js "[") with [91]. change (js "]") with [93].
    change (js "][") with [93; 91]. rewrite <- !app_assoc. simpl. reflexivity.
Qed.

(** X15 -- A path is rendered step by step.  The rendering of a path is
    the dollar sign followed by one bracket group for each step -- the
    text of the number for an index, the name between quotes for a name --
    so the rendering of two paths joined is the rendering of the first
    followed by the groups of the second; the path that is not there
    renders as the empty path. *)
Theorem jsonPathToString_by_steps (p q : Path) :
  jsonPathToString (Some p) = js "$" ++ concat (map bracket p)
  /\ jsonPathToString (Some (p ++ q))
     = jsonPathToString (Some p) ++ concat (map bracket q)
  /\ jsonPathToString None = jsonPathToString (Some []).
Proof.
  assert (H : forall p, jsonPathToString (Some p) = js "$" ++ concat (map bracket p)).
  { intros [|s r]; [reflexivity|].
    change (jsonPathToString (Some (s :: r)))
      with (js "$" ++ (js "[" ++ join (js "][") (map segment_text (s :: r)) ++ js "]")).
    simpl map. rewrite join_brackets. simpl map. rewrite map_map. reflexivity. }
  split; [apply H|]. split; [|reflexivity].
  rewrite !H, map_app, concat_app, app_assoc. reflexivity.
Qed.

(** X16 -- The rendering does not tell every path from every other.  A
    name is put between quotes as it is, so one step whose name holds a
    closing quote and bracket followed by an opening bracket and quote
    renders as two steps do. *)
Theorem jsonPathToString_not_injective (a b : jstring) :
  jsonPathToString (Some [Key (a ++ [34; 93; 91; 34] ++ b)])
  = jsonPathToString (Some [Key a; Key b])
  /\ [Key (a ++ [34; 93; 91; 34] ++ b)] <> [Key a; Key b].
Proof.
  split; [|discriminate].
  unfold jsonPathToString. simpl. rewrite <- !app_assoc. simpl.
  rewrite <- !app_assoc. reflexivity.
Qed.

End EditorView.

Module EditorRoundTrip.
Import JS JSText Heap PathOps NodeModal NodeModalRest Notions EditorNotions Sample.
Import ObjectFacts HeapFacts BuildFacts SaveFacts EditorView.

(** ** Opening the editor and saving at once *)

Lemma props_set_same ps k v : props_get ps k = Some v -> props_set ps k v = ps.
Proof.
  induction ps as [|[k' v'] ps IH]; simpl; [discriminate|].
  destruct (key_eqb k' k); [congruence|].
  intros H. rewrite IH by exact H. reflexivity.
Qed.

Lemma float_eqb_eq x y : float_eqb x y = true -> x = y.
Proof.
  destruct x as [s | s | | s m e], y as [s' | s' | | s' m' e']; simpl;
    try discriminate; try reflexivity.
  - intros H. apply Bool.eqb_prop in H. congruence.
  - intros H. apply Bool.eqb_prop in H. congruence.
  - intros H. apply andb_true_iff in H as [H He].
    apply andb_true_iff in H as [Hs Hm].
    apply Bool.eqb_prop in Hs. apply Pos.eqb_eq in Hm. apply Z.eqb_eq in He.
    congruence.
Qed.

Lemma coerceLike_own_text v t :
  is_primitive v = true ->
  String_of v = Some t ->
  (forall x, v = VNumber x -> StringToNumber t = x) ->
  coerceLike v t = v.
Proof.
  intros Hp Ht Hx. destruct v as [| | b | x | s | a | i]; try discriminate.
  - injection Ht as <-. reflexivity.
  - destruct b; injection Ht as <-; reflexivity.
  - unfold coerceLike. simpl typeof. simpl type_tag_eqb. cbv iota.
    rewrite (Hx x eq_refl). destruct (isNaN x); reflexivity.
  - injection Ht as <-. reflexivity.
Qed.

Lemma drafted_neutral ps : forall drafts,
  (forall k t, In (k, t) drafts ->
     is_primitive (object_get (Obj ps) (key_of_string k)) = true ->
     coerceLike (object_get (Obj ps) (key_of_string k)) t
     = object_get (Obj ps) (key_of_string k)) ->
  drafted (Obj ps) (Obj ps) drafts = Obj ps.
Proof.
  induction drafts as [|[k t] drafts IH]; intros H; [reflexivity|].
  assert (IH' : drafted (Obj ps) (Obj ps) drafts = Obj ps).
  { apply IH. intros k' t' Hin. apply H. right. exact Hin. }
  change (drafted (Obj ps) (Obj ps) ((k, t) :: drafts))
    with (if is_read_only k then drafted (Obj ps) (Obj ps) drafts
          else if is_primitive (object_get (Obj ps) (key_of_string k))
          then drafted (Obj ps)
                 (object_set (Obj ps) (key_of_string k)
                    (coerceLike (object_get (Obj ps) (key_of_string k)) t)) drafts
          else drafted (Obj ps) (Obj ps) drafts).
  destruct (is_read_only k); [exact IH'|].
  destruct (is_primitive (object_get (Obj ps) (key_of_string k))) eqn:Hp;
    [|exact IH'].
  rewrite (H k t (or_introl eq_refl) Hp).
  pose proof (props_get_undefined_not_primitive ps (key_of_string k) Hp) as Hs.
  simpl object_get. destruct (props_get ps (key_of_string k)) as [v|] eqn:Hg;
    [|discriminate].
  simpl object_set. rewrite (props_set_same _ _ _ Hg). exact IH'.
Qed.

Lemma In_drafts_put ds k t : forall x,
  In x (drafts_put ds k t) -> In x ds \/ x = (k, t).
Proof.
  induction ds as [|[k' t'] ds IH]; simpl; intros x.
  - intros [<- | []]. right. reflexivity.
  - destruct (jstring_eqb k' k) eqn:Hk.
    + apply jstring_eqb_eq in Hk as ->. intros [<- | Hin]; auto.
    + intros [<- | Hin]; [auto|]. destruct (IH x Hin); auto.
Qed.

Lemma In_drafts_set ds k t x :
  In x (drafts_set ds k t) -> In x ds \/ x = (k, t).
Proof.
  unfold drafts_set. destruct (jstring_eqb k (js "__proto__")); [auto|].
  apply In_drafts_put.
Qed.

Lemma seed_drafts_sound : forall entries next x,
  In x (seed_drafts entries next) ->
  In x next
  \/ exists k v, In (k, v) entries /\ is_primitive v = true
                 /\ String_of v = Some (snd x) /\ fst x = key_text k.
Proof.
  induction entries as [|[k v] entries IH]; intros next x; [simpl; auto|].
  assert (Hrest : In x (seed_drafts entries next) ->
                  In x next
                  \/ exists k0 v0, In (k0, v0) ((k, v) :: entries)
                       /\ is_primitive v0 = true
                       /\ String_of v0 = Some (snd x) /\ fst x = key_text k0).
  { intros Hin. destruct (IH next x Hin) as [Hn | (k0 & v0 & Hi & Hr)]; [auto|].
    right. exists k0, v0. split; [right; exact Hi | exact Hr]. }
  simpl seed_drafts. destruct (is_primitive v) eqn:Hp; [|exact Hrest].
  destruct (String_of v) as [t|] eqn:Ht; [|exact Hrest].
  intros Hin. destruct (IH _ x Hin) as [Hn | (k0 & v0 & Hi & Hr)].
  - destruct (In_drafts_set _ _ _ _ Hn) as [Hn' | ->]; [auto|].
    right. exists k, v. simpl. auto.
  - right. exists k0, v0. split; [right; exact Hi | exact Hr].
Qed.

(** X17 -- Opening the editor and saving at once changes nothing.  For a
    map node whose keys are distinct and are the keys their names denote,
    and whose numbers have a text that reads back as the number, the save
    of the drafts that [initializeFieldDrafts] has made commits a new
    object with the very entries of the node, in their order, and leaves
    the node as it was. *)
Theorem unedited_save_is_copy (h : heap) (st : session) (defaultText : jstring)
    (a : nat) (ps : props) :
  currentNodeValue st = VRef a ->
  h !! a = Some (Obj ps) ->
  distinct_keys ps = true ->
  named_keys ps = true ->
  numbers_read_back ps = true ->
  exists h' c st',
    onSave h (initializeFieldDrafts h st defaultText) = Normal (h', c, st')
    /\ commit_path c = path st
    /\ commit_value c = VRef (length h)
    /\ h' !! length h = Some (Obj ps)
    /\ h' !! a = Some (Obj ps).
Proof.
  intros Hcur Ha Hd Hnamed Hnum.
  assert (Hlt : (a < length h)%nat) by (eapply lookup_lt_Some; exact Ha).
  assert (Hobj : isObjectNode h (VRef a) = true).
  { unfold isObjectNode, isArray. simpl. rewrite Ha. reflexivity. }
  assert (Hown : own_entries h (VRef a) = ps) by (simpl; rewrite Ha; reflexivity).
  unfold initializeFieldDrafts. rewrite Hcur, Hobj, Hown.
  simpl truthy. simpl typeof. simpl type_tag_eqb. simpl andb. cbv iota.
  unfold onSave. simpl currentNodeValue. simpl fieldDrafts. simpl path.
  rewrite Hobj, Hown.
  simpl truthy. simpl typeof. simpl type_tag_eqb. simpl andb. cbv iota.
  unfold alloc.
  destruct (apply_drafts_drafted a (length h) ps (seed_drafts ps [])
              (h ++ [Obj ps]) ps ltac:(lia)
              (lookup_alloc_old _ _ _ _ Ha) (lookup_alloc_new _ _) (fun _ => eq_refl))
    as (h' & Hdr & Hn & Hfr).
  rewrite Hdr, bind_normal. eexists _, _, _. split; [reflexivity|].
  split; [reflexivity|]. split; [reflexivity|]. split.
  - rewrite Hn. f_equal. apply drafted_neutral. intros k t Hin _.
    destruct (seed_drafts_sound ps [] (k, t) Hin) as [[] | (k0 & v0 & Hi & Hp & Ht & Hk)].
    simpl in Ht, Hk. subst k.
    unfold named_keys in Hnamed. rewrite forallb_forall in Hnamed.
    pose proof (Hnamed _ Hi) as Hk0. simpl in Hk0. apply key_eqb_eq in Hk0.
    rewrite Hk0. simpl object_get. rewrite (distinct_get _ _ _ Hd Hi). simpl.
    apply coerceLike_own_text; [exact Hp | exact Ht |].
    intros x ->. unfold numbers_read_back in Hnum. rewrite forallb_forall in Hnum.
    pose proof (Hnum _ Hi) as Hx. simpl in Hx. simpl in Ht. rewrite Ht in Hx.
    apply float_eqb_eq. exact Hx.
  - rewrite Hfr by lia. apply lookup_alloc_old. exact Ha.
Qed.

Lemma unedited_save_is_copy_witness :
  currentNodeValue coloured_session = VRef 0
  /\ coloured !! 0%nat
     = Some (Obj [(KName (js "color"), VString (js "red")); (KName (js "n"), one)])
  /\ distinct_keys [(KName (js "color"), VString (js "red")); (KName (js "n"), one)] = true
  /\ named_keys [(KName (js "color"), VString (js "red")); (KName (js "n"), one)] = true
  /\ numbers_read_back [(KName (js "color"), VString (js "red")); (KName (js "n"), one)] = true
  /\ exists h' c st',
       onSave coloured (initializeFieldDrafts coloured coloured_session (js "{}"))
       = Normal (h', c, st')
       /\ commit_path c = path coloured_session
       /\ commit_value c = VRef (length coloured)
       /\ h' !! length coloured
          = Some (Obj [(KName (js "color"), VString (js "red")); (KName (js "n"), one)])
       /\ h' !! 0%nat
          = Some (Obj [(KName (js "color"), VString (js "red")); (KName (js "n"), one)]).
Proof.
  repeat (split; [vm_compute; reflexivity|]).
  apply (unedited_save_is_copy coloured coloured_session (js "{}") 0
           [(KName (js "color"), VString (js "red")); (KName (js "n"), one)]);
    vm_compute; reflexivity.
Defined.

End EditorRoundTrip.
